(** * Propositional formulas: syntax, semantics and operator bases

    A shallow embedding of [propositions/syntax.py],
    [propositions/semantics.py] and [propositions/operators.py].

    Conventions of the embedding.
    - A Python [str] is a [string]; its characters are the code points
      below 256, on which [str.isdecimal] holds exactly for ['0'..'9'].
    - A [Formula] object exists only through [Formula.__init__], whose
      assertions tie the number of operands to the class of [root]. The
      three shapes are the constructors [Leaf], [Unary] and [Binary];
      [Formula_init] is the constructor with its assertions and
      [constructed] the objects it can build.
    - A function that may raise returns an [option]; [None] stands for any
      raised exception ([AssertionError], [ValueError], [KeyError],
      [IndexError]).
    - Python dictionaries are [gmap string _], Python sets [gset string].
    - The two recursive-descent parsers and the local [convert] helpers
      recurse on values that are not subterms of their argument; they are
      defined by recursion on a depth budget, and shown to return within
      the budget the top-level functions hand them. *)

From stdpp Require Import gmap strings list sorting.
From Stdlib Require Import Ascii.

(** ** Strings *)

(** [s[:n]] *)
Fixpoint str_take (n : nat) (s : string) : string :=
  match n, s with
  | S n', String c s' => String c (str_take n' s')
  | _, _ => EmptyString
  end.

(** [s[n:]] *)
Fixpoint str_drop (n : nat) (s : string) : string :=
  match n, s with
  | S n', String _ s' => str_drop n' s'
  | _, _ => s
  end.

(** [c.isdecimal()] for a single character. *)
Definition char_isdecimal (c : ascii) : bool :=
  (("0" <=? c)%char && (c <=? "9")%char)%bool.

Fixpoint str_all (p : ascii → bool) (s : string) : bool :=
  match s with
  | EmptyString => true
  | String c s' => p c && str_all p s'
  end.

(** [s.isdecimal()]: every character is a decimal and there is at least
    one character. *)
Definition str_isdecimal (s : string) : bool :=
  match s with
  | EmptyString => false
  | String _ _ => str_all char_isdecimal s
  end.

(** [string[0] >= 'p' and string[0] <= 'z'] on the first character. *)
Definition char_is_p_to_z (c : ascii) : bool :=
  (("p" <=? c)%char && (c <=? "z")%char)%bool.

(** ** Token classes ([syntax.py], lines 15-62) *)

(** [is_variable]. On the empty string Python raises [IndexError] at
    [string[0]]; the callers in this repository use the test as a
    condition or under [assert], where a raise and [False] both abort the
    caller, so the empty string is mapped to [false]. *)
Definition is_variable (s : string) : bool :=
  match s with
  | EmptyString => false
  | String c rest =>
      char_is_p_to_z c && (Nat.eqb (String.length s) 1 || str_isdecimal rest)
  end.

Definition is_constant (s : string) : bool :=
  (String.eqb s "T" || String.eqb s "F")%bool.

Definition is_unary (s : string) : bool := String.eqb s "~".

Definition binary_operators : list string :=
  ["&"; "|"; "->"; "+"; "<->"; "-&"; "-|"]%string.

Definition is_binary (s : string) : bool :=
  bool_decide (s ∈ binary_operators).

(** ** Formulas ([syntax.py], class [Formula]) *)

Inductive Formula : Type :=
| Leaf (root : string)
| Unary (root : string) (first : Formula)
| Binary (root : string) (first second : Formula).

#[global] Instance Formula_eq_dec : EqDecision Formula.
Proof. solve_decision. Defined.

(** [Formula.__init__], with its assertions. *)
Definition Formula_init (root : string) (first second : option Formula)
  : option Formula :=
  if (is_variable root || is_constant root)%bool then
    match first, second with
    | None, None => Some (Leaf root)
    | _, _ => None
    end
  else if is_unary root then
    match first, second with
    | Some a, None => Some (Unary root a)
    | _, _ => None
    end
  else if is_binary root then
    match first, second with
    | Some a, Some b => Some (Binary root a b)
    | _, _ => None
    end
  else None.

(** The objects the public constructor can build: the operands are built
    objects and the assertions of [__init__] pass. *)
Inductive constructed : Formula → Prop :=
| constructed_init root first second f :
    Formula_init root first second = Some f →
    (∀ a, first = Some a → constructed a) →
    (∀ b, second = Some b → constructed b) →
    constructed f.

(** The same invariant as a boolean test on the tree. *)
Fixpoint wf (f : Formula) : bool :=
  match f with
  | Leaf r => is_variable r || is_constant r
  | Unary r a => is_unary r && wf a
  | Binary r a b => is_binary r && wf a && wf b
  end.

(** [Formula.__repr__] *)
Fixpoint repr (f : Formula) : string :=
  match f with
  | Leaf r => r
  | Unary r a => r +:+ repr a
  | Binary r a b => "(" +:+ repr a +:+ r +:+ repr b +:+ ")"
  end.

(** [Formula.__eq__]: two formulas are equal when they print alike. *)
Definition Formula_eq (f g : Formula) : bool := String.eqb (repr f) (repr g).

(** [Formula.variables] *)
Fixpoint variables (f : Formula) : gset string :=
  match f with
  | Leaf r => if is_variable r then {[ r ]} else ∅
  | Unary _ a => variables a
  | Binary _ a b => variables a ∪ variables b
  end.

(** [Formula.operators] *)
Fixpoint operators (f : Formula) : gset string :=
  match f with
  | Leaf r => if is_variable r then ∅ else {[ r ]}
  | Unary r a => {[ r ]} ∪ operators a
  | Binary r a b => {[ r ]} ∪ (operators a ∪ operators b)
  end.

(** [Formula.polish] *)
Fixpoint polish (f : Formula) : string :=
  match f with
  | Leaf r => r
  | Unary r a => r +:+ polish a
  | Binary r a b => r +:+ polish a +:+ polish b
  end.

(** ** The infix parser ([Formula._parse_prefix], [is_formula], [parse]) *)

(** The scanning loop of the variable case:
    [index = 1; while index < len(s) and s[index].isdecimal(): index += 1].
    [decimal_run] counts the decimals at the head of [s[1:]]. *)
Fixpoint decimal_run (s : string) : nat :=
  match s with
  | String c s' => if char_isdecimal c then S (decimal_run s') else 0
  | EmptyString => 0
  end.

Definition variable_index (s : string) : nat := S (decimal_run (str_drop 1 s)).

(** [range(hi, 0, -1)] *)
Fixpoint range_down (hi : nat) : list nat :=
  match hi with
  | 0 => []
  | S n => hi :: range_down n
  end.

(** The body of the operator loop, over the lengths still to try: the
    first candidate [s[:length]] that is a binary operator is taken and
    the loop breaks. *)
Fixpoint operator_loop (lengths : list nat) (s : string)
  : option (string * string) :=
  match lengths with
  | [] => None
  | length :: lengths' =>
      let candidate := str_take length s in
      if is_binary candidate then Some (candidate, str_drop length s)
      else operator_loop lengths' s
  end.

(** [max_op_length = min(3, len(s))], then the loop over
    [range(max_op_length, 0, -1)]. [None] is [operator is None]. *)
Definition match_operator (s : string) : option (string * string) :=
  operator_loop (range_down (Nat.min 3 (String.length s))) s.

(** [Formula._parse_prefix], by recursion on a depth budget; the outer
    [None] is an exhausted budget, the inner pair is Python's result. *)
Fixpoint parse_prefix_fuel (fuel : nat) (s : string)
  : option (option Formula * string) :=
  match fuel with
  | 0 => None
  | S fuel' =>
      match s with
      | EmptyString => Some (None, "Unexpected end of input")
      | String c rest =>
          let c0 := String c EmptyString in
          let index := variable_index s in
          if is_constant c0 then Some (Some (Leaf c0), rest)
          else if char_is_p_to_z c && is_variable (str_take index s) then
            Some (Some (Leaf (str_take index s)), str_drop index s)
          else if is_unary c0 then
            '(formula, remainder) ← parse_prefix_fuel fuel' rest;
            match formula with
            | None => Some (None, remainder)
            | Some formula => Some (Some (Unary c0 formula), remainder)
            end
          else if String.eqb c0 "(" then
            '(first, remainder) ← parse_prefix_fuel fuel' rest;
            match first with
            | None => Some (None, remainder)
            | Some first =>
                if String.eqb remainder "" then
                  Some (None, "Expected binary operator")
                else
                  match match_operator remainder with
                  | None => Some (None, "Expected binary operator")
                  | Some (operator, remainder) =>
                      '(second, remainder) ← parse_prefix_fuel fuel' remainder;
                      match second with
                      | None => Some (None, remainder)
                      | Some second =>
                          if (String.eqb remainder ""
                              || negb (String.eqb (str_take 1 remainder) ")"))%bool
                          then Some (None, "Expected closing parenthesis")
                          else Some (Some (Binary operator first second),
                                     str_drop 1 remainder)
                      end
                  end
            end
          else Some (None, "Invalid formula")
      end
  end.

(** Every recursive call is on a strictly shorter string, so a budget of
    one more than the length is never exhausted
    (see [parse_prefix_total]). *)
Definition _parse_prefix (s : string) : option (option Formula * string) :=
  parse_prefix_fuel (S (String.length s)) s.

(** [Formula.is_formula] *)
Definition is_formula (s : string) : option bool :=
  '(formula, remainder) ← _parse_prefix s;
  Some (bool_decide (is_Some formula) && String.eqb remainder "").

(** [Formula.parse], with its two assertions. *)
Definition parse (s : string) : option Formula :=
  ok ← is_formula s;
  if ok : bool then
    '(formula, remainder) ← _parse_prefix s;
    match formula with
    | Some f => if String.eqb remainder "" then Some f else None
    | None => None
    end
  else None.

(** ** The polish parser ([Formula.parse_polish]) *)

(** The local function [parse_prefix] of [parse_polish]. *)
Fixpoint polish_prefix_fuel (fuel : nat) (s : string)
  : option (option Formula * string) :=
  match fuel with
  | 0 => None
  | S fuel' =>
      match s with
      | EmptyString => Some (None, "Unexpected end of input")
      | String c rest =>
          let c0 := String c EmptyString in
          let index := variable_index s in
          if is_constant c0 then Some (Some (Leaf c0), rest)
          else if char_is_p_to_z c && is_variable (str_take index s) then
            Some (Some (Leaf (str_take index s)), str_drop index s)
          else if is_unary c0 then
            '(formula, remainder) ← polish_prefix_fuel fuel' rest;
            match formula with
            | None => Some (None, remainder)
            | Some formula => Some (Some (Unary c0 formula), remainder)
            end
          else
            match match_operator s with
            | None => Some (None, "Invalid formula")
            | Some (operator, remainder) =>
                '(first, remainder) ← polish_prefix_fuel fuel' remainder;
                match first with
                | None => Some (None, remainder)
                | Some first =>
                    '(second, remainder) ← polish_prefix_fuel fuel' remainder;
                    match second with
                    | None => Some (None, remainder)
                    | Some second =>
                        Some (Some (Binary operator first second), remainder)
                    end
                end
            end
      end
  end.

Definition polish_prefix (s : string) : option (option Formula * string) :=
  polish_prefix_fuel (S (String.length s)) s.

Definition parse_polish (s : string) : option Formula :=
  '(formula, remainder) ← polish_prefix s;
  match formula with
  | Some f => if String.eqb remainder "" then Some f else None
  | None => None
  end.

(** ** Substitution ([substitute_variables], [substitute_operators]) *)

(** [for key in d: assert p(key, d[key])] *)
Definition dict_all {V} (p : string → V → bool) (d : gmap string V) : bool :=
  forallb (λ kv, p kv.1 kv.2) (map_to_list d).

Fixpoint substitute_variables (f : Formula)
    (substitution_map : gmap string Formula) : option Formula :=
  if negb (dict_all (λ variable _, is_variable variable) substitution_map)
  then None
  else
    match f with
    | Leaf r =>
        if is_variable r then
          match substitution_map !! r with
          | Some g => Some g
          | None => Some (Leaf r)
          end
        else Some (Leaf r)
    | Unary r a =>
        a' ← substitute_variables a substitution_map;
        Some (Unary r a')
    | Binary r a b =>
        a' ← substitute_variables a substitution_map;
        b' ← substitute_variables b substitution_map;
        Some (Binary r a' b')
    end.

(** The two assertions [substitute_operators] makes on every key. *)
Definition operator_template_ok (operator : string) (template : Formula)
  : bool :=
  (is_constant operator || is_unary operator || is_binary operator)
  && bool_decide (variables template ⊆ ({[ "p"; "q" ]} : gset string)).

Fixpoint substitute_operators (f : Formula)
    (substitution_map : gmap string Formula) : option Formula :=
  if negb (dict_all operator_template_ok substitution_map) then None
  else
    match f with
    | Leaf r =>
        if is_variable r then Some (Leaf r)
        else
          match substitution_map !! r with
          | Some template => Some template
          | None => Some (Leaf r)
          end
    | Unary r a =>
        substituted_first ← substitute_operators a substitution_map;
        match substitution_map !! r with
        | Some template =>
            substitute_variables template {[ "p" := substituted_first ]}
        | None => Some (Unary r substituted_first)
        end
    | Binary r a b =>
        substituted_first ← substitute_operators a substitution_map;
        substituted_second ← substitute_operators b substitution_map;
        match substitution_map !! r with
        | Some template =>
            substitute_variables template
              (<[ "p" := substituted_first ]>
                 {[ "q" := substituted_second ]})
        | None => Some (Binary r substituted_first substituted_second)
        end
    end.

(** ** Models and evaluation ([semantics.py]) *)

(** [is_model] *)
Definition is_model (model : gmap string bool) : bool :=
  dict_all (λ key _, is_variable key) model.

(** [variables(model)], with its assertion. *)
Definition model_variables (model : gmap string bool) : option (gset string) :=
  if is_model model then Some (dom model) else None.

(** [evaluate]. The two assertions are made at every call, as in the
    source; the last [None] is the [ValueError] for an unknown operator. *)
Fixpoint evaluate (formula : Formula) (model : gmap string bool)
  : option bool :=
  if negb (is_model model) then None
  else
    keys ← model_variables model;
    if negb (bool_decide (variables formula ⊆ keys)) then None
    else
    match formula with
    | Leaf r =>
        if is_constant r then Some (String.eqb r "T")
        else if is_variable r then model !! r
        else None
    | Unary r first => negb <$> evaluate first model
    | Binary r first second =>
        first_value ← evaluate first model;
        second_value ← evaluate second model;
        if String.eqb r "&" then Some (first_value && second_value)
        else if String.eqb r "|" then Some (first_value || second_value)
        else if String.eqb r "->" then Some (negb first_value || second_value)
        else if String.eqb r "+" then
          Some (negb (Bool.eqb first_value second_value))
        else if String.eqb r "<->" then Some (Bool.eqb first_value second_value)
        else if String.eqb r "-&" then Some (negb (first_value && second_value))
        else if String.eqb r "-|" then Some (negb (first_value || second_value))
        else None
    end.

(** [itertools.product(pool, repeat=n)], as the library documents it:
    [result = [[]]; for each pool: result = [x+[y] for x in result for y in pool]]. *)
Definition product_step {A} (pool : list A) (result : list (list A))
  : list (list A) :=
  x ← result; y ← pool; [x ++ [y]].

Definition product {A} (pool : list A) (repeat : nat) : list (list A) :=
  Nat.iter repeat (product_step pool) [[]].

(** [dict(pairs)]: keys are inserted in order, a later pair overrides an
    earlier one with the same key. *)
Definition dict_of_pairs {V} (pairs : list (string * V)) : gmap string V :=
  foldl (λ d kv, <[ kv.1 := kv.2 ]> d) ∅ pairs.

(** [all_models], as the list of the models the generator yields. *)
Definition all_models (variables : list string)
  : option (list (gmap string bool)) :=
  if forallb is_variable variables then
    Some ((λ values, dict_of_pairs (zip variables values))
            <$> product [false; true] (length variables))
  else None.

(** [truth_values]: one delayed evaluation per model, in order. *)
Definition truth_values (formula : Formula) (models : list (gmap string bool))
  : list (option bool) :=
  evaluate formula <$> models.

(** [all(iterable)] over delayed values: stops at the first [False]; an
    evaluation that raises before that aborts the call. *)
Fixpoint py_all (values : list (option bool)) : option bool :=
  match values with
  | [] => Some true
  | None :: _ => None
  | Some false :: _ => Some false
  | Some true :: values' => py_all values'
  end.

(** [any(iterable)], likewise stopping at the first [True]. *)
Fixpoint py_any (values : list (option bool)) : option bool :=
  match values with
  | [] => Some false
  | None :: _ => None
  | Some true :: _ => Some true
  | Some false :: values' => py_any values'
  end.

(** The order of [str] comparison: lexicographic on code points. *)
Definition str_le (a b : string) : Prop := String.leb a b = true.

#[global] Instance str_le_dec : RelDecision str_le.
Proof. intros a b. unfold str_le. apply _. Defined.

(** [sorted(xs)] on strings. *)
Definition sorted (xs : list string) : list string := merge_sort str_le xs.

Definition is_tautology (formula : Formula) : option bool :=
  models ← all_models (sorted (elements (variables formula)));
  py_all (truth_values formula models).

Definition is_contradiction (formula : Formula) : option bool :=
  models ← all_models (sorted (elements (variables formula)));
  negb <$> py_any (truth_values formula models).

Definition is_satisfiable (formula : Formula) : option bool :=
  models ← all_models (sorted (elements (variables formula)));
  py_any (truth_values formula models).

(** ** Synthesis ([synthesize], [synthesize_cnf]) *)

(** [formula = items[0]; for item in items[1:]: formula = Formula(op, formula, item)];
    [items[0]] raises on an empty list. *)
Definition chain (op : string) (items : list Formula) : option Formula :=
  match items with
  | [] => None
  | first :: rest => Some (foldl (Binary op) first rest)
  end.

(** [model[variable]] for a key of the model. *)
Definition model_value (model : gmap string bool) (variable : string) : bool :=
  default false (model !! variable).

Definition _synthesize_for_model (model : gmap string bool) : option Formula :=
  if negb (is_model model) then None
  else if negb (bool_decide (0 < size (dom model))) then None
  else
    chain "&"
      ((λ variable,
         if model_value model variable then Leaf variable
         else Unary "~" (Leaf variable))
       <$> sorted (elements (dom model))).

(** The clauses of the models that the truth table selects;
    [zip(models, values)] stops at the shorter of the two. *)
Definition selected_models (select : bool → bool)
    (models : list (gmap string bool)) (values : list bool)
  : list (gmap string bool) :=
  (zip models values) ≫= (λ mv, if select mv.2 then [mv.1] else []).

Definition synthesize (variables : list string) (values : list bool)
  : option Formula :=
  if negb (bool_decide (0 < length variables)) then None
  else
    models ← all_models variables;
    clauses ← mapM _synthesize_for_model (selected_models id models values);
    match clauses with
    | [] =>
        first_var ← head variables;
        Some (Binary "&" (Leaf first_var) (Unary "~" (Leaf first_var)))
    | _ => chain "|" clauses
    end.

Definition _synthesize_for_all_except_model (model : gmap string bool)
  : option Formula :=
  if negb (is_model model) then None
  else if negb (bool_decide (0 < size (dom model))) then None
  else
    chain "|"
      ((λ variable,
         if model_value model variable then Unary "~" (Leaf variable)
         else Leaf variable)
       <$> sorted (elements (dom model))).

Definition synthesize_cnf (variables : list string) (values : list bool)
  : option Formula :=
  if negb (bool_decide (0 < length variables)) then None
  else
    models ← all_models variables;
    clauses ← mapM _synthesize_for_all_except_model
                (selected_models negb models values);
    match clauses with
    | [] =>
        first_var ← head variables;
        Some (Binary "|" (Leaf first_var) (Unary "~" (Leaf first_var)))
    | _ => chain "&" clauses
    end.

(** ** Operator bases ([operators.py]) *)

Fixpoint to_not_and_or (formula : Formula) : option Formula :=
  match formula with
  | Leaf r =>
      if is_variable r then Some (Leaf r)
      else if is_constant r then
        let p := Leaf "p" in
        if String.eqb r "T" then Some (Binary "|" p (Unary "~" p))
        else Some (Binary "&" p (Unary "~" p))
      else None
  | Unary r a =>
      a' ← to_not_and_or a;
      Some (Unary "~" a')
  | Binary r a b =>
      first ← to_not_and_or a;
      second ← to_not_and_or b;
      if (String.eqb r "&" || String.eqb r "|")%bool then
        Some (Binary r first second)
      else if String.eqb r "->" then
        Some (Binary "|" (Unary "~" first) second)
      else if String.eqb r "<->" then
        Some (Binary "|" (Binary "&" first second)
                (Binary "&" (Unary "~" first) (Unary "~" second)))
      else if String.eqb r "+" then
        Some (Binary "|" (Binary "&" first (Unary "~" second))
                (Binary "&" (Unary "~" first) second))
      else if String.eqb r "-&" then
        Some (Unary "~" (Binary "&" first second))
      else if String.eqb r "-|" then
        Some (Unary "~" (Binary "|" first second))
      else None
  end.

(** The nesting height of a tree, and the depth budget the local
    [convert] helpers are run with: a helper descends once per level and,
    at a constant, once more into a small constant-free tree. *)
Fixpoint height (f : Formula) : nat :=
  match f with
  | Leaf _ => 1
  | Unary _ a => S (height a)
  | Binary _ a b => S (Nat.max (height a) (height b))
  end.

Definition budget (f : Formula) : nat := height f + 5.

(** [convert] of [to_not_and]; the last [None] is [assert False]. *)
Fixpoint to_not_and_convert (fuel : nat) (f : Formula) : option Formula :=
  match fuel with
  | 0 => None
  | S fuel' =>
      match f with
      | Leaf r =>
          if is_variable r then Some (Leaf r)
          else if is_constant r then
            g ← to_not_and_or f;
            to_not_and_convert fuel' g
          else None
      | Unary r a =>
          a' ← to_not_and_convert fuel' a;
          Some (Unary "~" a')
      | Binary r a b =>
          if String.eqb r "&" then
            left ← to_not_and_convert fuel' a;
            right ← to_not_and_convert fuel' b;
            Some (Binary "&" left right)
          else if String.eqb r "|" then
            left ← to_not_and_convert fuel' a;
            right ← to_not_and_convert fuel' b;
            Some (Unary "~" (Binary "&" (Unary "~" left) (Unary "~" right)))
          else None
      end
  end.

Definition to_not_and (formula : Formula) : option Formula :=
  g ← to_not_and_or formula;
  to_not_and_convert (budget g) g.

(** [convert] of [to_nand] *)
Fixpoint to_nand_convert (fuel : nat) (f : Formula) : option Formula :=
  match fuel with
  | 0 => None
  | S fuel' =>
      match f with
      | Leaf r =>
          if is_variable r then Some (Leaf r)
          else if is_constant r then
            g ← to_not_and f;
            to_nand_convert fuel' g
          else None
      | Unary r a =>
          inner ← to_nand_convert fuel' a;
          Some (Binary "-&" inner inner)
      | Binary r a b =>
          if String.eqb r "&" then
            left ← to_nand_convert fuel' a;
            right ← to_nand_convert fuel' b;
            let nand := Binary "-&" left right in
            Some (Binary "-&" nand nand)
          else None
      end
  end.

Definition to_nand (formula : Formula) : option Formula :=
  g ← to_not_and formula;
  to_nand_convert (budget g) g.

(** [convert] of [to_implies_not] *)
Fixpoint to_implies_not_convert (fuel : nat) (f : Formula) : option Formula :=
  match fuel with
  | 0 => None
  | S fuel' =>
      match f with
      | Leaf r =>
          if is_variable r then Some (Leaf r)
          else if is_constant r then
            g ← to_not_and_or f;
            to_implies_not_convert fuel' g
          else None
      | Unary r a =>
          a' ← to_implies_not_convert fuel' a;
          Some (Unary "~" a')
      | Binary r a b =>
          if String.eqb r "&" then
            left ← to_implies_not_convert fuel' a;
            right ← to_implies_not_convert fuel' b;
            Some (Unary "~" (Binary "->" left (Unary "~" right)))
          else if String.eqb r "|" then
            left ← to_implies_not_convert fuel' a;
            right ← to_implies_not_convert fuel' b;
            Some (Binary "->" (Unary "~" left) right)
          else None
      end
  end.

Definition to_implies_not (formula : Formula) : option Formula :=
  g ← to_not_and_or formula;
  to_implies_not_convert (budget g) g.

(** [convert] of [to_implies_false]: structural, no budget needed. *)
Fixpoint to_implies_false_convert (f : Formula) : option Formula :=
  match f with
  | Leaf r =>
      if is_variable r then Some (Leaf r)
      else if is_constant r then
        if String.eqb r "F" then Some (Leaf "F")
        else Some (Binary "->" (Leaf "F") (Leaf "F"))
      else None
  | Unary r a =>
      inner ← to_implies_false_convert a;
      Some (Binary "->" inner (Leaf "F"))
  | Binary r a b =>
      if String.eqb r "->" then
        a' ← to_implies_false_convert a;
        b' ← to_implies_false_convert b;
        Some (Binary "->" a' b')
      else None
  end.

Definition to_implies_false (formula : Formula) : option Formula :=
  g ← to_implies_not formula;
  to_implies_false_convert g.

(** ** Vocabulary of the statements *)

(** The text does not begin with a decimal digit (so it cannot extend a
    variable name printed just before it). *)
Definition no_decimal_head (s : string) : bool :=
  match s with
  | String c _ => negb (char_isdecimal c)
  | EmptyString => true
  end.

(** The messages [_parse_prefix] pairs with [None]. *)
Definition error_messages : list string :=
  ["Unexpected end of input"; "Invalid formula";
   "Expected binary operator"; "Expected closing parenthesis"]%string.

(** What a result of [_parse_prefix] on [s] looks like: a formula built
    by the constructor together with the text that follows its printed
    form in [s], or no formula and one of the messages. *)
Definition parse_outcome (s : string) (result : option Formula * string)
  : Prop :=
  match result with
  | (Some f, remainder) => wf f = true ∧ s = repr f +:+ remainder
  | (None, message) => message ∈ error_messages
  end.

(** Simultaneous replacement of variables, as the specification words it:
    one pass over the tree, every variable that the map binds becomes its
    image, and an image is put in place as it is. *)
Fixpoint replace_variables (σ : gmap string Formula) (f : Formula) : Formula :=
  match f with
  | Leaf r => default (Leaf r) (σ !! r)
  | Unary r a => Unary r (replace_variables σ a)
  | Binary r a b => Binary r (replace_variables σ a) (replace_variables σ b)
  end.

(** Instantiation of operator templates, as the specification words it:
    a token the map binds becomes its template with [p] and [q] replaced
    by the operands, themselves already rewritten. *)
Fixpoint replace_operators (σ : gmap string Formula) (f : Formula) : Formula :=
  match f with
  | Leaf r => if is_variable r then Leaf r else default (Leaf r) (σ !! r)
  | Unary r a =>
      let a' := replace_operators σ a in
      match σ !! r with
      | Some template => replace_variables {[ "p" := a' ]} template
      | None => Unary r a'
      end
  | Binary r a b =>
      let a' := replace_operators σ a in
      let b' := replace_operators σ b in
      match σ !! r with
      | Some template =>
          replace_variables (<[ "p" := a' ]> {[ "q" := b' ]}) template
      | None => Binary r a' b'
      end
  end.

(** The same for the local [parse_prefix] of [parse_polish], which has
    two messages. *)
Definition polish_outcome (s : string) (result : option Formula * string)
  : Prop :=
  match result with
  | (Some f, remainder) => wf f = true ∧ s = polish f +:+ remainder
  | (None, message) =>
      message = "Unexpected end of input" ∨ message = "Invalid formula"
  end.

(** The standard truth tables, written with the connectives of the
    standard library. *)
Definition truth_table (op : string) (x y : bool) : bool :=
  if String.eqb op "&" then andb x y
  else if String.eqb op "|" then orb x y
  else if String.eqb op "->" then implb x y
  else if String.eqb op "<->" then Bool.eqb x y
  else if String.eqb op "+" then xorb x y
  else if String.eqb op "-&" then negb (andb x y)
  else if String.eqb op "-|" then negb (orb x y)
  else false.

(** The truth value of a formula in a model, by the standard tables. *)
Fixpoint truth_value (model : gmap string bool) (f : Formula) : bool :=
  match f with
  | Leaf r => if is_constant r then String.eqb r "T" else model_value model r
  | Unary _ a => negb (truth_value model a)
  | Binary op a b =>
      truth_table op (truth_value model a) (truth_value model b)
  end.

(** The values a model gives to the listed variables, in their order. *)
Definition model_values (variables : list string) (model : gmap string bool)
  : list bool :=
  model_value model <$> variables.

(** Lexicographic order on tuples of truth values, [False] before [True]. *)
Fixpoint lex_lt (a b : list bool) : Prop :=
  match a, b with
  | x :: a', y :: b' => (x = false ∧ y = true) ∨ (x = y ∧ lex_lt a' b')
  | _, _ => False
  end.

(** The constants that occur in a formula. *)
Definition constants (f : Formula) : gset string :=
  operators f ∩ {[ "T"; "F" ]}.

(** The five converters of [operators.py], each with its target basis. *)
Definition converters : list ((Formula → option Formula) * gset string) :=
  [ (to_not_and_or, {[ "~"; "&"; "|" ]});
    (to_not_and, {[ "~"; "&" ]});
    (to_nand, {[ "-&" ]});
    (to_implies_not, {[ "->"; "~" ]});
    (to_implies_false, {[ "->"; "F" ]}) ].

(** The literal of [variable] in the clause of a model: the variable
    itself when its value in the model is [positive], its negation
    otherwise. *)
Definition literal (positive : bool) (model : gmap string bool)
    (variable : string) : Formula :=
  if Bool.eqb (model_value model variable) positive then Leaf variable
  else Unary "~" (Leaf variable).

(** [g] is a rewriting of [f] into [basis]: a constructed formula over the
    operators of [basis], with the truth value of [f] in every model, and
    with no variable beyond those of [f] except [p], which appears only
    when [f] contains a constant. *)
Definition rewrites_into (basis : gset string) (f g : Formula) : Prop :=
  wf g = true
  ∧ operators g ⊆ basis
  ∧ (∀ v, v ∈ variables g → v ∈ variables f ∨ (v = "p" ∧ constants f ≠ ∅))
  ∧ ∀ model, truth_value model g = truth_value model f.

(** [h] is a conversion of [g] into [basis]: a constructed formula over
    the operators of [basis], with the variables of [g] and the truth
    value of [g] in every model. *)
Definition converts_into (basis : gset string) (g h : Formula) : Prop :=
  wf h = true
  ∧ operators h ⊆ basis
  ∧ variables h = variables g
  ∧ ∀ model, truth_value model h = truth_value model g.


(** ** Further vocabulary *)

(** [Formula.__ne__] *)
Definition Formula_ne (f g : Formula) : bool := negb (Formula_eq f g).

(** The printed form ends in a variable name: the formula is a variable,
    or a variable under negations. *)
Fixpoint ends_in_variable (f : Formula) : bool :=
  match f with
  | Leaf r => is_variable r
  | Unary _ a => ends_in_variable a
  | Binary _ _ _ => false
  end.

(** The formula that an operator token builds from the placeholders [p]
    and [q]: the constant itself, the unary operator on [p], or the binary
    operator on [p] and [q]. *)
Definition applied (op : string) : Formula :=
  if is_constant op then Leaf op
  else if is_unary op then Unary op (Leaf "p")
  else Binary op (Leaf "p") (Leaf "q").

(** The four models over the placeholders [p] and [q], as [all_models]
    yields them. *)
Definition placeholder_models : list (gmap string bool) :=
  default [] (all_models ["p"; "q"]).

(** A literal: a variable or the negation of a variable. *)
Definition is_literal (f : Formula) : bool :=
  match f with
  | Leaf v => is_variable v
  | Unary r (Leaf v) => String.eqb r "~" && is_variable v
  | _ => false
  end.

(** A chain of items joined by [op], nested to the left as the loops of
    the synthesis functions build it: one item, or a chain, [op], and one
    more item. *)
Fixpoint is_chain (op : string) (item : Formula → bool) (f : Formula) : bool :=
  item f
  || match f with
     | Binary r a b => String.eqb r op && is_chain op item a && item b
     | _ => false
     end.

(** Disjunctive normal form: a disjunction of conjunctions of literals;
    conjunctive normal form: a conjunction of disjunctions of literals. *)
Definition is_dnf (f : Formula) : bool :=
  is_chain "|" (is_chain "&" is_literal) f.

Definition is_cnf (f : Formula) : bool :=
  is_chain "&" (is_chain "|" is_literal) f.

(** ** Printing a truth table ([print_truth_table]) *)










(** * Strings *)

Section strings.
Implicit Types (s t u : string) (c : ascii) (n : nat).

Lemma str_app_nil_r s : s +:+ "" = s.
Proof. induction s as [|c s IH]; [done|]. change (String c (s +:+ "") = String c s). by rewrite IH. Qed.

Lemma str_app_assoc s t u : (s +:+ t) +:+ u = s +:+ (t +:+ u).
Proof.
  induction s as [|c s IH]; [done|].
  change (String c ((s +:+ t) +:+ u) = String c (s +:+ (t +:+ u))).
  by rewrite IH.
Qed.

Lemma str_length_app s t :
  String.length (s +:+ t) = String.length s + String.length t.
Proof.
  induction s as [|c s IH]; [done|].
  change (S (String.length (s +:+ t)) = S (String.length s + String.length t)).
  by rewrite IH.
Qed.

Lemma str_take_app s t : str_take (String.length s) (s +:+ t) = s.
Proof.
  induction s as [|c s IH]; [by destruct t|].
  change (String c (str_take (String.length s) (s +:+ t)) = String c s).
  by rewrite IH.
Qed.

Lemma str_drop_app s t : str_drop (String.length s) (s +:+ t) = t.
Proof. induction s as [|c s IH]; [done|]. exact IH. Qed.

Lemma str_take_drop n s : str_take n s +:+ str_drop n s = s.
Proof.
  revert s; induction n as [|n IH]; intros [|c s]; try done.
  change (String c (str_take n s +:+ str_drop n s) = String c s).
  by rewrite IH.
Qed.

Lemma str_take_length n s :
  String.length (str_take n s) = Nat.min n (String.length s).
Proof.
  revert s; induction n as [|n IH]; intros [|c s]; try done.
  simpl. by rewrite IH.
Qed.

Lemma str_take_app_ge n s t :
  String.length s ≤ n → str_take n (s +:+ t) = s +:+ str_take (n - String.length s) t.
Proof.
  revert n; induction s as [|c s IH]; intros n Hn.
  - by rewrite Nat.sub_0_r.
  - destruct n as [|n]; [simpl in Hn; lia|].
    change (String c (str_take n (s +:+ t)) = String c (s +:+ str_take (n - String.length s) t)).
    rewrite IH; [done|simpl in Hn; lia].
Qed.

End strings.

(** * Token classes *)

Section tokens.
Implicit Types (s t : string) (c : ascii).

Lemma is_binary_spec s : is_binary s = true ↔ s ∈ binary_operators.
Proof. unfold is_binary. by rewrite bool_decide_eq_true. Qed.

Lemma is_binary_cases s :
  is_binary s = true →
  s = "&" ∨ s = "|" ∨ s = "->" ∨ s = "+" ∨ s = "<->" ∨ s = "-&" ∨ s = "-|".
Proof.
  rewrite is_binary_spec. unfold binary_operators.
  rewrite !elem_of_cons, elem_of_nil. tauto.
Qed.

Lemma is_constant_cases s : is_constant s = true → s = "T" ∨ s = "F".
Proof.
  unfold is_constant. rewrite orb_true_iff, !String.eqb_eq. tauto.
Qed.

Lemma is_unary_eq s : is_unary s = true → s = "~".
Proof. unfold is_unary. by rewrite String.eqb_eq. Qed.

(** The four classes are mutually exclusive. *)
Lemma is_variable_not_constant s : is_variable s = true → is_constant s = false.
Proof.
  intros Hv. destruct (is_constant s) eqn:Hc; [|done].
  by destruct (is_constant_cases _ Hc) as [-> | ->].
Qed.

Lemma is_variable_not_unary s : is_variable s = true → is_unary s = false.
Proof.
  intros Hv. destruct (is_unary s) eqn:Hc; [|done].
  by rewrite (is_unary_eq _ Hc) in Hv.
Qed.

Lemma is_variable_not_binary s : is_variable s = true → is_binary s = false.
Proof.
  intros Hv. destruct (is_binary s) eqn:Hc; [|done].
  by destruct (is_binary_cases _ Hc) as [->|[->|[->|[->|[->|[->| ->]]]]]].
Qed.

Lemma is_constant_not_variable s : is_constant s = true → is_variable s = false.
Proof. by intros [-> | ->]%is_constant_cases. Qed.

Lemma is_unary_not_leaf s :
  is_unary s = true → is_variable s = false ∧ is_constant s = false ∧ is_binary s = false.
Proof. by intros ->%is_unary_eq. Qed.

Lemma is_binary_not_leaf s :
  is_binary s = true → is_variable s = false ∧ is_constant s = false ∧ is_unary s = false.
Proof. by intros [->|[->|[->|[->|[->|[->| ->]]]]]]%is_binary_cases. Qed.

(** No binary operator is a proper prefix of another one. *)
Lemma is_binary_prefix_free s t :
  is_binary s = true → is_binary (s +:+ t) = true → t = "".
Proof.
  intros Hs Ht.
  destruct (is_binary_cases _ Hs) as [->|[->|[->|[->|[->|[->| ->]]]]]];
    destruct (is_binary_cases _ Ht) as [H|[H|[H|[H|[H|[H|H]]]]]];
    cbv [String.append] in H; by simplify_eq.
Qed.

Lemma is_binary_length s : is_binary s = true → 1 ≤ String.length s ≤ 3.
Proof.
  intros [->|[->|[->|[->|[->|[->| ->]]]]]]%is_binary_cases; simpl; lia.
Qed.

Lemma char_p_to_z_not_decimal c : char_is_p_to_z c = true → char_isdecimal c = false.
Proof. by destruct c as [[] [] [] [] [] [] [] []]. Qed.

Lemma char_p_to_z_classes c :
  char_is_p_to_z c = true →
  is_constant (String c "") = false ∧ is_unary (String c "") = false
  ∧ String.eqb (String c "") "(" = false.
Proof. by destruct c as [[] [] [] [] [] [] [] []]. Qed.

Lemma is_variable_inv s :
  is_variable s = true →
  ∃ c digits, s = String c digits ∧ char_is_p_to_z c = true
              ∧ str_all char_isdecimal digits = true.
Proof.
  destruct s as [|c digits]; [done|]. simpl.
  intros [Hc Hd]%andb_true_iff. exists c, digits. split_and!; [done..|].
  destruct digits; [done|]. by apply orb_true_iff in Hd as [Hd|Hd].
Qed.

End tokens.

(** * The constructor invariant *)

Section constructor.
Lemma Formula_init_wf root first second f :
  Formula_init root first second = Some f →
  (∀ a, first = Some a → wf a = true) →
  (∀ b, second = Some b → wf b = true) →
  wf f = true.
Proof.
  unfold Formula_init. intros Hf Ha Hb.
  destruct (is_variable root || is_constant root) eqn:Hleaf.
  { destruct first, second; by simplify_eq. }
  destruct (is_unary root) eqn:Hun.
  { destruct first as [a|], second; simplify_eq. simpl. rewrite Hun. by apply Ha. }
  destruct (is_binary root) eqn:Hbin; [|done].
  destruct first as [a|], second as [b|]; simplify_eq. simpl.
  rewrite Hbin, (Ha a), (Hb b); done.
Qed.

Lemma constructed_wf f : constructed f ↔ wf f = true.
Proof.
  split.
  - induction 1 as [root first second f Hf _ IHa _ IHb].
    eapply Formula_init_wf; eauto.
  - induction f as [r|r a IHa|r a IHa b IHb]; simpl; intros Hwf.
    + apply (constructed_init r None None); [|done..].
      unfold Formula_init. by rewrite Hwf.
    + apply andb_true_iff in Hwf as [Hr Ha].
      apply (constructed_init r (Some a) None); [|naive_solver..].
      unfold Formula_init.
      destruct (is_unary_not_leaf _ Hr) as (-> & -> & _). by rewrite Hr.
    + apply andb_true_iff in Hwf as [[Hr Ha]%andb_true_iff Hb].
      apply (constructed_init r (Some a) (Some b)); [|naive_solver..].
      unfold Formula_init.
      destruct (is_binary_not_leaf _ Hr) as (-> & -> & ->). by rewrite Hr.
Qed.
End constructor.


(** * Matching the operator token *)

Section operator_token.
Implicit Types (s op rest : string) (n m : nat).

(** The loop returns the first candidate, in the order of [lengths],
    that is a binary operator. *)
Lemma operator_loop_hit m s n :
  1 ≤ n ≤ m →
  is_binary (str_take n s) = true →
  (∀ l, n < l ≤ m → is_binary (str_take l s) = false) →
  operator_loop (range_down m) s = Some (str_take n s, str_drop n s).
Proof.
  induction m as [|m IH]; intros Hn Hhit Hmiss; [lia|].
  cbn [operator_loop range_down].
  destruct (decide (n = S m)) as [->|Hne].
  - by rewrite Hhit.
  - rewrite Hmiss by lia. apply IH; [lia|done|]. intros l Hl. apply Hmiss. lia.
Qed.

Lemma operator_loop_miss m s :
  (∀ l, 1 ≤ l ≤ m → is_binary (str_take l s) = false) →
  operator_loop (range_down m) s = None.
Proof.
  induction m as [|m IH]; intros Hmiss; [done|].
  cbn [operator_loop range_down].
  rewrite Hmiss by lia. apply IH. intros l Hl. apply Hmiss. lia.
Qed.

Lemma operator_loop_inv m s op rest :
  operator_loop (range_down m) s = Some (op, rest) →
  ∃ n, 1 ≤ n ≤ m ∧ op = str_take n s ∧ rest = str_drop n s
       ∧ is_binary op = true
       ∧ ∀ l, n < l ≤ m → is_binary (str_take l s) = false.
Proof.
  induction m as [|m IH]; [done|].
  cbn [operator_loop range_down].
  destruct (is_binary (str_take (S m) s)) eqn:E.
  - intros [= <- <-]. exists (S m). split_and!; [lia..|done|done|done|lia].
  - intros (n & Hn & -> & -> & Hb & Hmiss)%IH.
    exists n. split_and!; [lia..|done|done|done|].
    intros l Hl. destruct (decide (l = S m)) as [->|]; [done|]. apply Hmiss. lia.
Qed.

Lemma operator_loop_None_inv m s :
  operator_loop (range_down m) s = None →
  ∀ l, 1 ≤ l ≤ m → is_binary (str_take l s) = false.
Proof.
  induction m as [|m IH]; [intros; lia|].
  cbn [operator_loop range_down].
  destruct (is_binary (str_take (S m) s)) eqn:E; [done|].
  intros Hm l Hl. destruct (decide (l = S m)) as [->|]; [done|].
  apply (IH Hm). lia.
Qed.

(** A matched operator is a nonempty prefix, and the rest is what
    follows it. *)
Lemma match_operator_split s op rest :
  match_operator s = Some (op, rest) →
  is_binary op = true ∧ s = op +:+ rest.
Proof.
  intros (n & _ & -> & -> & Hb & _)%operator_loop_inv.
  by rewrite str_take_drop.
Qed.

(** In front of any text, a binary operator is matched whole. *)
Lemma match_operator_app op rest :
  is_binary op = true → match_operator (op +:+ rest) = Some (op, rest).
Proof.
  intros Hop. unfold match_operator.
  pose proof (is_binary_length _ Hop) as Hlen.
  rewrite (operator_loop_hit _ _ (String.length op)).
  - by rewrite str_take_app, str_drop_app.
  - rewrite str_length_app. lia.
  - by rewrite str_take_app.
  - intros l Hl. rewrite str_length_app in Hl.
    rewrite str_take_app_ge by lia.
    destruct (is_binary (op +:+ _)) eqn:E; [|done].
    apply is_binary_prefix_free in E; [|done].
    apply (f_equal String.length) in E. rewrite str_take_length in E.
    simpl in E. lia.
Qed.

End operator_token.


(** * Printing and parsing *)

Section printing.
Implicit Types (f g : Formula) (s rest : string).

Lemma decimal_run_app digits rest :
  str_all char_isdecimal digits = true → no_decimal_head rest = true →
  decimal_run (digits +:+ rest) = String.length digits.
Proof.
  intros Hd Hr. induction digits as [|c digits IH].
  - destruct rest as [|c rest]; [done|]. simpl in *.
    by destruct (char_isdecimal c).
  - simpl in Hd. apply andb_true_iff in Hd as [Hc Hd].
    change (decimal_run (String c (digits +:+ rest)) = S (String.length digits)).
    simpl. rewrite Hc. by rewrite IH.
Qed.

Lemma no_decimal_head_binary op rest :
  is_binary op = true → no_decimal_head (op +:+ rest) = true.
Proof.
  by intros [->|[->|[->|[->|[->|[->| ->]]]]]]%is_binary_cases.
Qed.

Lemma binary_app_nonempty op rest : is_binary op = true → op +:+ rest ≠ "".
Proof.
  by intros [->|[->|[->|[->|[->|[->| ->]]]]]]%is_binary_cases.
Qed.

(** The first character of a binary operator starts no other kind of
    formula. *)
Lemma binary_head_classes op rest c s :
  is_binary op = true → op +:+ rest = String c s →
  is_constant (String c "") = false ∧ char_is_p_to_z c = false
  ∧ is_unary (String c "") = false.
Proof.
  intros [->|[->|[->|[->|[->|[->| ->]]]]]]%is_binary_cases;
    cbv [String.append]; intros [= <- _]; done.
Qed.

(** The variable case of both parsers, on a printed variable. *)
Lemma variable_scan v rest :
  is_variable v = true → no_decimal_head rest = true →
  ∃ c s, v +:+ rest = String c s ∧ char_is_p_to_z c = true
    ∧ is_constant (String c "") = false
    ∧ str_take (variable_index (v +:+ rest)) (v +:+ rest) = v
    ∧ str_drop (variable_index (v +:+ rest)) (v +:+ rest) = rest.
Proof.
  intros (c & digits & -> & Hc & Hd)%is_variable_inv Hr.
  exists c, (digits +:+ rest). split_and!; [done|done|..].
  - by apply char_p_to_z_classes.
  - unfold variable_index.
    change (str_drop 1 (String c digits +:+ rest)) with (digits +:+ rest).
    rewrite decimal_run_app by done.
    apply (str_take_app (String c digits)).
  - unfold variable_index.
    change (str_drop 1 (String c digits +:+ rest)) with (digits +:+ rest).
    rewrite decimal_run_app by done.
    apply (str_drop_app (String c digits)).
Qed.

(** Parsing a printed formula, followed by any text that does not extend
    its last variable name, gives the formula back and leaves that text. *)
Lemma parse_prefix_repr f :
  wf f = true → ∀ fuel rest,
  height f ≤ fuel → no_decimal_head rest = true →
  parse_prefix_fuel fuel (repr f +:+ rest) = Some (Some f, rest).
Proof.
  induction f as [r|r a IHa|r a IHa b IHb]; intros Hwf fuel rest Hfuel Hrest;
    (destruct fuel as [|fuel]; [simpl in Hfuel; lia|]); simpl in Hwf, Hfuel.
  - apply orb_true_iff in Hwf as [Hv|Hc].
    + destruct (variable_scan r rest Hv Hrest) as (c & s & Hs & Hc & Hnc & Ht & Hd).
      cbn [repr]. rewrite Hs in *. cbn [parse_prefix_fuel].
      by rewrite Hnc, Hc, Ht, Hd, Hv.
    + by destruct (is_constant_cases _ Hc) as [-> | ->].
  - apply andb_true_iff in Hwf as [->%is_unary_eq Ha].
    cbn [repr]. rewrite str_app_assoc.
    change ("~" +:+ (repr a +:+ rest)) with (String "~" (repr a +:+ rest)).
    cbn [parse_prefix_fuel].
    change (is_constant "~") with false. change (char_is_p_to_z "~") with false.
    change (is_unary "~") with true. cbn [andb].
    rewrite IHa by (done || lia). done.
  - apply andb_true_iff in Hwf as [[Hr Ha]%andb_true_iff Hb].
    cbn [repr]. rewrite !str_app_assoc.
    change ("(" +:+ ?x) with (String "(" x).
    cbn [parse_prefix_fuel].
    change (is_constant "(") with false. change (char_is_p_to_z "(") with false.
    change (is_unary "(") with false. change ("(" =? "(")%string with true.
    cbn [andb].
    rewrite IHa; [|done|lia|by apply no_decimal_head_binary]. cbn [mbind option_bind].
    rewrite (proj2 (String.eqb_neq _ _) (binary_app_nonempty r _ Hr)).
    rewrite match_operator_app by done.
    rewrite IHb; [|done|lia|done]. cbn [mbind option_bind].
    done.
Qed.
Lemma wf_leaf_nonempty r : wf (Leaf r) = true → ∃ c s, r = String c s.
Proof.
  simpl. intros [Hv|Hc]%orb_true_iff.
  - apply is_variable_inv in Hv as (c & s & -> & _). eauto.
  - destruct (is_constant_cases _ Hc) as [-> | ->]; eauto.
Qed.

Lemma polish_no_decimal_head f rest :
  wf f = true → no_decimal_head (polish f +:+ rest) = true.
Proof.
  destruct f as [r|r a|r a b]; simpl.
  - intros [Hv|Hc]%orb_true_iff.
    + apply is_variable_inv in Hv as (c & s & -> & Hc & _).
      simpl. by rewrite (char_p_to_z_not_decimal c).
    + by destruct (is_constant_cases _ Hc) as [-> | ->].
  - by intros [->%is_unary_eq _]%andb_true_iff.
  - intros [[Hr _]%andb_true_iff _]%andb_true_iff.
    rewrite str_app_assoc. by apply no_decimal_head_binary.
Qed.

Lemma polish_prefix_polish f :
  wf f = true → ∀ fuel rest,
  height f ≤ fuel → no_decimal_head rest = true →
  polish_prefix_fuel fuel (polish f +:+ rest) = Some (Some f, rest).
Proof.
  induction f as [r|r a IHa|r a IHa b IHb]; intros Hwf fuel rest Hfuel Hrest;
    (destruct fuel as [|fuel]; [simpl in Hfuel; lia|]); simpl in Hfuel.
  - simpl in Hwf. apply orb_true_iff in Hwf as [Hv|Hc].
    + destruct (variable_scan r rest Hv Hrest) as (c & s & Hs & Hc & Hnc & Ht & Hd).
      cbn [polish]. rewrite Hs in *. cbn [polish_prefix_fuel].
      by rewrite Hnc, Hc, Ht, Hd, Hv.
    + by destruct (is_constant_cases _ Hc) as [-> | ->].
  - simpl in Hwf. apply andb_true_iff in Hwf as [->%is_unary_eq Ha].
    cbn [polish]. rewrite str_app_assoc.
    change ("~" +:+ (polish a +:+ rest)) with (String "~" (polish a +:+ rest)).
    cbn [polish_prefix_fuel].
    change (is_constant "~") with false. change (char_is_p_to_z "~") with false.
    change (is_unary "~") with true. cbn [andb].
    rewrite IHa by (done || lia). done.
  - pose proof Hwf as Hwf'. simpl in Hwf.
    apply andb_true_iff in Hwf as [[Hr Ha]%andb_true_iff Hb].
    cbn [polish]. rewrite !str_app_assoc.
    destruct (r +:+ polish a +:+ polish b +:+ rest) as [|c s] eqn:Hs.
    { by apply binary_app_nonempty in Hs. }
    destruct (binary_head_classes _ _ _ _ Hr Hs) as (Hc1 & Hc2 & Hc3).
    cbn [polish_prefix_fuel]. rewrite Hc1, Hc2, Hc3. cbn [andb].
    rewrite <-Hs, match_operator_app by done.
    rewrite IHa; [|done|lia|by apply polish_no_decimal_head].
    cbn [mbind option_bind].
    rewrite IHb; [|done|lia|done]. done.
Qed.

Lemma height_le_repr f : wf f = true → height f ≤ String.length (repr f).
Proof.
  induction f as [r|r a IHa|r a IHa b IHb]; intros Hwf.
  - destruct (wf_leaf_nonempty _ Hwf) as (c & s & ->). simpl. lia.
  - simpl in Hwf. apply andb_true_iff in Hwf as [->%is_unary_eq Ha].
    cbn [repr height]. rewrite str_length_app. specialize (IHa Ha). simpl. lia.
  - simpl in Hwf. apply andb_true_iff in Hwf as [[Hr Ha]%andb_true_iff Hb].
    cbn [repr height]. rewrite !str_length_app.
    specialize (IHa Ha). specialize (IHb Hb). simpl. lia.
Qed.

Lemma height_le_polish f : wf f = true → height f ≤ String.length (polish f).
Proof.
  induction f as [r|r a IHa|r a IHa b IHb]; intros Hwf.
  - destruct (wf_leaf_nonempty _ Hwf) as (c & s & ->). simpl. lia.
  - simpl in Hwf. apply andb_true_iff in Hwf as [->%is_unary_eq Ha].
    cbn [polish height]. rewrite str_length_app. specialize (IHa Ha). simpl. lia.
  - simpl in Hwf. apply andb_true_iff in Hwf as [[Hr Ha]%andb_true_iff Hb].
    cbn [polish height]. rewrite !str_length_app.
    specialize (IHa Ha). specialize (IHb Hb).
    pose proof (is_binary_length _ Hr). lia.
Qed.

(** [_parse_prefix] on a printed formula followed by other text. *)
Lemma parse_prefix_repr_app f rest :
  wf f = true → no_decimal_head rest = true →
  _parse_prefix (repr f +:+ rest) = Some (Some f, rest).
Proof.
  intros Hwf Hrest. apply parse_prefix_repr; [done| |done].
  rewrite str_length_app. pose proof (height_le_repr f Hwf). lia.
Qed.

Lemma polish_prefix_polish_app f rest :
  wf f = true → no_decimal_head rest = true →
  polish_prefix (polish f +:+ rest) = Some (Some f, rest).
Proof.
  intros Hwf Hrest. apply polish_prefix_polish; [done| |done].
  rewrite str_length_app. pose proof (height_le_polish f Hwf). lia.
Qed.

Lemma parse_repr f : wf f = true → parse (repr f) = Some f.
Proof.
  intros Hwf. unfold parse, is_formula.
  pose proof (parse_prefix_repr_app f "" Hwf eq_refl) as H.
  rewrite str_app_nil_r in H. by rewrite H.
Qed.

Lemma parse_polish_polish f : wf f = true → parse_polish (polish f) = Some f.
Proof.
  intros Hwf. unfold parse_polish.
  pose proof (polish_prefix_polish_app f "" Hwf eq_refl) as H.
  rewrite str_app_nil_r in H. by rewrite H.
Qed.

(** ** Totality of the infix parser *)

Lemma parse_prefix_fuel_total fuel s :
  String.length s < fuel →
  ∃ result, parse_prefix_fuel fuel s = Some result ∧ parse_outcome s result.
Proof.
  revert s. induction fuel as [|fuel IH]; intros s Hlen; [lia|].
  destruct s as [|c rest].
  { eexists. split; [done|]. simpl. set_solver. }
  cbn [parse_prefix_fuel].
  destruct (is_constant (String c "")) eqn:Hconst.
  { eexists. split; [done|]. unfold parse_outcome. cbn [wf repr].
    by rewrite Hconst, orb_true_r. }
  destruct (char_is_p_to_z c && is_variable _) eqn:Hvar.
  { eexists. split; [done|]. apply andb_true_iff in Hvar as [_ Hvar].
    unfold parse_outcome. cbn [wf repr]. rewrite Hvar.
    split; [done|]. by rewrite str_take_drop. }
  destruct (is_unary (String c "")) eqn:Hun.
  { destruct (IH rest) as ([[f|] remainder] & -> & Hout); [simpl in Hlen; lia|..].
    - eexists. split; [done|]. destruct Hout as [Hf ->].
      apply is_unary_eq in Hun as Hc. injection Hc as ->.
      split; [by simpl; rewrite Hf|done].
    - eexists. by split. }
  destruct (String c "" =? "(")%string eqn:Hparen; [|eexists; split; [done|simpl; set_solver]].
  apply String.eqb_eq in Hparen. injection Hparen as ->.
  destruct (IH rest) as ([[first|] remainder] & -> & Hout); [simpl in Hlen; lia|..];
    [|eexists; by split].
  destruct Hout as [Hfirst ->]. cbn [mbind option_bind].
  destruct (remainder =? "")%string; [eexists; split; [done|simpl; set_solver]|].
  destruct (match_operator remainder) as [[operator remainder2]|] eqn:Hop;
    [|eexists; split; [done|simpl; set_solver]].
  apply match_operator_split in Hop as [Hbin ->].
  simpl in Hlen. rewrite !str_length_app in Hlen.
  destruct (IH remainder2) as ([[second|] remainder3] & -> & Hout); [lia|..];
    [|eexists; by split].
  destruct Hout as [Hsecond ->]. cbn [mbind option_bind].
  destruct (_ || _) eqn:Hclose; [eexists; split; [done|simpl; set_solver]|].
  eexists. split; [done|]. apply orb_false_iff in Hclose as [_ Hclose].
  apply negb_false_iff, String.eqb_eq in Hclose.
  split; [by simpl; rewrite Hbin, Hfirst, Hsecond|].
  cbn [repr]. rewrite !str_app_assoc.
  rewrite <-(str_take_drop 1 remainder3) at 1. by rewrite Hclose.
Qed.

Lemma parse_prefix_total s :
  ∃ result, _parse_prefix s = Some result ∧ parse_outcome s result.
Proof. apply parse_prefix_fuel_total. lia. Qed.
(** ** Totality of the polish parser *)

Lemma polish_prefix_fuel_total fuel s :
  String.length s < fuel →
  ∃ result, polish_prefix_fuel fuel s = Some result ∧ polish_outcome s result.
Proof.
  revert s. induction fuel as [|fuel IH]; intros s Hlen; [lia|].
  destruct s as [|c rest].
  { eexists. split; [done|]. by left. }
  cbn [polish_prefix_fuel].
  destruct (is_constant (String c "")) eqn:Hconst.
  { eexists. split; [done|]. unfold polish_outcome. cbn [wf polish].
    by rewrite Hconst, orb_true_r. }
  destruct (char_is_p_to_z c && is_variable _) eqn:Hvar.
  { eexists. split; [done|]. apply andb_true_iff in Hvar as [_ Hvar].
    unfold polish_outcome. cbn [wf polish]. rewrite Hvar.
    split; [done|]. by rewrite str_take_drop. }
  destruct (is_unary (String c "")) eqn:Hun.
  { destruct (IH rest) as ([[f|] remainder] & -> & Hout); [simpl in Hlen; lia|..].
    - eexists. split; [done|]. destruct Hout as [Hf ->].
      apply is_unary_eq in Hun as Hc. injection Hc as ->.
      split; [by simpl; rewrite Hf|done].
    - eexists. by split. }
  destruct (match_operator (String c rest)) as [[operator remainder]|] eqn:Hop;
    [|eexists; split; [done|by right]].
  apply match_operator_split in Hop as [Hbin Hs].
  pose proof (is_binary_length _ Hbin) as Hoplen.
  apply (f_equal String.length) in Hs as Hlens. rewrite str_length_app in Hlens.
  destruct (IH remainder) as ([[first|] remainder2] & -> & Hout); [lia|..];
    [|eexists; by split].
  destruct Hout as [Hfirst ->]. cbn [mbind option_bind].
  rewrite str_length_app in Hlens.
  destruct (IH remainder2) as ([[second|] remainder3] & -> & Hout); [lia|..];
    [|eexists; by split].
  destruct Hout as [Hsecond ->]. cbn [mbind option_bind].
  eexists. split; [done|].
  split; [by simpl; rewrite Hbin, Hfirst, Hsecond|].
  cbn [polish]. by rewrite Hs, !str_app_assoc.
Qed.

Lemma polish_prefix_total s :
  ∃ result, polish_prefix s = Some result ∧ polish_outcome s result.
Proof. apply polish_prefix_fuel_total. lia. Qed.
End printing.


(** * The parser's failures *)

Section parse_failures.
Implicit Types (f a b : Formula) (s rest op : string).



End parse_failures.

(** * The claims on printing and parsing *)

(** C2: a formula built by the public constructor is given back by [parse]
    from its printed form and by [parse_polish] from its polish form; the
    parsed formula is the same tree, hence also equal in the sense of
    [Formula.__eq__]. *)
Theorem print_parse_round_trip f :
  constructed f →
  ∃ g h, parse (repr f) = Some g ∧ g = f ∧ Formula_eq g f = true
         ∧ parse_polish (polish f) = Some h ∧ h = f ∧ Formula_eq h f = true.
Proof.
  intros Hf%constructed_wf. exists f, f.
  rewrite parse_repr, parse_polish_polish by done.
  unfold Formula_eq. by rewrite String.eqb_refl.
Qed.

Lemma print_parse_round_trip_witness :
  let f := Binary "<->" (Leaf "x12") (Unary "~" (Binary "-&" (Leaf "T") (Leaf "q"))) in
  ∃ g h, parse (repr f) = Some g ∧ g = f ∧ Formula_eq g f = true
         ∧ parse_polish (polish f) = Some h ∧ h = f ∧ Formula_eq h f = true.
Proof.
  apply (print_parse_round_trip
           (Binary "<->" (Leaf "x12") (Unary "~" (Binary "-&" (Leaf "T") (Leaf "q"))))).
  apply constructed_wf. reflexivity.
Defined.

(** C6: both parsers take the operator token with [match_operator], which
    tries the candidates from the longest (three characters, or the whole
    text when it is shorter) down to one character and keeps the first
    that is a binary operator; so the token it returns is the longest
    prefix of at most three characters that is a binary operator, ['<->']
    and ['->'] are taken whole, and a printed binary compound is parsed
    with its operator at the root by either parser. *)
Theorem operator_matched_longest_first :
  (∀ s, 3 ≤ String.length s → match_operator s = operator_loop [3; 2; 1] s)
  ∧ (∀ s op rest,
       match_operator s = Some (op, rest) ↔
       ∃ n, 1 ≤ n ≤ Nat.min 3 (String.length s)
            ∧ op = str_take n s ∧ rest = str_drop n s ∧ is_binary op = true
            ∧ ∀ l, n < l ≤ Nat.min 3 (String.length s) →
                   is_binary (str_take l s) = false)
  ∧ (∀ s, match_operator s = None ↔
          ∀ l, 1 ≤ l ≤ Nat.min 3 (String.length s) →
               is_binary (str_take l s) = false)
  ∧ (∀ rest, match_operator ("<->" +:+ rest) = Some ("<->", rest)
             ∧ match_operator ("->" +:+ rest) = Some ("->", rest))
  ∧ (∀ a b op,
       constructed a → constructed b → is_binary op = true →
       _parse_prefix ("(" +:+ repr a +:+ op +:+ repr b +:+ ")")
       = Some (Some (Binary op a b), "")
       ∧ polish_prefix (op +:+ polish a +:+ polish b)
         = Some (Some (Binary op a b), ""))
  ∧ parse "(p<->q)" = Some (Binary "<->" (Leaf "p") (Leaf "q"))
  ∧ parse_polish "<->pq" = Some (Binary "<->" (Leaf "p") (Leaf "q")).
Proof.
  split_and!.
  - intros s Hs. unfold match_operator. by rewrite Nat.min_l.
  - intros s op rest. split.
    + apply operator_loop_inv.
    + intros (n & Hn & -> & -> & Hb & Hmiss). by apply operator_loop_hit.
  - intros s. split; [apply operator_loop_None_inv|apply operator_loop_miss].
  - intros rest. split; by apply match_operator_app.
  - intros a b op Ha%constructed_wf Hb%constructed_wf Hop.
    assert (wf (Binary op a b) = true) as Hwf by (simpl; by rewrite Hop, Ha, Hb).
    split.
    + pose proof (parse_prefix_repr_app _ "" Hwf eq_refl) as H.
      by rewrite str_app_nil_r in H.
    + pose proof (polish_prefix_polish_app _ "" Hwf eq_refl) as H.
      by rewrite str_app_nil_r in H.
  - reflexivity.
  - reflexivity.
Qed.

Lemma operator_matched_longest_first_witness :
  match_operator "<->q)" = Some ("<->", "q)")
  ∧ _parse_prefix "(p->q1)" = Some (Some (Binary "->" (Leaf "p") (Leaf "q1")), "")
  ∧ polish_prefix "->pq1" = Some (Some (Binary "->" (Leaf "p") (Leaf "q1")), "").
Proof.
  destruct operator_matched_longest_first as (_ & Hiff & _ & _ & Hparse & _).
  split.
  - apply (Hiff "<->q)" "<->" "q)"). exists 3. simpl.
    split_and!; [lia|lia|reflexivity|reflexivity|reflexivity|intros; lia].
  - apply (Hparse (Leaf "p") (Leaf "q1") "->");
      [apply constructed_wf; reflexivity..|reflexivity].
Defined.




(** * Substitution *)

Section substitution.
Implicit Types (f g : Formula) (σ : gmap string Formula).

Lemma dict_all_spec {V} (p : string → V → bool) (d : gmap string V) :
  dict_all p d = true ↔ ∀ k v, d !! k = Some v → p k v = true.
Proof.
  unfold dict_all. rewrite forallb_forall. split.
  - intros H k v Hk. apply (H (k, v)). apply list_elem_of_In.
    by apply elem_of_map_to_list.
  - intros H [k v] Hin%list_elem_of_In%elem_of_map_to_list. by apply H.
Qed.

Lemma lookup_non_variable σ r :
  dict_all (λ variable _, is_variable variable) σ = true →
  is_variable r = false → σ !! r = None.
Proof.
  rewrite dict_all_spec. intros Hσ Hr.
  destruct (σ !! r) as [g|] eqn:E; [|done].
  apply Hσ in E. congruence.
Qed.

Lemma substitute_variables_spec f σ :
  dict_all (λ variable _, is_variable variable) σ = true →
  substitute_variables f σ = Some (replace_variables σ f).
Proof.
  intros Hσ. induction f as [r|r a IHa|r a IHa b IHb]; cbn [substitute_variables];
    rewrite Hσ; cbn [negb replace_variables].
  - destruct (is_variable r) eqn:Hr.
    + by destruct (σ !! r).
    + by rewrite lookup_non_variable.
  - by rewrite IHa.
  - by rewrite IHa, IHb.
Qed.

Lemma substitute_variables_bad_key f σ :
  dict_all (λ variable _, is_variable variable) σ = false →
  substitute_variables f σ = None.
Proof. intros Hσ. destruct f; cbn [substitute_variables]; by rewrite Hσ. Qed.

(** The variables of the result: those of the images of bound variables
    and the unbound variables themselves. *)
Lemma variables_replace_variables σ f x :
  dict_all (λ variable _, is_variable variable) σ = true →
  x ∈ variables (replace_variables σ f) ↔
  ∃ v, v ∈ variables f
       ∧ match σ !! v with Some g => x ∈ variables g | None => x = v end.
Proof.
  intros Hσ. induction f as [r|r a IHa|r a IHa b IHb]; cbn [replace_variables variables].
  - destruct (is_variable r) eqn:Hr.
    + setoid_rewrite elem_of_singleton. split.
      * intros Hx. exists r. split; [done|].
        destruct (σ !! r); simpl in Hx; [done|].
        rewrite Hr in Hx. set_solver.
      * intros (v & -> & Hx). destruct (σ !! r); simpl; [done|].
        rewrite Hr. set_solver.
    + rewrite lookup_non_variable by done. simpl. rewrite Hr. set_solver.
  - done.
  - rewrite elem_of_union, IHa, IHb. set_solver.
Qed.

Lemma wf_replace_variables σ f :
  wf f = true → (∀ v g, σ !! v = Some g → wf g = true) →
  wf (replace_variables σ f) = true.
Proof.
  intros Hf Hσ. induction f as [r|r a IHa|r a IHa b IHb]; cbn [replace_variables].
  - destruct (σ !! r) as [g|] eqn:E; simpl; [by eapply Hσ|done].
  - simpl in *. apply andb_true_iff in Hf as [-> Ha]. by apply IHa.
  - simpl in *. apply andb_true_iff in Hf as [[-> Ha]%andb_true_iff Hb].
    by rewrite IHa, IHb.
Qed.

Lemma operator_map_singleton_ok (a : Formula) :
  dict_all (λ variable _, is_variable variable)
    ({[ "p" := a ]} : gmap string Formula) = true.
Proof.
  apply dict_all_spec. intros k v [<- _]%lookup_singleton_Some. done.
Qed.

Lemma operator_map_pair_ok (a b : Formula) :
  dict_all (λ variable _, is_variable variable)
    (<[ "p" := a ]> {[ "q" := b ]} : gmap string Formula) = true.
Proof.
  apply dict_all_spec. intros k v.
  rewrite lookup_insert_Some, lookup_singleton_Some. naive_solver.
Qed.

Lemma substitute_operators_spec f σ :
  dict_all operator_template_ok σ = true →
  substitute_operators f σ = Some (replace_operators σ f).
Proof.
  intros Hσ. induction f as [r|r a IHa|r a IHa b IHb];
    cbn [substitute_operators]; rewrite Hσ; cbn [negb replace_operators].
  - destruct (is_variable r); [done|]. by destruct (σ !! r).
  - rewrite IHa. cbn [mbind option_bind].
    destruct (σ !! r); [|done].
    apply substitute_variables_spec, operator_map_singleton_ok.
  - rewrite IHa, IHb. cbn [mbind option_bind].
    destruct (σ !! r); [|done].
    apply substitute_variables_spec, operator_map_pair_ok.
Qed.
End substitution.

(** C7: [substitute_variables] is one simultaneous pass. With a map whose
    keys are variable names it returns, for a constructed formula, the
    tree in which every variable bound by the map is replaced by its image
    and everything else is kept; an image is put in place unchanged, so a
    variable it brings in is not substituted again, and the variables of
    the result are exactly those of the images of the bound variables and
    the unbound variables. The documented example holds. *)
Theorem substitute_variables_single_pass f σ :
  constructed f →
  (∀ v g, σ !! v = Some g → is_variable v = true) →
  substitute_variables f σ = Some (replace_variables σ f)
  ∧ (∀ v, is_variable v = true →
       substitute_variables (Leaf v) σ = Some (default (Leaf v) (σ !! v)))
  ∧ (∀ c, is_constant c = true → substitute_variables (Leaf c) σ = Some (Leaf c))
  ∧ (∀ r a, substitute_variables (Unary r a) σ
            = Unary r <$> substitute_variables a σ)
  ∧ (∀ r a b, substitute_variables (Binary r a b) σ
              = a' ← substitute_variables a σ;
                b' ← substitute_variables b σ; Some (Binary r a' b'))
  ∧ (∀ x, x ∈ variables (replace_variables σ f) ↔
          ∃ v, v ∈ variables f
               ∧ match σ !! v with Some g => x ∈ variables g | None => x = v end)
  ∧ ((∀ v g, σ !! v = Some g → constructed g) →
     constructed (replace_variables σ f))
  ∧ (f' ← parse "((p->p)|r)"; a ← parse "(q&r)"; b ← parse "p";
     substitute_variables f' (<[ "p" := a ]> {[ "r" := b ]}))
    = parse "(((q&r)->(q&r))|p)".
Proof.
  intros Hf%constructed_wf Hkeys.
  assert (dict_all (λ variable _, is_variable variable) σ = true) as Hσ.
  { apply dict_all_spec. eauto. }
  split_and!.
  - by apply substitute_variables_spec.
  - intros v Hv. cbn [substitute_variables]. rewrite Hσ, Hv. cbn [negb].
    by destruct (σ !! v).
  - intros c Hc. cbn [substitute_variables]. rewrite Hσ.
    by rewrite is_constant_not_variable.
  - intros r a. cbn [substitute_variables]. by rewrite Hσ.
  - intros r a b. cbn [substitute_variables]. by rewrite Hσ.
  - intros x. by apply variables_replace_variables.
  - intros Himages. apply constructed_wf, wf_replace_variables; [done|].
    intros v g Hg. by apply constructed_wf, (Himages v).
  - vm_compute. reflexivity.
Qed.

Lemma substitute_variables_single_pass_witness :
  substitute_variables (Binary "|" (Binary "->" (Leaf "p") (Leaf "p")) (Leaf "r"))
    (<[ "p" := Binary "&" (Leaf "q") (Leaf "r") ]> {[ "r" := Leaf "p" ]})
  = Some (replace_variables
            (<[ "p" := Binary "&" (Leaf "q") (Leaf "r") ]> {[ "r" := Leaf "p" ]})
            (Binary "|" (Binary "->" (Leaf "p") (Leaf "p")) (Leaf "r"))).
Proof.
  apply (substitute_variables_single_pass
           (Binary "|" (Binary "->" (Leaf "p") (Leaf "p")) (Leaf "r"))
           (<[ "p" := Binary "&" (Leaf "q") (Leaf "r") ]> {[ "r" := Leaf "p" ]})).
  - apply constructed_wf. reflexivity.
  - intros v g. rewrite lookup_insert_Some, lookup_singleton_Some.
    intros [[<- _]|[_ [<- _]]]; reflexivity.
Defined.

(** C8: [substitute_operators], with a map from constants and operators to
    templates over [p] and [q], returns for a constructed formula the tree
    in which every token bound by the map is replaced by its template,
    [p] standing for the rewritten first operand and [q] for the rewritten
    second operand, by variable substitution on the template; a token the
    map does not bind keeps its root over the rewritten operands and a
    variable is kept. The documented example holds. *)
Theorem substitute_operators_instantiates f σ :
  constructed f →
  (∀ op template, σ !! op = Some template →
     (is_constant op || is_unary op || is_binary op) = true
     ∧ variables template ⊆ {[ "p"; "q" ]}) →
  substitute_operators f σ = Some (replace_operators σ f)
  ∧ (∀ v, is_variable v = true → substitute_operators (Leaf v) σ = Some (Leaf v))
  ∧ (∀ c, is_constant c = true →
       substitute_operators (Leaf c) σ = Some (default (Leaf c) (σ !! c)))
  ∧ (∀ r a, substitute_operators (Unary r a) σ
            = a' ← substitute_operators a σ;
              match σ !! r with
              | Some template => substitute_variables template {[ "p" := a' ]}
              | None => Some (Unary r a')
              end)
  ∧ (∀ r a b, substitute_operators (Binary r a b) σ
              = a' ← substitute_operators a σ;
                b' ← substitute_operators b σ;
                match σ !! r with
                | Some template =>
                    substitute_variables template
                      (<[ "p" := a' ]> {[ "q" := b' ]})
                | None => Some (Binary r a' b')
                end)
  ∧ (f' ← parse "((x&y)&~z)"; template ← parse "~(~p|~q)";
     substitute_operators f' {[ "&" := template ]})
    = parse "~(~~(~x|~y)|~~z)".
Proof.
  intros _ Hkeys.
  assert (dict_all operator_template_ok σ = true) as Hσ.
  { apply dict_all_spec. intros op template [Hop Hvars]%Hkeys.
    unfold operator_template_ok. rewrite Hop. by rewrite bool_decide_eq_true_2. }
  split_and!.
  - by apply substitute_operators_spec.
  - intros v Hv. cbn [substitute_operators]. by rewrite Hσ, Hv.
  - intros c Hc. cbn [substitute_operators]. rewrite Hσ.
    rewrite is_constant_not_variable by done. by destruct (σ !! c).
  - intros r a. cbn [substitute_operators]. by rewrite Hσ.
  - intros r a b. cbn [substitute_operators]. by rewrite Hσ.
  - vm_compute. reflexivity.
Qed.

Lemma substitute_operators_instantiates_witness :
  substitute_operators
    (Binary "&" (Binary "&" (Leaf "x") (Leaf "y")) (Unary "~" (Leaf "z")))
    {[ "&" := Unary "~" (Binary "|" (Unary "~" (Leaf "p")) (Unary "~" (Leaf "q"))) ]}
  = Some (replace_operators
            {[ "&" := Unary "~" (Binary "|" (Unary "~" (Leaf "p")) (Unary "~" (Leaf "q"))) ]}
            (Binary "&" (Binary "&" (Leaf "x") (Leaf "y")) (Unary "~" (Leaf "z")))).
Proof.
  apply (substitute_operators_instantiates
           (Binary "&" (Binary "&" (Leaf "x") (Leaf "y")) (Unary "~" (Leaf "z")))
           {[ "&" := Unary "~" (Binary "|" (Unary "~" (Leaf "p")) (Unary "~" (Leaf "q"))) ]}).
  - apply constructed_wf. reflexivity.
  - intros op template [<- <-]%lookup_singleton_Some. split; [reflexivity|].
    apply (bool_decide_unpack _). vm_compute. exact I.
Defined.


(** * Evaluation *)

Section evaluation.
Implicit Types (f a b : Formula) (m : gmap string bool) (op : string).

Lemma evaluate_Some_inv f m x :
  evaluate f m = Some x → is_model m = true ∧ variables f ⊆ dom m.
Proof.
  destruct f; cbn [evaluate]; unfold model_variables;
    destruct (is_model m); cbn [negb mbind option_bind]; try done;
    case_bool_decide; cbn [negb]; done.
Qed.

Lemma model_lookup m v : v ∈ dom m → m !! v = Some (model_value m v).
Proof.
  intros [x Hx]%elem_of_dom. unfold model_value. by rewrite Hx.
Qed.

(** The two assertions of [evaluate] pass. *)
Ltac evaluate_asserts Hm :=
  cbn [evaluate variables]; unfold model_variables; rewrite Hm;
  cbn [negb mbind option_bind];
  rewrite bool_decide_eq_true_2 by set_solver; cbn [negb].

Lemma evaluate_variable m v :
  is_model m = true → is_variable v = true → v ∈ dom m →
  evaluate (Leaf v) m = Some (model_value m v).
Proof.
  intros Hm Hv Hin. cbn [evaluate variables]. unfold model_variables.
  rewrite Hm, Hv. cbn [negb mbind option_bind].
  rewrite bool_decide_eq_true_2 by set_solver. cbn [negb].
  rewrite is_variable_not_constant by done. by apply model_lookup.
Qed.

Lemma evaluate_constant m c :
  is_model m = true → is_constant c = true →
  evaluate (Leaf c) m = Some (String.eqb c "T").
Proof.
  intros Hm Hc. cbn [evaluate variables]. unfold model_variables.
  rewrite Hm, Hc. rewrite is_constant_not_variable by done.
  cbn [negb mbind option_bind].
  by rewrite bool_decide_eq_true_2 by set_solver.
Qed.

Lemma evaluate_unary m r a x :
  evaluate a m = Some x → evaluate (Unary r a) m = Some (negb x).
Proof.
  intros Ha. destruct (evaluate_Some_inv _ _ _ Ha) as [Hm Hsub].
  evaluate_asserts Hm. by rewrite Ha.
Qed.

Lemma evaluate_binary m op a b x y :
  is_binary op = true →
  evaluate a m = Some x → evaluate b m = Some y →
  evaluate (Binary op a b) m = Some (truth_table op x y).
Proof.
  intros Hop Ha Hb.
  destruct (evaluate_Some_inv _ _ _ Ha) as [Hm Hsuba].
  destruct (evaluate_Some_inv _ _ _ Hb) as [_ Hsubb].
  evaluate_asserts Hm. rewrite Ha, Hb. cbn [mbind option_bind].
  destruct (is_binary_cases _ Hop) as [->|[->|[->|[->|[->|[->| ->]]]]]];
    by destruct x, y.
Qed.

(** On a constructed formula and a model over its variables, [evaluate]
    returns the truth value given by the standard tables. *)
Lemma evaluate_truth_value f m :
  wf f = true → is_model m = true → variables f ⊆ dom m →
  evaluate f m = Some (truth_value m f).
Proof.
  intros Hwf Hm. induction f as [r|r a IHa|r a IHa b IHb]; intros Hsub.
  - cbn [truth_value]. simpl in Hwf. destruct (is_constant r) eqn:Hc.
    + by apply evaluate_constant.
    + rewrite orb_false_r in Hwf. apply evaluate_variable; [done..|].
      simpl in Hsub. rewrite Hwf in Hsub. set_solver.
  - simpl in Hwf. apply andb_true_iff in Hwf as [_ Ha].
    cbn [truth_value]. apply evaluate_unary. by apply IHa.
  - simpl in Hwf. apply andb_true_iff in Hwf as [[Hr Ha]%andb_true_iff Hb].
    simpl in Hsub. cbn [truth_value].
    apply evaluate_binary; [done|apply IHa|apply IHb]; (done || set_solver).
Qed.
End evaluation.

(** C4: on a constructed formula and a model whose keys are variable names
    and cover the formula's variables, [evaluate] returns the truth value
    of the standard tables: a constant is [True] exactly when it is ['T'],
    a variable has the model's value, ['~'] negates, and the seven binary
    operators are conjunction, disjunction, implication, equivalence,
    exclusive or, nand and nor. The two documented evaluations of
    ['~(p&q76)'] hold. *)
Theorem evaluate_standard_truth_tables f m :
  constructed f → is_model m = true → variables f ⊆ dom m →
  evaluate f m = Some (truth_value m f)
  ∧ evaluate (Leaf "T") m = Some true
  ∧ evaluate (Leaf "F") m = Some false
  ∧ (∀ v, is_variable v = true → v ∈ dom m → evaluate (Leaf v) m = m !! v)
  ∧ (∀ a x, evaluate a m = Some x → evaluate (Unary "~" a) m = Some (negb x))
  ∧ (∀ a b x y, evaluate a m = Some x → evaluate b m = Some y →
       evaluate (Binary "&" a b) m = Some (andb x y)
       ∧ evaluate (Binary "|" a b) m = Some (orb x y)
       ∧ evaluate (Binary "->" a b) m = Some (implb x y)
       ∧ evaluate (Binary "<->" a b) m = Some (Bool.eqb x y)
       ∧ evaluate (Binary "+" a b) m = Some (xorb x y)
       ∧ evaluate (Binary "-&" a b) m = Some (negb (andb x y))
       ∧ evaluate (Binary "-|" a b) m = Some (negb (orb x y)))
  ∧ (g ← parse "~(p&q76)";
     evaluate g (dict_of_pairs [("p", true); ("q76", false)])) = Some true
  ∧ (g ← parse "~(p&q76)";
     evaluate g (dict_of_pairs [("p", true); ("q76", true)])) = Some false.
Proof.
  intros Hf%constructed_wf Hm Hsub. split_and!.
  - by apply evaluate_truth_value.
  - by apply evaluate_constant.
  - by apply evaluate_constant.
  - intros v Hv Hin. rewrite evaluate_variable by done.
    by rewrite model_lookup.
  - intros a x. apply evaluate_unary.
  - intros a b x y Ha Hb.
    split_and!; by rewrite (evaluate_binary _ _ _ _ x y).
  - vm_compute. reflexivity.
  - vm_compute. reflexivity.
Qed.

Lemma evaluate_standard_truth_tables_witness :
  evaluate (Binary "->" (Leaf "p") (Binary "+" (Leaf "T") (Leaf "q76")))
    (dict_of_pairs [("p", true); ("q76", true)])
  = Some (truth_value (dict_of_pairs [("p", true); ("q76", true)])
            (Binary "->" (Leaf "p") (Binary "+" (Leaf "T") (Leaf "q76")))).
Proof.
  apply (evaluate_standard_truth_tables
           (Binary "->" (Leaf "p") (Binary "+" (Leaf "T") (Leaf "q76")))
           (dict_of_pairs [("p", true); ("q76", true)])).
  - apply constructed_wf. reflexivity.
  - vm_compute. reflexivity.
  - apply (bool_decide_unpack _). vm_compute. exact I.
Defined.

(** * Enumerating the models *)

Section models.
Implicit Types (vs : list string) (t : list bool) (m : gmap string bool).

Lemma product_step_app {A} (pool : list A) (l1 l2 : list (list A)) :
  product_step pool (l1 ++ l2) = product_step pool l1 ++ product_step pool l2.
Proof. apply bind_app. Qed.

Lemma product_step_cons {A} (pool : list A) (b : A) (l : list (list A)) :
  product_step pool (cons b <$> l) = cons b <$> product_step pool l.
Proof.
  unfold product_step. induction l as [|x l IH]; [done|].
  rewrite fmap_cons, !bind_cons, fmap_app, IH. f_equal.
  clear. induction pool as [|y pool IH]; [done|].
  rewrite !bind_cons, fmap_app, IH. done.
Qed.

Lemma product_step_bind {A} (pool : list A) (g : A → list (list A)) (l : list A) :
  product_step pool (l ≫= g) = l ≫= (λ b, product_step pool (g b)).
Proof.
  induction l as [|x l IH]; [done|].
  by rewrite !bind_cons, product_step_app, IH.
Qed.

(** The tuples of [product] begin with each element of the pool in turn,
    followed by the tuples one shorter. *)
Lemma product_S {A} (pool : list A) n :
  product pool (S n) = b ← pool; cons b <$> product pool n.
Proof.
  induction n as [|n IH].
  - unfold product, product_step. simpl. by rewrite app_nil_r.
  - change (product pool (S (S n))) with (product_step pool (product pool (S n))).
    rewrite IH at 1. rewrite product_step_bind.
    apply list_bind_ext; [|done]. intros b.
    by rewrite product_step_cons.
Qed.

Lemma product_bool_S n :
  product [false; true] (S n)
  = (cons false <$> product [false; true] n)
    ++ (cons true <$> product [false; true] n).
Proof. rewrite product_S. cbn. by rewrite app_nil_r. Qed.

Lemma product_bool_length n : length (product [false; true] n) = 2 ^ n.
Proof.
  induction n as [|n IH]; [done|].
  rewrite product_bool_S, length_app, !length_fmap, IH. simpl. lia.
Qed.

Lemma product_bool_tuple_length n t :
  t ∈ product [false; true] n → length t = n.
Proof.
  revert t. induction n as [|n IH]; intros t.
  - by intros ->%list_elem_of_singleton.
  - rewrite product_bool_S, elem_of_app, !list_elem_of_fmap.
    intros [(t' & -> & Ht')|(t' & -> & Ht')]; simpl; by rewrite (IH t').
Qed.

Lemma product_bool_complete t : t ∈ product [false; true] (length t).
Proof.
  induction t as [|b t IH]; [by apply list_elem_of_singleton|].
  cbn [length]. rewrite product_bool_S, elem_of_app, !list_elem_of_fmap.
  destruct b; [right|left]; eauto.
Qed.

Lemma lex_lt_irrefl t : ¬ lex_lt t t.
Proof.
  induction t as [|b t IH]; simpl; [tauto|].
  intros [[??]|[_ ?]]; [congruence|done].
Qed.

Lemma product_bool_sorted n : StronglySorted lex_lt (product [false; true] n).
Proof.
  induction n as [|n IH].
  - repeat constructor.
  - rewrite product_bool_S. apply StronglySorted_app_2.
    + intros x1 x2 (t1 & -> & _)%list_elem_of_fmap (t2 & -> & _)%list_elem_of_fmap.
      simpl. by left.
    + eapply StronglySorted_fmap; [|done]. intros x y Hxy. simpl. by right.
    + eapply StronglySorted_fmap; [|done]. intros x y Hxy. simpl. by right.
Qed.

Lemma StronglySorted_lookup_lt {A} (R : relation A) (l : list A) i j x y :
  StronglySorted R l → i < j → l !! i = Some x → l !! j = Some y → R x y.
Proof.
  intros Hl. revert i j. induction Hl as [|z l Hl IH Hz]; intros i j Hij Hi Hj; [done|].
  destruct i as [|i], j as [|j]; try lia; simpl in *.
  - simplify_eq. rewrite Forall_forall in Hz. apply Hz.
    by eapply list_elem_of_lookup_2.
  - apply (IH i j); [lia|done..].
Qed.

Lemma product_bool_NoDup n : NoDup (product [false; true] n).
Proof.
  pose proof (product_bool_sorted n) as Hs.
  apply NoDup_alt. intros i j t Hi Hj.
  destruct (Nat.lt_trichotomy i j) as [Hlt|[->|Hlt]]; [|done|];
    exfalso; apply (lex_lt_irrefl t);
    eapply StronglySorted_lookup_lt; eauto.
Qed.

Lemma testbit_below i n : i < 2 ^ n → Nat.testbit i n = false.
Proof. intros Hi. apply Nat.testbit_false. by rewrite Nat.div_small. Qed.

Lemma testbit_top i n : i < 2 ^ n → Nat.testbit (i + 2 ^ n) n = true.
Proof.
  intros Hi. apply Nat.testbit_true.
  replace (i + 2 ^ n) with (i + 1 * 2 ^ n) by lia.
  rewrite Nat.div_add by (apply Nat.pow_nonzero; lia).
  by rewrite Nat.div_small.
Qed.

Lemma testbit_add_pow2 i n k :
  k < n → Nat.testbit (i + 2 ^ n) k = Nat.testbit i k.
Proof.
  intros Hk. apply Nat.b2n_inj. rewrite !Nat.testbit_spec'.
  replace n with ((n - k - 1) + 1 + k) at 1 by lia.
  rewrite !Nat.pow_add_r. change (2 ^ 1) with 2.
  rewrite Nat.div_add by (apply Nat.pow_nonzero; lia).
  by rewrite Nat.Div0.mod_add.
Qed.

(** The tuple at position [i] spells [i] in binary, the first component
    being the most significant bit. *)
Lemma product_bool_lookup n i t j :
  product [false; true] n !! i = Some t → j < n →
  t !! j = Some (Nat.testbit i (n - 1 - j)).
Proof.
  revert i t j. induction n as [|n IH]; intros i t j Hi Hj; [lia|].
  rewrite product_bool_S in Hi.
  apply lookup_app_Some in Hi as [Hi|[Hlen Hi]];
    apply list_lookup_fmap_Some in Hi as (t' & -> & Hi).
  - pose proof (lookup_lt_Some _ _ _ Hi) as Hlt.
    rewrite product_bool_length in Hlt.
    replace (S n - 1 - j) with (n - j) by lia.
    destruct j as [|j]; simpl.
    + by rewrite Nat.sub_0_r, testbit_below.
    + rewrite (IH i t' j) by (done || lia). do 2 f_equal. lia.
  - rewrite length_fmap, product_bool_length in Hlen, Hi.
    pose proof (lookup_lt_Some _ _ _ Hi) as Hlt.
    rewrite product_bool_length in Hlt.
    replace i with ((i - 2 ^ n) + 2 ^ n) by lia.
    replace (S n - 1 - j) with (n - j) by lia.
    destruct j as [|j]; simpl.
    + by rewrite Nat.sub_0_r, testbit_top.
    + rewrite testbit_add_pow2 by lia.
      rewrite (IH (i - 2 ^ n) t' j) by (done || lia). do 2 f_equal. lia.
Qed.

(** ** Dictionaries built from pairs *)

Lemma dict_of_pairs_snoc {V} (l : list (string * V)) k v :
  dict_of_pairs (l ++ [(k, v)]) = <[ k := v ]> (dict_of_pairs l).
Proof. unfold dict_of_pairs. by rewrite foldl_app. Qed.

Lemma dict_of_pairs_dom {V} (l : list (string * V)) :
  dom (dict_of_pairs l) = list_to_set l.*1.
Proof.
  induction l as [|[k v] l IH] using rev_ind; [apply dom_empty_L|].
  rewrite dict_of_pairs_snoc, dom_insert_L, IH, fmap_app, list_to_set_app_L.
  simpl. set_solver.
Qed.

Lemma dict_of_pairs_lookup {V} (l : list (string * V)) i k v :
  NoDup l.*1 → l !! i = Some (k, v) → dict_of_pairs l !! k = Some v.
Proof.
  revert i. induction l as [|[k' v'] l IH] using rev_ind; intros i Hnd Hi; [done|].
  rewrite dict_of_pairs_snoc. rewrite fmap_app in Hnd.
  apply NoDup_app in Hnd as (Hnd & Hdisj & _).
  apply lookup_app_Some in Hi as [Hi|[_ Hi]].
  - rewrite lookup_insert_ne; [by eapply IH|].
    intros ->. apply (Hdisj k); [|simpl; set_solver].
    apply list_elem_of_fmap. exists (k, v). split; [done|].
    by eapply list_elem_of_lookup_2.
  - destruct (i - length l) as [|?]; [|done]. simplify_eq/=.
    by rewrite lookup_insert_eq.
Qed.

Lemma dict_zip_dom vs t :
  length vs = length t → dom (dict_of_pairs (zip vs t)) = list_to_set vs.
Proof. intros Hlen. rewrite dict_of_pairs_dom, fst_zip; [done|lia]. Qed.

Lemma dict_zip_lookup vs t j v :
  NoDup vs → length vs = length t → vs !! j = Some v →
  dict_of_pairs (zip vs t) !! v = t !! j.
Proof.
  intros Hnd Hlen Hv.
  destruct (t !! j) as [b|] eqn:Hb.
  - apply (dict_of_pairs_lookup _ j); [rewrite fst_zip; [done|lia]|].
    rewrite lookup_zip_with. by rewrite Hv, Hb.
  - apply lookup_ge_None in Hb. apply lookup_lt_Some in Hv. lia.
Qed.

Lemma dict_zip_values vs t :
  NoDup vs → length vs = length t →
  model_values vs (dict_of_pairs (zip vs t)) = t.
Proof.
  intros Hnd Hlen. apply list_eq. intros j. unfold model_values.
  rewrite list_lookup_fmap.
  destruct (vs !! j) as [v|] eqn:Hv; simpl.
  - unfold model_value. rewrite (dict_zip_lookup vs t j) by done.
    destruct (t !! j) eqn:Hb; [done|].
    apply lookup_ge_None in Hb. apply lookup_lt_Some in Hv. lia.
  - apply lookup_ge_None in Hv. symmetry. apply lookup_ge_None. lia.
Qed.

Lemma dict_zip_model_values vs m :
  dom m = list_to_set vs → dict_of_pairs (zip vs (model_values vs m)) = m.
Proof.
  intros Hdom. apply map_eq. intros k.
  destruct (decide (k ∈ vs)) as [Hin|Hnin].
  - rewrite (model_lookup m k) by (rewrite Hdom; set_solver).
    clear Hdom. unfold model_values.
    induction vs as [|v vs IH] using rev_ind; [set_solver|].
    rewrite fmap_app, zip_with_app by (by rewrite length_fmap).
    simpl. rewrite dict_of_pairs_snoc.
    destruct (decide (v = k)) as [->|Hne]; [by rewrite lookup_insert_eq|].
    rewrite lookup_insert_ne by done. apply IH. set_solver.
  - transitivity (@None bool).
    + apply not_elem_of_dom. rewrite dict_of_pairs_dom, fst_zip.
      * set_solver.
      * unfold model_values. by rewrite length_fmap.
    + symmetry. apply not_elem_of_dom. rewrite Hdom. set_solver.
Qed.
Lemma all_models_eq vs :
  Forall (λ v, is_variable v = true) vs →
  all_models vs
  = Some ((λ t, dict_of_pairs (zip vs t)) <$> product [false; true] (length vs)).
Proof.
  intros Hvs. unfold all_models.
  assert (forallb is_variable vs = true) as ->; [|done].
  apply forallb_forall. intros v Hv%list_elem_of_In.
  by apply (proj1 (Forall_forall _ _) Hvs).
Qed.

Lemma all_models_lookup vs i m :
  ((λ t, dict_of_pairs (zip vs t)) <$> product [false; true] (length vs)) !! i
  = Some m →
  ∃ t, m = dict_of_pairs (zip vs t) ∧ length vs = length t
       ∧ product [false; true] (length vs) !! i = Some t.
Proof.
  intros (t & -> & Ht)%list_lookup_fmap_Some. exists t. split_and!; [done| |done].
  symmetry. eapply product_bool_tuple_length, list_elem_of_lookup_2, Ht.
Qed.

Lemma all_models_elem vs m :
  NoDup vs →
  m ∈ (λ t, dict_of_pairs (zip vs t)) <$> product [false; true] (length vs)
  ↔ dom m = list_to_set vs.
Proof.
  intros Hnd. rewrite list_elem_of_fmap. split.
  - intros (t & -> & Ht%product_bool_tuple_length). by apply dict_zip_dom.
  - intros Hdom. exists (model_values vs m). split.
    + by rewrite dict_zip_model_values.
    + replace (length vs) with (length (model_values vs m))
        by (unfold model_values; by rewrite length_fmap).
      apply product_bool_complete.
Qed.

Lemma all_models_NoDup vs :
  NoDup vs →
  NoDup ((λ t, dict_of_pairs (zip vs t)) <$> product [false; true] (length vs)).
Proof.
  intros Hnd. apply NoDup_fmap_2_strong; [|apply product_bool_NoDup].
  intros t1 t2 Ht1%product_bool_tuple_length Ht2%product_bool_tuple_length Heq.
  rewrite <-(dict_zip_values vs t1), <-(dict_zip_values vs t2) by done.
  by rewrite Heq.
Qed.
End models.

(** C5: for a list of distinct variable names, [all_models] yields
    [2 ^ |vs|] models, which are exactly the models over the variables of
    [vs], each once; the model at position [i] gives the variable at
    position [j] the bit of weight [|vs| - 1 - j] of [i], so the last
    variable changes fastest and [False] comes first; and the tuples of
    values, read in the order of [vs], increase strictly in lexicographic
    order. For ['p', 'q'] the models are FF, FT, TF, TT. *)
Theorem all_models_enumeration vs :
  NoDup vs → Forall (λ v, is_variable v = true) vs →
  ∃ ms, all_models vs = Some ms
    ∧ length ms = 2 ^ length vs
    ∧ (∀ m, m ∈ ms ↔ dom m = list_to_set vs)
    ∧ NoDup ms
    ∧ (∀ i m j v, ms !! i = Some m → vs !! j = Some v →
         m !! v = Some (Nat.testbit i (length vs - 1 - j)))
    ∧ (∀ i j mi mj, i < j → ms !! i = Some mi → ms !! j = Some mj →
         lex_lt (model_values vs mi) (model_values vs mj))
    ∧ all_models ["p"; "q"]
      = Some [ dict_of_pairs [("p", false); ("q", false)];
               dict_of_pairs [("p", false); ("q", true)];
               dict_of_pairs [("p", true); ("q", false)];
               dict_of_pairs [("p", true); ("q", true)] ].
Proof.
  intros Hnd Hvs. eexists. split; [by apply all_models_eq|]. split_and!.
  - by rewrite length_fmap, product_bool_length.
  - intros m. by apply all_models_elem.
  - by apply all_models_NoDup.
  - intros i m j v (t & -> & Hlen & Ht)%all_models_lookup Hv.
    rewrite (dict_zip_lookup vs t j) by done.
    apply product_bool_lookup; [done|]. by eapply lookup_lt_Some.
  - intros i j mi mj Hij (ti & -> & Hleni & Hti)%all_models_lookup
      (tj & -> & Hlenj & Htj)%all_models_lookup.
    rewrite !dict_zip_values by done.
    eapply StronglySorted_lookup_lt; [apply product_bool_sorted|done..].
  - vm_compute. reflexivity.
Qed.

Lemma all_models_enumeration_witness :
  ∃ ms, all_models ["q"; "p"; "r12"] = Some ms
    ∧ length ms = 2 ^ length ["q"; "p"; "r12"]
    ∧ (∀ m, m ∈ ms ↔ dom m = list_to_set ["q"; "p"; "r12"])
    ∧ NoDup ms
    ∧ (∀ i m j v, ms !! i = Some m → ["q"; "p"; "r12"] !! j = Some v →
         m !! v = Some (Nat.testbit i (length ["q"; "p"; "r12"] - 1 - j)))
    ∧ (∀ i j mi mj, i < j → ms !! i = Some mi → ms !! j = Some mj →
         lex_lt (model_values ["q"; "p"; "r12"] mi)
                (model_values ["q"; "p"; "r12"] mj))
    ∧ all_models ["p"; "q"]
      = Some [ dict_of_pairs [("p", false); ("q", false)];
               dict_of_pairs [("p", false); ("q", true)];
               dict_of_pairs [("p", true); ("q", false)];
               dict_of_pairs [("p", true); ("q", true)] ].
Proof.
  apply (all_models_enumeration ["q"; "p"; "r12"]).
  - apply (bool_decide_unpack _). vm_compute. exact I.
  - repeat constructor.
Defined.

(** C10: on the empty list [all_models] yields one model, the empty
    mapping. A constructed formula without variables is therefore
    classified by its value in that one model: it is a tautology, and
    satisfiable, exactly when it evaluates to [True] there, and a
    contradiction exactly when it evaluates to [False] there; ['T'] is a
    tautology, ['F'] is a contradiction and is not satisfiable. *)
Theorem variable_free_classification :
  all_models [] = Some [∅]
  ∧ (∀ f, constructed f → variables f = ∅ →
       ∃ b, evaluate f ∅ = Some b
            ∧ is_tautology f = Some b
            ∧ is_contradiction f = Some (negb b)
            ∧ is_satisfiable f = Some b)
  ∧ is_tautology (Leaf "T") = Some true
  ∧ is_contradiction (Leaf "F") = Some true
  ∧ is_satisfiable (Leaf "F") = Some false.
Proof.
  split_and!; [done| |done..].
  intros f Hf%constructed_wf Hvars. exists (truth_value ∅ f).
  assert (evaluate f ∅ = Some (truth_value ∅ f)) as Hev.
  { apply evaluate_truth_value; [done|done|]. rewrite Hvars. set_solver. }
  unfold is_tautology, is_contradiction, is_satisfiable.
  rewrite Hvars, elements_empty.
  change (all_models (sorted [])) with (Some [(∅ : gmap string bool)]).
  cbn [mbind option_bind truth_values fmap list_fmap].
  rewrite Hev. by destruct (truth_value ∅ f).
Qed.

Lemma variable_free_classification_witness :
  ∃ b, evaluate (Binary "->" (Leaf "F") (Unary "~" (Leaf "T"))) ∅ = Some b
       ∧ is_tautology (Binary "->" (Leaf "F") (Unary "~" (Leaf "T"))) = Some b
       ∧ is_contradiction (Binary "->" (Leaf "F") (Unary "~" (Leaf "T")))
         = Some (negb b)
       ∧ is_satisfiable (Binary "->" (Leaf "F") (Unary "~" (Leaf "T"))) = Some b.
Proof.
  apply (proj1 (proj2 variable_free_classification)
           (Binary "->" (Leaf "F") (Unary "~" (Leaf "T")))).
  - apply constructed_wf. reflexivity.
  - reflexivity.
Defined.


(** * Synthesis *)

Section synthesis.
Implicit Types (f g c : Formula) (m : gmap string bool) (vs : list string).

(** ** Chains of one operator *)

Lemma foldl_Binary_wf op acc items :
  is_binary op = true → wf acc = true → (∀ x, x ∈ items → wf x = true) →
  wf (foldl (Binary op) acc items) = true.
Proof.
  intros Hop. revert acc. induction items as [|x items IH]; intros acc Hacc Hitems; [done|].
  simpl. apply IH; [|set_solver]. simpl. rewrite Hop, Hacc. simpl. apply Hitems. set_solver.
Qed.

Lemma foldl_Binary_variables op acc items v :
  v ∈ variables (foldl (Binary op) acc items)
  ↔ v ∈ variables acc ∨ ∃ x, x ∈ items ∧ v ∈ variables x.
Proof.
  revert acc. induction items as [|x items IH]; intros acc; simpl.
  - set_solver.
  - rewrite IH. simpl. set_solver.
Qed.

Lemma foldl_and_truth m acc items :
  truth_value m (foldl (Binary "&") acc items) = true
  ↔ truth_value m acc = true ∧ ∀ x, x ∈ items → truth_value m x = true.
Proof.
  revert acc. induction items as [|x items IH]; intros acc; simpl.
  - set_solver.
  - rewrite IH. cbn [truth_value]. change (truth_table "&") with andb.
    rewrite andb_true_iff. set_solver.
Qed.

Lemma foldl_or_truth m acc items :
  truth_value m (foldl (Binary "|") acc items) = true
  ↔ truth_value m acc = true ∨ ∃ x, x ∈ items ∧ truth_value m x = true.
Proof.
  revert acc. induction items as [|x items IH]; intros acc; simpl.
  - set_solver.
  - rewrite IH. cbn [truth_value]. change (truth_table "|") with orb.
    rewrite orb_true_iff. set_solver.
Qed.

Lemma chain_Some op items : items ≠ [] → is_Some (chain op items).
Proof. by destruct items. Qed.

Lemma chain_wf op items f :
  is_binary op = true → chain op items = Some f →
  (∀ x, x ∈ items → wf x = true) → wf f = true.
Proof.
  intros Hop Hf Hitems. destruct items as [|x items]; simplify_eq/=.
  apply foldl_Binary_wf; [done|..]; set_solver.
Qed.

Lemma chain_variables op items f v :
  chain op items = Some f →
  v ∈ variables f ↔ ∃ x, x ∈ items ∧ v ∈ variables x.
Proof.
  intros Hf. destruct items as [|x items]; simplify_eq/=.
  rewrite foldl_Binary_variables. set_solver.
Qed.

Lemma chain_and_truth m items f :
  chain "&" items = Some f →
  truth_value m f = true ↔ ∀ x, x ∈ items → truth_value m x = true.
Proof.
  intros Hf. destruct items as [|x items]; simplify_eq/=.
  rewrite foldl_and_truth. set_solver.
Qed.

Lemma chain_or_truth m items f :
  chain "|" items = Some f →
  truth_value m f = true ↔ ∃ x, x ∈ items ∧ truth_value m x = true.
Proof.
  intros Hf. destruct items as [|x items]; simplify_eq/=.
  rewrite foldl_or_truth. set_solver.
Qed.

(** ** The sorted keys of a model *)

Lemma sorted_elem (xs : list string) x : x ∈ sorted xs ↔ x ∈ xs.
Proof. unfold sorted. by rewrite merge_sort_Permutation. Qed.

Lemma sorted_keys_elem m v : v ∈ sorted (elements (dom m)) ↔ v ∈ dom m.
Proof. by rewrite sorted_elem, elem_of_elements. Qed.

Lemma sorted_keys_nonempty m : dom m ≠ ∅ → sorted (elements (dom m)) ≠ [].
Proof.
  intros Hne Hnil. apply Hne. apply set_eq. intros v.
  rewrite <-sorted_keys_elem, Hnil. set_solver.
Qed.

Lemma is_model_spec m : is_model m = true ↔ ∀ v, v ∈ dom m → is_variable v = true.
Proof.
  unfold is_model. rewrite dict_all_spec. setoid_rewrite elem_of_dom.
  split; [intros H v [x Hx]; eauto|intros H k v Hk; eauto].
Qed.

Lemma model_eq_values m m' :
  dom m' = dom m →
  (∀ v, v ∈ dom m → model_value m' v = model_value m v) → m' = m.
Proof.
  intros Hdom Hval. apply map_eq. intros v.
  destruct (decide (v ∈ dom m)) as [Hin|Hnin].
  - rewrite (model_lookup m v), (model_lookup m' v) by (done || by rewrite Hdom).
    by rewrite Hval.
  - rewrite (proj1 (not_elem_of_dom m v)) by done.
    apply not_elem_of_dom. by rewrite Hdom.
Qed.

(** ** The clause of one model *)

Lemma model_size_pos m : dom m ≠ ∅ → bool_decide (0 < size (dom m)) = true.
Proof.
  intros Hne. apply bool_decide_eq_true_2.
  assert (size (dom m) ≠ 0); [|lia].
  apply size_non_empty_iff. by intros ?%leibniz_equiv.
Qed.

Lemma truth_value_variable m v :
  is_variable v = true → truth_value m (Leaf v) = model_value m v.
Proof. intros Hv. simpl. by rewrite is_variable_not_constant. Qed.

Lemma truth_value_negated m v :
  is_variable v = true →
  truth_value m (Unary "~" (Leaf v)) = negb (model_value m v).
Proof. intros Hv. simpl. by rewrite is_variable_not_constant. Qed.

Lemma literal_wf positive m v : is_variable v = true → wf (literal positive m v) = true.
Proof. intros Hv. unfold literal. destruct (Bool.eqb _ _); simpl; by rewrite Hv. Qed.

Lemma literal_variables positive m v :
  is_variable v = true → variables (literal positive m v) = {[ v ]}.
Proof. intros Hv. unfold literal. destruct (Bool.eqb _ _); simpl; by rewrite Hv. Qed.

Lemma literal_truth positive m m' v :
  is_variable v = true →
  truth_value m' (literal positive m v)
  = Bool.eqb (Bool.eqb (model_value m' v) (model_value m v)) positive.
Proof.
  intros Hv. unfold literal. destruct (Bool.eqb _ _) eqn:E.
  - rewrite truth_value_variable by done.
    by destruct (model_value m' v), (model_value m v), positive.
  - rewrite truth_value_negated by done.
    by destruct (model_value m' v), (model_value m v), positive.
Qed.

Lemma literals_wf positive m x :
  is_model m = true →
  x ∈ literal positive m <$> sorted (elements (dom m)) → wf x = true.
Proof.
  intros Hm (v & -> & Hv%sorted_keys_elem)%list_elem_of_fmap.
  apply literal_wf. by apply (proj1 (is_model_spec m) Hm).
Qed.

Lemma literals_variables positive m v :
  is_model m = true →
  (∃ x, x ∈ literal positive m <$> sorted (elements (dom m)) ∧ v ∈ variables x)
  ↔ v ∈ dom m.
Proof.
  intros Hm. pose proof (proj1 (is_model_spec m) Hm) as Hvars. split.
  - intros (x & (k & -> & Hk%sorted_keys_elem)%list_elem_of_fmap & Hv).
    rewrite literal_variables in Hv by auto. set_solver.
  - intros Hv. exists (literal positive m v). split.
    + apply list_elem_of_fmap. exists v. split; [done|by apply sorted_keys_elem].
    + rewrite literal_variables by auto. set_solver.
Qed.

Lemma synthesize_for_model_literals m :
  (λ variable, if model_value m variable then Leaf variable
               else Unary "~" (Leaf variable))
  <$> sorted (elements (dom m))
  = literal true m <$> sorted (elements (dom m)).
Proof.
  apply list_fmap_ext. intros _ v _. unfold literal.
  by destruct (model_value m v).
Qed.

Lemma synthesize_for_all_except_model_literals m :
  (λ variable, if model_value m variable then Unary "~" (Leaf variable)
               else Leaf variable)
  <$> sorted (elements (dom m))
  = literal false m <$> sorted (elements (dom m)).
Proof.
  apply list_fmap_ext. intros _ v _. unfold literal.
  by destruct (model_value m v).
Qed.

Lemma synthesize_for_model_spec m :
  is_model m = true → dom m ≠ ∅ →
  ∃ c, _synthesize_for_model m = Some c ∧ wf c = true ∧ variables c = dom m
       ∧ ∀ m', dom m' = dom m → truth_value m' c = true ↔ m' = m.
Proof.
  intros Hm Hne. unfold _synthesize_for_model.
  rewrite Hm, model_size_pos by done. cbn [negb].
  rewrite synthesize_for_model_literals.
  pose proof (proj1 (is_model_spec m) Hm) as Hvars.
  destruct (chain_Some "&" (literal true m <$> sorted (elements (dom m))))
    as [c Hc].
  { intros Hnil%fmap_nil_inv. by apply sorted_keys_nonempty in Hnil. }
  exists c. split; [exact Hc|]. split_and!.
  - eapply chain_wf; [|exact Hc|]; [done|]. intros x. by apply literals_wf.
  - apply set_eq. intros v. rewrite (chain_variables _ _ _ _ Hc).
    by apply literals_variables.
  - intros m' Hdom. rewrite (chain_and_truth _ _ _ Hc). split.
    + intros Hall. apply model_eq_values; [done|]. intros v Hv.
      specialize (Hall (literal true m v)).
      rewrite literal_truth in Hall by auto.
      apply eqb_prop, eqb_prop, Hall.
      apply list_elem_of_fmap. exists v. split; [done|by apply sorted_keys_elem].
    + intros -> x (v & -> & Hv%sorted_keys_elem)%list_elem_of_fmap.
      rewrite literal_truth by auto. by rewrite eqb_reflx.
Qed.

Lemma synthesize_for_all_except_model_spec m :
  is_model m = true → dom m ≠ ∅ →
  ∃ c, _synthesize_for_all_except_model m = Some c ∧ wf c = true
       ∧ variables c = dom m
       ∧ ∀ m', dom m' = dom m → truth_value m' c = false ↔ m' = m.
Proof.
  intros Hm Hne. unfold _synthesize_for_all_except_model.
  rewrite Hm, model_size_pos by done. cbn [negb].
  rewrite synthesize_for_all_except_model_literals.
  pose proof (proj1 (is_model_spec m) Hm) as Hvars.
  destruct (chain_Some "|" (literal false m <$> sorted (elements (dom m))))
    as [c Hc].
  { intros Hnil%fmap_nil_inv. by apply sorted_keys_nonempty in Hnil. }
  exists c. split; [exact Hc|]. split_and!.
  - eapply chain_wf; [|exact Hc|]; [done|]. intros x. by apply literals_wf.
  - apply set_eq. intros v. rewrite (chain_variables _ _ _ _ Hc).
    by apply literals_variables.
  - intros m' Hdom. rewrite <-not_true_iff_false, (chain_or_truth _ _ _ Hc). split.
    + intros Hnone. apply model_eq_values; [done|]. intros v Hv.
      destruct (Bool.eqb (model_value m' v) (model_value m v)) eqn:E;
        [by apply eqb_prop|].
      exfalso. apply Hnone. exists (literal false m v). split.
      * apply list_elem_of_fmap. exists v. split; [done|by apply sorted_keys_elem].
      * rewrite literal_truth by auto. by rewrite E.
    + intros -> (x & (v & -> & Hv%sorted_keys_elem)%list_elem_of_fmap & Hx).
      rewrite literal_truth in Hx by auto. by rewrite eqb_reflx in Hx.
Qed.

(** ** The selected models *)

Lemma selected_models_elem select (ms : list (gmap string bool)) values m :
  m ∈ selected_models select ms values
  ↔ ∃ i b, ms !! i = Some m ∧ values !! i = Some b ∧ select b = true.
Proof.
  unfold selected_models. rewrite list_elem_of_bind. split.
  - intros ([m0 b] & Hm & (i & x & y & [= -> ->] & Hx & Hy)%elem_of_lookup_zip_with).
    simpl in Hm. destruct (select y) eqn:Hs; [|set_solver].
    apply list_elem_of_singleton in Hm as ->. eauto.
  - intros (i & b & Hi & Hb & Hs). exists (m, b). split.
    + simpl. rewrite Hs. set_solver.
    + apply elem_of_lookup_zip_with. eauto 10.
Qed.

Lemma selected_models_nil select (ms : list (gmap string bool)) values :
  (∀ b, b ∈ values → select b = false) → selected_models select ms values = [].
Proof.
  intros Hnone. destruct (selected_models select ms values) as [|m l] eqn:E; [done|].
  assert (m ∈ selected_models select ms values) as Hm by (rewrite E; set_solver).
  apply selected_models_elem in Hm as (i & b & _ & Hb & Hs).
  rewrite Hnone in Hs; [done|]. by eapply list_elem_of_lookup_2.
Qed.

Lemma mapM_default {A B} (f : A → option B) (d : B) (l : list A) :
  (∀ x, x ∈ l → is_Some (f x)) →
  mapM f l = Some ((λ x, default d (f x)) <$> l).
Proof.
  induction l as [|x l IH]; intros Hl; [done|].
  cbn [mapM fmap list_fmap]. destruct (Hl x) as [y Hy]; [set_solver|].
  rewrite Hy, IH by set_solver. done.
Qed.
(** ** The synthesized formulas *)

Lemma all_models_member_model vs m :
  vs ≠ [] → NoDup vs → Forall (λ v, is_variable v = true) vs →
  dom m = list_to_set vs → is_model m = true ∧ dom m ≠ ∅.
Proof.
  intros Hne Hnd Hvs Hdom. split.
  - apply is_model_spec. intros v. rewrite Hdom, elem_of_list_to_set.
    apply (proj1 (Forall_forall _ _) Hvs).
  - rewrite Hdom. destruct vs as [|v vs]; [done|]. set_solver.
Qed.

Lemma length_pos_decide vs : vs ≠ [] → bool_decide (0 < length vs) = true.
Proof. intros Hne. apply bool_decide_eq_true_2. destruct vs; simpl; [done|lia]. Qed.

Lemma synthesize_spec vs values :
  vs ≠ [] → NoDup vs → Forall (λ v, is_variable v = true) vs →
  ∃ f, synthesize vs values = Some f ∧ wf f = true
       ∧ variables f ⊆ list_to_set vs
       ∧ ∀ m', dom m' = list_to_set vs →
           truth_value m' f = true
           ↔ m' ∈ selected_models id
                    ((λ t, dict_of_pairs (zip vs t))
                       <$> product [false; true] (length vs)) values.
Proof.
  intros Hne Hnd Hvs. unfold synthesize.
  rewrite length_pos_decide, all_models_eq by done. cbn [negb mbind option_bind].
  set (ms := (λ t, dict_of_pairs (zip vs t)) <$> product [false; true] (length vs)).
  set (sel := selected_models id ms values).
  assert (∀ m, m ∈ sel →
    ∃ c, _synthesize_for_model m = Some c ∧ wf c = true ∧ variables c = list_to_set vs
         ∧ ∀ m', dom m' = list_to_set vs → truth_value m' c = true ↔ m' = m) as Hsel.
  { intros m (i & b & Hi & _)%selected_models_elem.
    assert (dom m = list_to_set vs) as Hdom.
    { apply all_models_elem; [done|]. by eapply list_elem_of_lookup_2. }
    destruct (all_models_member_model vs m) as [Hm Hd]; [done..|].
    destruct (synthesize_for_model_spec m Hm Hd) as (c & Hc & Hwf & Hv & Ht).
    exists c. rewrite <-Hdom. eauto. }
  rewrite (mapM_default _ (Leaf "") sel) by (intros m (c & -> & _)%Hsel; eauto).
  cbn [mbind option_bind].
  destruct sel as [|m0 sel'] eqn:Esel.
  - destruct vs as [|v vs']; [done|]. cbn [fmap list_fmap head mbind option_bind].
    apply Forall_cons in Hvs as [Hv _].
    eexists. split; [done|]. split_and!.
    + simpl. by rewrite Hv.
    + simpl. rewrite Hv. set_solver.
    + intros m' _. simpl. rewrite is_variable_not_constant by done.
      unfold truth_table. simpl. rewrite andb_negb_r. set_solver.
  - destruct (chain_Some "|" ((λ x, default (Leaf "") (_synthesize_for_model x))
                                <$> m0 :: sel')) as [f Hf]; [done|].
    exists f. split; [exact Hf|]. split_and!.
    + eapply chain_wf; [|exact Hf|]; [done|].
      intros x (m & -> & (c & -> & Hwf & _)%Hsel)%list_elem_of_fmap. done.
    + intros v. rewrite (chain_variables _ _ _ _ Hf).
      intros (x & (m & -> & (c & -> & _ & Hv & _)%Hsel)%list_elem_of_fmap & Hx).
      simpl in Hx. by rewrite Hv in Hx.
    + intros m' Hdom. rewrite (chain_or_truth _ _ _ Hf). split.
      * intros (x & (m & -> & Hm)%list_elem_of_fmap & Hx).
        destruct (Hsel m Hm) as (c & Hc & _ & _ & Ht). rewrite Hc in Hx.
        simpl in Hx. apply Ht in Hx; [|done]. by subst.
      * intros Hm'. destruct (Hsel m' Hm') as (c & Hc & _ & _ & Ht).
        exists c. split; [|by apply Ht].
        apply list_elem_of_fmap. exists m'. by rewrite Hc.
Qed.

Lemma synthesize_cnf_spec vs values :
  vs ≠ [] → NoDup vs → Forall (λ v, is_variable v = true) vs →
  ∃ g, synthesize_cnf vs values = Some g ∧ wf g = true
       ∧ variables g ⊆ list_to_set vs
       ∧ ∀ m', dom m' = list_to_set vs →
           truth_value m' g = false
           ↔ m' ∈ selected_models negb
                    ((λ t, dict_of_pairs (zip vs t))
                       <$> product [false; true] (length vs)) values.
Proof.
  intros Hne Hnd Hvs. unfold synthesize_cnf.
  rewrite length_pos_decide, all_models_eq by done. cbn [negb mbind option_bind].
  set (ms := (λ t, dict_of_pairs (zip vs t)) <$> product [false; true] (length vs)).
  set (sel := selected_models negb ms values).
  assert (∀ m, m ∈ sel →
    ∃ c, _synthesize_for_all_except_model m = Some c ∧ wf c = true
         ∧ variables c = list_to_set vs
         ∧ ∀ m', dom m' = list_to_set vs → truth_value m' c = false ↔ m' = m) as Hsel.
  { intros m (i & b & Hi & _)%selected_models_elem.
    assert (dom m = list_to_set vs) as Hdom.
    { apply all_models_elem; [done|]. by eapply list_elem_of_lookup_2. }
    destruct (all_models_member_model vs m) as [Hm Hd]; [done..|].
    destruct (synthesize_for_all_except_model_spec m Hm Hd) as (c & Hc & Hwf & Hv & Ht).
    exists c. rewrite <-Hdom. eauto. }
  rewrite (mapM_default _ (Leaf "") sel) by (intros m (c & -> & _)%Hsel; eauto).
  cbn [mbind option_bind].
  destruct sel as [|m0 sel'] eqn:Esel.
  - destruct vs as [|v vs']; [done|]. cbn [fmap list_fmap head mbind option_bind].
    apply Forall_cons in Hvs as [Hv _].
    eexists. split; [done|]. split_and!.
    + simpl. by rewrite Hv.
    + simpl. rewrite Hv. set_solver.
    + intros m' _. simpl. rewrite is_variable_not_constant by done.
      unfold truth_table. simpl. rewrite orb_negb_r. set_solver.
  - destruct (chain_Some "&" ((λ x, default (Leaf "") (_synthesize_for_all_except_model x))
                                <$> m0 :: sel')) as [g Hg]; [done|].
    exists g. split; [exact Hg|]. split_and!.
    + eapply chain_wf; [|exact Hg|]; [done|].
      intros x (m & -> & (c & -> & Hwf & _)%Hsel)%list_elem_of_fmap. done.
    + intros v. rewrite (chain_variables _ _ _ _ Hg).
      intros (x & (m & -> & (c & -> & _ & Hv & _)%Hsel)%list_elem_of_fmap & Hx).
      simpl in Hx. by rewrite Hv in Hx.
    + intros m' Hdom. rewrite <-not_true_iff_false, (chain_and_truth _ _ _ Hg). split.
      * intros Hnot. destruct (decide (m' ∈ m0 :: sel')) as [|Hnin]; [done|].
        exfalso. apply Hnot. intros x (m & -> & Hm)%list_elem_of_fmap.
        destruct (Hsel m Hm) as (c & Hc & _ & _ & Ht). rewrite Hc. simpl.
        apply not_false_iff_true. rewrite Ht by done. by intros ->.
      * intros Hm' Hall. destruct (Hsel m' Hm') as (c & Hc & _ & _ & Ht).
        specialize (Hall c). rewrite (proj2 (Ht m' Hdom)) in Hall by done.
        discriminate Hall. apply list_elem_of_fmap. exists m'. by rewrite Hc.
Qed.

(** With distinct variables, a model of the enumeration is selected
    exactly when the value at its own position selects it. *)
Lemma selected_models_position select vs values j m b :
  NoDup vs →
  ((λ t, dict_of_pairs (zip vs t)) <$> product [false; true] (length vs)) !! j
  = Some m →
  values !! j = Some b →
  m ∈ selected_models select
        ((λ t, dict_of_pairs (zip vs t)) <$> product [false; true] (length vs))
        values
  ↔ select b = true.
Proof.
  intros Hnd Hj Hb. rewrite selected_models_elem. split.
  - intros (i & b' & Hi & Hb' & Hs).
    assert (i = j) as ->.
    { eapply NoDup_lookup; [by apply all_models_NoDup|done..]. }
    by simplify_eq.
  - intros Hs. eauto.
Qed.
End synthesis.


(** C3, for distinct variables: for a nonempty list of distinct variable
    names and a list of [2 ^ |vs|] truth values, [synthesize] and
    [synthesize_cnf] return constructed formulas whose values in the
    models of [all_models vs], in order, are the given values. When no
    value is [True], [synthesize] returns [(v&~v)] for the first variable
    [v]; when no value is [False], [synthesize_cnf] returns [(v|~v)]. *)
Theorem synthesize_truth_table vs values :
  vs ≠ [] → NoDup vs → Forall (λ v, is_variable v = true) vs →
  length values = 2 ^ length vs →
  ∃ ms f g,
    all_models vs = Some ms
    ∧ synthesize vs values = Some f ∧ synthesize_cnf vs values = Some g
    ∧ constructed f ∧ constructed g
    ∧ evaluate f <$> ms = Some <$> values
    ∧ evaluate g <$> ms = Some <$> values
    ∧ ((∀ b, b ∈ values → b = false) →
       ∃ v, head vs = Some v ∧ f = Binary "&" (Leaf v) (Unary "~" (Leaf v)))
    ∧ ((∀ b, b ∈ values → b = true) →
       ∃ v, head vs = Some v ∧ g = Binary "|" (Leaf v) (Unary "~" (Leaf v))).
Proof.
  intros Hne Hnd Hvs Hlen.
  destruct (synthesize_spec vs values Hne Hnd Hvs) as (f & Hf & Hwf & Hfv & Hft).
  destruct (synthesize_cnf_spec vs values Hne Hnd Hvs) as (g & Hg & Hwg & Hgv & Hgt).
  exists ((λ t, dict_of_pairs (zip vs t)) <$> product [false; true] (length vs)), f, g.
  split; [by apply all_models_eq|].
  pose proof (all_models_NoDup vs Hnd) as Hdup.
  pose proof (all_models_elem vs) as Helem.
  assert (length ((λ t, dict_of_pairs (zip vs t))
                    <$> product [false; true] (length vs)) = length values) as Hlens.
  { by rewrite length_fmap, product_bool_length. }
  set (ms := (λ t, dict_of_pairs (zip vs t)) <$> product [false; true] (length vs)) in *.
  split_and!; [done|done|by apply constructed_wf|by apply constructed_wf|..].
  - apply list_eq. intros j. rewrite !list_lookup_fmap.
    destruct (_ !! j) as [m|] eqn:Hm; simpl.
    + assert (dom m = list_to_set vs) as Hdom.
      { apply Helem; [done|]. by eapply list_elem_of_lookup_2. }
      destruct (all_models_member_model vs m) as [Hmodel _]; [done..|].
      apply lookup_lt_Some in Hm as Hj. rewrite Hlens in Hj.
      destruct (lookup_lt_is_Some_2 values j Hj) as [b Hb]. rewrite Hb. simpl.
      rewrite evaluate_truth_value by (done || by rewrite Hdom).
      f_equal. specialize (Hft m Hdom). unfold ms in Hft.
      rewrite (selected_models_position id vs values j m b) in Hft by done.
      simpl in Hft. destruct (truth_value m f), b; naive_solver.
    + apply lookup_ge_None in Hm. rewrite Hlens in Hm.
      by rewrite (proj2 (lookup_ge_None values j)).
  - apply list_eq. intros j. rewrite !list_lookup_fmap.
    destruct (_ !! j) as [m|] eqn:Hm; simpl.
    + assert (dom m = list_to_set vs) as Hdom.
      { apply Helem; [done|]. by eapply list_elem_of_lookup_2. }
      destruct (all_models_member_model vs m) as [Hmodel _]; [done..|].
      apply lookup_lt_Some in Hm as Hj. rewrite Hlens in Hj.
      destruct (lookup_lt_is_Some_2 values j Hj) as [b Hb]. rewrite Hb. simpl.
      rewrite evaluate_truth_value by (done || by rewrite Hdom).
      f_equal. specialize (Hgt m Hdom). unfold ms in Hgt.
      rewrite (selected_models_position negb vs values j m b) in Hgt by done.
      destruct (truth_value m g), b; naive_solver.
    + apply lookup_ge_None in Hm. rewrite Hlens in Hm.
      by rewrite (proj2 (lookup_ge_None values j)).
  - intros Hnone. unfold synthesize in Hf.
    rewrite length_pos_decide, all_models_eq in Hf by done.
    cbn [negb mbind option_bind] in Hf.
    rewrite selected_models_nil in Hf by (intros b ->%Hnone; done).
    destruct vs as [|v vs']; [done|]. exists v. split; [done|].
    by simplify_eq/=.
  - intros Hnone. unfold synthesize_cnf in Hg.
    rewrite length_pos_decide, all_models_eq in Hg by done.
    cbn [negb mbind option_bind] in Hg.
    rewrite selected_models_nil in Hg by (intros b ->%Hnone; done).
    destruct vs as [|v vs']; [done|]. exists v. split; [done|].
    by simplify_eq/=.
Qed.

Lemma synthesize_truth_table_witness :
  ∃ ms f g,
    all_models ["p"; "q"] = Some ms
    ∧ synthesize ["p"; "q"] [true; true; true; false] = Some f
    ∧ synthesize_cnf ["p"; "q"] [true; true; true; false] = Some g
    ∧ constructed f ∧ constructed g
    ∧ evaluate f <$> ms = Some <$> [true; true; true; false]
    ∧ evaluate g <$> ms = Some <$> [true; true; true; false]
    ∧ ((∀ b, b ∈ [true; true; true; false] → b = false) →
       ∃ v, head ["p"; "q"] = Some v
            ∧ f = Binary "&" (Leaf v) (Unary "~" (Leaf v)))
    ∧ ((∀ b, b ∈ [true; true; true; false] → b = true) →
       ∃ v, head ["p"; "q"] = Some v
            ∧ g = Binary "|" (Leaf v) (Unary "~" (Leaf v))).
Proof.
  apply (synthesize_truth_table ["p"; "q"] [true; true; true; false]).
  - discriminate.
  - apply (bool_decide_unpack _). vm_compute. exact I.
  - repeat constructor.
  - reflexivity.
Defined.

(** C3 as stated, without distinctness, fails on the list ['p', 'p']: its
    four models are [{p:F}], [{p:T}], [{p:F}], [{p:T}]; with the values
    [True, False, False, False], [synthesize] returns the single clause
    [~p], which evaluates to [True, False, True, False], and
    [synthesize_cnf] returns [((~p&p)&~p)], which evaluates to [False] in
    every model. *)
Lemma synthesize_repeated_variable :
  length [true; false; false; false] = 2 ^ length ["p"; "p"]
  ∧ synthesize ["p"; "p"] [true; false; false; false]
    = Some (Unary "~" (Leaf "p"))
  ∧ synthesize_cnf ["p"; "p"] [true; false; false; false]
    = Some (Binary "&" (Binary "&" (Unary "~" (Leaf "p")) (Leaf "p"))
              (Unary "~" (Leaf "p")))
  ∧ (λ ms : list (gmap string bool), evaluate (Unary "~" (Leaf "p")) <$> ms)
      <$> all_models ["p"; "p"]
    = Some [Some true; Some false; Some true; Some false]
  ∧ (λ ms : list (gmap string bool),
       evaluate (Binary "&" (Binary "&" (Unary "~" (Leaf "p")) (Leaf "p"))
                   (Unary "~" (Leaf "p"))) <$> ms)
      <$> all_models ["p"; "p"]
    = Some [Some false; Some false; Some false; Some false]
  ∧ [Some true; Some false; Some true; Some false]
    ≠ Some <$> [true; false; false; false]
  ∧ [Some false; Some false; Some false; Some false]
    ≠ Some <$> [true; false; false; false].
Proof. split_and!; [vm_compute; reflexivity..|discriminate|discriminate]. Qed.


(** * Operator bases *)

Section bases.
Implicit Types (f g h a b : Formula) (m : gmap string bool).

Lemma constants_unary r a : constants a ≠ ∅ → constants (Unary r a) ≠ ∅.
Proof. unfold constants. simpl. set_solver. Qed.

Lemma constants_binary_l r a b : constants a ≠ ∅ → constants (Binary r a b) ≠ ∅.
Proof. unfold constants. simpl. set_solver. Qed.

Lemma constants_binary_r r a b : constants b ≠ ∅ → constants (Binary r a b) ≠ ∅.
Proof. unfold constants. simpl. set_solver. Qed.

Lemma constants_leaf c : is_constant c = true → constants (Leaf c) ≠ ∅.
Proof.
  intros Hc. unfold constants. simpl. rewrite is_constant_not_variable by done.
  destruct (is_constant_cases _ Hc) as [-> | ->]; set_solver.
Qed.

(** ** Into [{~, &, |}] *)

Lemma to_not_and_or_rewrites f :
  wf f = true →
  ∃ g, to_not_and_or f = Some g ∧ rewrites_into {[ "~"; "&"; "|" ]} f g.
Proof.
  unfold rewrites_into.
  induction f as [r|r a IHa|r a IHa b IHb]; intros Hwf; simpl in Hwf.
  - cbn [to_not_and_or]. destruct (is_variable r) eqn:Hv.
    + exists (Leaf r). split; [done|]. simpl. rewrite Hv. set_solver.
    + simpl in Hwf. rewrite Hwf.
      pose proof (constants_leaf r Hwf) as Hc.
      destruct (is_constant_cases _ Hwf) as [-> | ->]; simpl;
        (eexists; split; [done|]);
        (split_and!;
         [ done
         | simpl; clear; set_solver
         | intros v Hp; right; simpl in Hp; split; [clear -Hp; set_solver|done]
         | intros model; simpl; unfold truth_table; simpl;
           by destruct (model_value model "p") ]).
  - apply andb_true_iff in Hwf as [Hr Ha].
    destruct (IHa Ha) as (a' & Ha' & Hwa & Hoa & Hva & Hta).
    cbn [to_not_and_or]. rewrite Ha'. cbn [mbind option_bind].
    eexists. split; [done|]. split_and!.
    + done.
    + simpl. set_solver.
    + intros v [Hv|[-> Hc]]%Hva; [by left|right].
      split; [done|by apply constants_unary].
    + intros model. simpl. by rewrite Hta.
  - apply andb_true_iff in Hwf as [[Hr Ha]%andb_true_iff Hb].
    destruct (IHa Ha) as (a' & Ha' & Hwa & Hoa & Hva & Hta).
    destruct (IHb Hb) as (b' & Hb' & Hwb & Hob & Hvb & Htb).
    cbn [to_not_and_or]. rewrite Ha', Hb'. cbn [mbind option_bind].
    assert (∀ v, v ∈ variables a' ∪ variables b' →
              v ∈ variables (Binary r a b) ∨ v = "p" ∧ constants (Binary r a b) ≠ ∅)
      as Hvars.
    { intros v [[Hv|[-> Hc]]%Hva|[Hv|[-> Hc]]%Hvb]%elem_of_union; simpl.
      - left. set_solver.
      - right. split; [done|by apply constants_binary_l].
      - left. set_solver.
      - right. split; [done|by apply constants_binary_r]. }
    destruct (is_binary_cases _ Hr) as [->|[->|[->|[->|[->|[->| ->]]]]]];
      simpl; (eexists; split; [done|]);
      (split_and!;
       [ simpl; by rewrite ?Hwa, ?Hwb
       | simpl; clear -Hoa Hob; set_solver
       | intros v Hv; apply Hvars; simpl in Hv; clear -Hv; set_solver
       | intros model; simpl; rewrite ?Hta, ?Htb; unfold truth_table; simpl;
         by destruct (truth_value model a), (truth_value model b) ]).
Qed.
(** ** The local [convert] helpers *)

Lemma rewrites_into_step basis basis' f g h :
  rewrites_into basis f g → converts_into basis' g h → rewrites_into basis' f h.
Proof.
  intros (_ & _ & Hv & Ht) (Hwf & Hops & Hv' & Ht').
  split_and!; [done|done|..].
  - intros v. rewrite Hv'. apply Hv.
  - intros model. by rewrite Ht', Ht.
Qed.

Lemma basis_leaf_variable basis r :
  wf (Leaf r) = true → operators (Leaf r) ⊆ basis →
  "T" ∉ basis → "F" ∉ basis → is_variable r = true.
Proof.
  simpl. intros Hwf Hops HT HF. destruct (is_variable r) eqn:Hv; [done|].
  simpl in Hwf. destruct (is_constant_cases _ Hwf) as [-> | ->]; set_solver.
Qed.

Lemma to_not_and_convert_spec g :
  wf g = true → operators g ⊆ {[ "~"; "&"; "|" ]} →
  ∀ fuel, height g ≤ fuel →
  ∃ h, to_not_and_convert fuel g = Some h ∧ converts_into {[ "~"; "&" ]} g h.
Proof.
  unfold converts_into.
  induction g as [r|r a IHa|r a IHa b IHb]; intros Hwf Hops fuel Hfuel;
    (destruct fuel as [|fuel]; [simpl in Hfuel; lia|]); simpl in Hfuel;
    cbn [to_not_and_convert].
  - rewrite (basis_leaf_variable _ r Hwf Hops) by (clear; set_solver).
    exists (Leaf r). split_and!; try done. simpl.
    rewrite (basis_leaf_variable _ r Hwf Hops) by (clear; set_solver).
    clear; set_solver.
  - simpl in Hwf, Hops. apply andb_true_iff in Hwf as [Hr Ha].
    destruct (IHa Ha) with (fuel := fuel) as (a' & -> & Hwa & Hoa & Hva & Hta);
      [clear -Hops; set_solver|lia|].
    cbn [mbind option_bind]. eexists. split; [done|]. split_and!.
    + done.
    + simpl. clear -Hoa. set_solver.
    + done.
    + intros model. simpl. by rewrite Hta.
  - simpl in Hwf, Hops. apply andb_true_iff in Hwf as [[Hr Ha]%andb_true_iff Hb].
    destruct (IHa Ha) with (fuel := fuel) as (a' & -> & Hwa & Hoa & Hva & Hta);
      [clear -Hops; set_solver|lia|].
    destruct (IHb Hb) with (fuel := fuel) as (b' & -> & Hwb & Hob & Hvb & Htb);
      [clear -Hops; set_solver|lia|].
    assert (r = "&" ∨ r = "|") as [-> | ->].
    { assert (r ∈ ({[ "~"; "&"; "|" ]} : gset string)) as Hin by (clear -Hops; set_solver).
      rewrite !elem_of_union, !elem_of_singleton in Hin.
      destruct Hin as [[-> | ->] | ->]; [done|by left|by right]. }
    + cbn. eexists. split; [done|]. split_and!.
      * simpl. by rewrite Hwa, Hwb.
      * simpl. clear -Hoa Hob. set_solver.
      * simpl. by rewrite Hva, Hvb.
      * intros model. simpl. by rewrite Hta, Htb.
    + cbn. eexists. split; [done|]. split_and!.
      * simpl. by rewrite Hwa, Hwb.
      * simpl. clear -Hoa Hob. set_solver.
      * simpl. by rewrite Hva, Hvb.
      * intros model. simpl. rewrite Hta, Htb. unfold truth_table. simpl.
        by destruct (truth_value model a), (truth_value model b).
Qed.

Lemma to_nand_convert_spec g :
  wf g = true → operators g ⊆ {[ "~"; "&" ]} →
  ∀ fuel, height g ≤ fuel →
  ∃ h, to_nand_convert fuel g = Some h ∧ converts_into {[ "-&" ]} g h.
Proof.
  unfold converts_into.
  induction g as [r|r a IHa|r a IHa b IHb]; intros Hwf Hops fuel Hfuel;
    (destruct fuel as [|fuel]; [simpl in Hfuel; lia|]); simpl in Hfuel;
    cbn [to_nand_convert].
  - rewrite (basis_leaf_variable _ r Hwf Hops) by (clear; set_solver).
    exists (Leaf r). split_and!; try done. simpl.
    rewrite (basis_leaf_variable _ r Hwf Hops) by (clear; set_solver).
    clear; set_solver.
  - simpl in Hwf, Hops. apply andb_true_iff in Hwf as [Hr Ha].
    destruct (IHa Ha) with (fuel := fuel) as (a' & -> & Hwa & Hoa & Hva & Hta);
      [clear -Hops; set_solver|lia|].
    cbn [mbind option_bind]. eexists. split; [done|]. split_and!.
    + simpl. by rewrite Hwa.
    + simpl. clear -Hoa. set_solver.
    + simpl. rewrite Hva. clear. set_solver.
    + intros model. simpl. rewrite Hta. unfold truth_table. simpl.
      by destruct (truth_value model a).
  - simpl in Hwf, Hops. apply andb_true_iff in Hwf as [[Hr Ha]%andb_true_iff Hb].
    destruct (IHa Ha) with (fuel := fuel) as (a' & -> & Hwa & Hoa & Hva & Hta);
      [clear -Hops; set_solver|lia|].
    destruct (IHb Hb) with (fuel := fuel) as (b' & -> & Hwb & Hob & Hvb & Htb);
      [clear -Hops; set_solver|lia|].
    assert (r = "&") as ->.
    { assert (r ∈ ({[ "~"; "&" ]} : gset string)) as Hin by (clear -Hops; set_solver).
      rewrite !elem_of_union, !elem_of_singleton in Hin.
      by destruct Hin as [-> | ->]. }
    cbn. eexists. split; [done|]. split_and!.
    + simpl. by rewrite Hwa, Hwb.
    + simpl. clear -Hoa Hob. set_solver.
    + simpl. rewrite Hva, Hvb. clear. set_solver.
    + intros model. simpl. rewrite Hta, Htb. unfold truth_table. simpl.
      by destruct (truth_value model a), (truth_value model b).
Qed.

Lemma to_implies_not_convert_spec g :
  wf g = true → operators g ⊆ {[ "~"; "&"; "|" ]} →
  ∀ fuel, height g ≤ fuel →
  ∃ h, to_implies_not_convert fuel g = Some h ∧ converts_into {[ "->"; "~" ]} g h.
Proof.
  unfold converts_into.
  induction g as [r|r a IHa|r a IHa b IHb]; intros Hwf Hops fuel Hfuel;
    (destruct fuel as [|fuel]; [simpl in Hfuel; lia|]); simpl in Hfuel;
    cbn [to_implies_not_convert].
  - rewrite (basis_leaf_variable _ r Hwf Hops) by (clear; set_solver).
    exists (Leaf r). split_and!; try done. simpl.
    rewrite (basis_leaf_variable _ r Hwf Hops) by (clear; set_solver).
    clear; set_solver.
  - simpl in Hwf, Hops. apply andb_true_iff in Hwf as [Hr Ha].
    destruct (IHa Ha) with (fuel := fuel) as (a' & -> & Hwa & Hoa & Hva & Hta);
      [clear -Hops; set_solver|lia|].
    cbn [mbind option_bind]. eexists. split; [done|]. split_and!.
    + done.
    + simpl. clear -Hoa. set_solver.
    + done.
    + intros model. simpl. by rewrite Hta.
  - simpl in Hwf, Hops. apply andb_true_iff in Hwf as [[Hr Ha]%andb_true_iff Hb].
    destruct (IHa Ha) with (fuel := fuel) as (a' & -> & Hwa & Hoa & Hva & Hta);
      [clear -Hops; set_solver|lia|].
    destruct (IHb Hb) with (fuel := fuel) as (b' & -> & Hwb & Hob & Hvb & Htb);
      [clear -Hops; set_solver|lia|].
    assert (r = "&" ∨ r = "|") as [-> | ->].
    { assert (r ∈ ({[ "~"; "&"; "|" ]} : gset string)) as Hin by (clear -Hops; set_solver).
      rewrite !elem_of_union, !elem_of_singleton in Hin.
      destruct Hin as [[-> | ->] | ->]; [done|by left|by right]. }
    + cbn. eexists. split; [done|]. split_and!.
      * simpl. by rewrite Hwa, Hwb.
      * simpl. clear -Hoa Hob. set_solver.
      * simpl. by rewrite Hva, Hvb.
      * intros model. simpl. rewrite Hta, Htb. unfold truth_table. simpl.
        by destruct (truth_value model a), (truth_value model b).
    + cbn. eexists. split; [done|]. split_and!.
      * simpl. by rewrite Hwa, Hwb.
      * simpl. clear -Hoa Hob. set_solver.
      * simpl. by rewrite Hva, Hvb.
      * intros model. simpl. rewrite Hta, Htb. unfold truth_table. simpl.
        by destruct (truth_value model a), (truth_value model b).
Qed.

Lemma to_implies_false_convert_spec g :
  wf g = true → operators g ⊆ {[ "->"; "~" ]} →
  ∃ h, to_implies_false_convert g = Some h ∧ converts_into {[ "->"; "F" ]} g h.
Proof.
  unfold converts_into.
  induction g as [r|r a IHa|r a IHa b IHb]; intros Hwf Hops;
    cbn [to_implies_false_convert].
  - rewrite (basis_leaf_variable _ r Hwf Hops) by (clear; set_solver).
    exists (Leaf r). split_and!; try done. simpl.
    rewrite (basis_leaf_variable _ r Hwf Hops) by (clear; set_solver).
    clear; set_solver.
  - simpl in Hwf, Hops. apply andb_true_iff in Hwf as [Hr Ha].
    destruct (IHa Ha) as (a' & -> & Hwa & Hoa & Hva & Hta);
      [clear -Hops; set_solver|].
    cbn [mbind option_bind]. eexists. split; [done|]. split_and!.
    + simpl. by rewrite Hwa.
    + simpl. clear -Hoa. set_solver.
    + simpl. rewrite Hva. clear. set_solver.
    + intros model. simpl. rewrite Hta. unfold truth_table. simpl.
      by destruct (truth_value model a).
  - simpl in Hwf, Hops. apply andb_true_iff in Hwf as [[Hr Ha]%andb_true_iff Hb].
    destruct (IHa Ha) as (a' & -> & Hwa & Hoa & Hva & Hta);
      [clear -Hops; set_solver|].
    destruct (IHb Hb) as (b' & -> & Hwb & Hob & Hvb & Htb);
      [clear -Hops; set_solver|].
    assert (r = "->") as ->.
    { assert (r ∈ ({[ "->"; "~" ]} : gset string)) as Hin by (clear -Hops; set_solver).
      rewrite !elem_of_union, !elem_of_singleton in Hin.
      by destruct Hin as [-> | ->]. }
    cbn. eexists. split; [done|]. split_and!.
    + simpl. by rewrite Hwa, Hwb.
    + simpl. clear -Hoa Hob. set_solver.
    + simpl. by rewrite Hva, Hvb.
    + intros model. simpl. by rewrite Hta, Htb.
Qed.
End bases.

Section converters.
Implicit Types (f g : Formula) (m : gmap string bool).

Lemma to_not_and_rewrites f :
  wf f = true → ∃ g, to_not_and f = Some g ∧ rewrites_into {[ "~"; "&" ]} f g.
Proof.
  intros Hwf. unfold to_not_and.
  destruct (to_not_and_or_rewrites f Hwf) as (g & -> & Hg).
  cbn [mbind option_bind].
  destruct (to_not_and_convert_spec g) with (fuel := budget g) as (h & -> & Hh);
    [apply Hg|apply Hg|unfold budget; lia|].
  exists h. split; [done|]. by eapply rewrites_into_step.
Qed.

Lemma to_nand_rewrites f :
  wf f = true → ∃ g, to_nand f = Some g ∧ rewrites_into {[ "-&" ]} f g.
Proof.
  intros Hwf. unfold to_nand.
  destruct (to_not_and_rewrites f Hwf) as (g & -> & Hg).
  cbn [mbind option_bind].
  destruct (to_nand_convert_spec g) with (fuel := budget g) as (h & -> & Hh);
    [apply Hg|apply Hg|unfold budget; lia|].
  exists h. split; [done|]. by eapply rewrites_into_step.
Qed.

Lemma to_implies_not_rewrites f :
  wf f = true →
  ∃ g, to_implies_not f = Some g ∧ rewrites_into {[ "->"; "~" ]} f g.
Proof.
  intros Hwf. unfold to_implies_not.
  destruct (to_not_and_or_rewrites f Hwf) as (g & -> & Hg).
  cbn [mbind option_bind].
  destruct (to_implies_not_convert_spec g) with (fuel := budget g) as (h & -> & Hh);
    [apply Hg|apply Hg|unfold budget; lia|].
  exists h. split; [done|]. by eapply rewrites_into_step.
Qed.

Lemma to_implies_false_rewrites f :
  wf f = true →
  ∃ g, to_implies_false f = Some g ∧ rewrites_into {[ "->"; "F" ]} f g.
Proof.
  intros Hwf. unfold to_implies_false.
  destruct (to_implies_not_rewrites f Hwf) as (g & -> & Hg).
  cbn [mbind option_bind].
  destruct (to_implies_false_convert_spec g) as (h & -> & Hh); [apply Hg..|].
  exists h. split; [done|]. by eapply rewrites_into_step.
Qed.

Lemma converters_rewrite C basis f :
  (C, basis) ∈ converters → wf f = true →
  ∃ g, C f = Some g ∧ rewrites_into basis f g.
Proof.
  unfold converters. rewrite !elem_of_cons, elem_of_nil.
  intros [Heq|[Heq|[Heq|[Heq|[Heq|[]]]]]] Hwf; injection Heq as -> ->.
  - by apply to_not_and_or_rewrites.
  - by apply to_not_and_rewrites.
  - by apply to_nand_rewrites.
  - by apply to_implies_not_rewrites.
  - by apply to_implies_false_rewrites.
Qed.
End converters.

(** C1, for models that also give a value to [p] when the formula contains
    a constant: each of the five converters returns, for a constructed
    formula, a constructed formula over its target basis; the variables of
    the result are variables of the input, except [p], which the rewriting
    of ['T'] and ['F'] brings in; and in every model over the variables of
    the input, and over [p] when the input contains a constant, the
    result and the input evaluate alike. *)
Theorem converters_preserve_evaluation C basis f m :
  (C, basis) ∈ converters →
  constructed f →
  is_model m = true → variables f ⊆ dom m →
  (constants f ≠ ∅ → "p" ∈ dom m) →
  ∃ g, C f = Some g
       ∧ constructed g
       ∧ operators g ⊆ basis
       ∧ (∀ v, v ∈ variables g → v ∈ variables f ∨ (v = "p" ∧ constants f ≠ ∅))
       ∧ evaluate g m = evaluate f m.
Proof.
  intros HC Hf%constructed_wf Hm Hsub Hp.
  destruct (converters_rewrite C basis f HC Hf) as (g & Hg & Hwf & Hops & Hv & Ht).
  exists g. split_and!; [done|by apply constructed_wf|done|done|].
  rewrite !evaluate_truth_value; [by rewrite Ht|done..|done|done|].
  intros v [Hin|[-> Hc]]%Hv; [by apply Hsub|by apply Hp].
Qed.

Lemma converters_preserve_evaluation_witness :
  ∃ g, to_nand (Binary "->" (Leaf "T") (Leaf "x")) = Some g
       ∧ constructed g
       ∧ operators g ⊆ {[ "-&" ]}
       ∧ (∀ v, v ∈ variables g →
            v ∈ variables (Binary "->" (Leaf "T") (Leaf "x"))
            ∨ (v = "p" ∧ constants (Binary "->" (Leaf "T") (Leaf "x")) ≠ ∅))
       ∧ evaluate g (dict_of_pairs [("x", false); ("p", true)])
         = evaluate (Binary "->" (Leaf "T") (Leaf "x"))
             (dict_of_pairs [("x", false); ("p", true)]).
Proof.
  apply (converters_preserve_evaluation to_nand {[ "-&" ]}
           (Binary "->" (Leaf "T") (Leaf "x"))
           (dict_of_pairs [("x", false); ("p", true)])).
  - unfold converters. do 2 apply list_elem_of_further. apply list_elem_of_here.
  - apply constructed_wf. reflexivity.
  - vm_compute. reflexivity.
  - apply (bool_decide_unpack _). vm_compute. exact I.
  - intros _. apply (bool_decide_unpack _). vm_compute. exact I.
Defined.

(** C1 as stated, for every model over the variables of the input, fails
    on the constant ['T'] and the empty model: ['T'] has no variable and
    evaluates to [True] there, while each converter returns a formula in
    [p], which [evaluate] refuses in a model without [p]. *)
Lemma converted_constant_needs_p :
  variables (Leaf "T") ⊆ dom (∅ : gmap string bool)
  ∧ evaluate (Leaf "T") ∅ = Some true
  ∧ to_not_and_or (Leaf "T") = Some (Binary "|" (Leaf "p") (Unary "~" (Leaf "p")))
  ∧ (to_not_and_or (Leaf "T") ≫= λ g, evaluate g ∅) = None
  ∧ (to_not_and (Leaf "T") ≫= λ g, evaluate g ∅) = None
  ∧ (to_nand (Leaf "T") ≫= λ g, evaluate g ∅) = None
  ∧ (to_implies_not (Leaf "T") ≫= λ g, evaluate g ∅) = None
  ∧ (to_implies_false (Leaf "T") ≫= λ g, evaluate g ∅) = None
  ∧ to_implies_false (Leaf "T")
    = Some (Binary "->" (Binary "->" (Leaf "p") (Leaf "F"))
              (Binary "->" (Leaf "p") (Leaf "F"))).
Proof.
  split_and!; [apply (bool_decide_unpack _); vm_compute; exact I
              |vm_compute; reflexivity..].
Qed.


(** * Parsing as the inverse of printing *)

Section parse_inverse.
Implicit Types (f g : Formula) (s rest : string).

Lemma parse_Some_inv s f : parse s = Some f → wf f = true ∧ repr f = s.
Proof.
  unfold parse, is_formula.
  destruct (parse_prefix_total s) as ([[g|] remainder] & -> & Hout);
    cbn [mbind option_bind]; [|done].
  destruct Hout as [Hwf ->].
  destruct (String.eqb_spec remainder "") as [->|]; [|by case_bool_decide].
  rewrite bool_decide_eq_true_2 by eauto. cbn.
  intros [= ->]. by rewrite str_app_nil_r.
Qed.

Lemma parse_spec s f : parse s = Some f ↔ wf f = true ∧ repr f = s.
Proof.
  split; [apply parse_Some_inv|]. intros [Hwf <-]. by apply parse_repr.
Qed.

Lemma is_formula_spec s :
  ∃ b, is_formula s = Some b ∧ (b = true ↔ ∃ f, wf f = true ∧ repr f = s).
Proof.
  unfold is_formula.
  destruct (parse_prefix_total s) as ([[g|] remainder] & Hs & Hout);
    rewrite Hs; cbn [mbind option_bind]; eexists; (split; [done|]).
  - destruct Hout as [Hwf ->].
    rewrite bool_decide_eq_true_2 by eauto. cbn [andb].
    destruct (String.eqb_spec remainder "") as [->|Hne]; split; try done.
    + intros _. exists g. by rewrite str_app_nil_r.
    + intros (f & Hf & Heq). exfalso. apply Hne.
      pose proof (parse_prefix_repr_app f "" Hf eq_refl) as Hp.
      rewrite str_app_nil_r, Heq, Hs in Hp. by simplify_eq.
  - rewrite bool_decide_eq_false_2 by (by intros [? ?]). cbn [andb].
    split; [done|]. intros (f & Hf & Heq).
    pose proof (parse_prefix_repr_app f "" Hf eq_refl) as Hp.
    rewrite str_app_nil_r, Heq in Hp. congruence.
Qed.

Lemma parse_polish_Some_inv s f :
  parse_polish s = Some f → wf f = true ∧ polish f = s.
Proof.
  unfold parse_polish.
  destruct (polish_prefix_total s) as ([[g|] remainder] & -> & Hout);
    cbn [mbind option_bind]; [|done].
  destruct Hout as [Hwf ->].
  destruct (String.eqb_spec remainder "") as [->|]; [|done].
  intros [= ->]. by rewrite str_app_nil_r.
Qed.

Lemma parse_polish_spec s f :
  parse_polish s = Some f ↔ wf f = true ∧ polish f = s.
Proof.
  split; [apply parse_polish_Some_inv|]. intros [Hwf <-].
  by apply parse_polish_polish.
Qed.

Lemma repr_inj f g : wf f = true → wf g = true → repr f = repr g → f = g.
Proof.
  intros Hf Hg Heq. apply (inj Some).
  by rewrite <-(parse_repr f), <-(parse_repr g), Heq.
Qed.

Lemma polish_inj f g : wf f = true → wf g = true → polish f = polish g → f = g.
Proof.
  intros Hf Hg Heq. apply (inj Some).
  by rewrite <-(parse_polish_polish f), <-(parse_polish_polish g), Heq.
Qed.

(** ** Whole variable names *)

Lemma no_decimal_head_drop_run s :
  no_decimal_head (str_drop (decimal_run s) s) = true.
Proof.
  induction s as [|c s IH]; [done|]. simpl.
  destruct (char_isdecimal c) eqn:Hc; [done|]. simpl. by rewrite Hc.
Qed.

Lemma parse_prefix_fuel_whole_variable fuel s f remainder :
  parse_prefix_fuel fuel s = Some (Some f, remainder) →
  ends_in_variable f = true → no_decimal_head remainder = true.
Proof.
  revert s f remainder. induction fuel as [|fuel IH]; intros s f remainder; [done|].
  destruct s as [|c rest]; [done|]. cbn [parse_prefix_fuel].
  destruct (is_constant (String c "")) eqn:Hconst.
  { intros [= <- <-]. cbn [ends_in_variable].
    by rewrite is_constant_not_variable. }
  destruct (char_is_p_to_z c && is_variable _) eqn:Hvar.
  { intros [= <- <-] _. unfold variable_index. apply no_decimal_head_drop_run. }
  destruct (is_unary (String c "")) eqn:Hun.
  { destruct (parse_prefix_fuel fuel rest) as [[[g|] rem]|] eqn:Hrest;
      cbn [mbind option_bind]; try done.
    intros [= <- <-]. cbn [ends_in_variable]. by eapply IH. }
  destruct (String c "" =? "(")%string; [|done].
  destruct (parse_prefix_fuel fuel rest) as [[[first|] rem]|];
    cbn [mbind option_bind]; try done.
  destruct (rem =? "")%string; [done|].
  destruct (match_operator rem) as [[operator rem2]|]; [|done].
  destruct (parse_prefix_fuel fuel rem2) as [[[second|] rem3]|];
    cbn [mbind option_bind]; try done.
  destruct (_ || _); [done|]. by intros [= <- <-].
Qed.

(** ** The tokens of a formula *)

Lemma variables_are_variables f v : v ∈ variables f → is_variable v = true.
Proof.
  induction f as [r|r a IHa|r a IHa b IHb]; simpl.
  - destruct (is_variable r) eqn:Hr; [|set_solver].
    by intros ->%elem_of_singleton.
  - done.
  - rewrite elem_of_union. tauto.
Qed.

Lemma operators_are_operators f o :
  wf f = true → o ∈ operators f →
  is_constant o = true ∨ is_unary o = true ∨ is_binary o = true.
Proof.
  induction f as [r|r a IHa|r a IHa b IHb]; simpl.
  - destruct (is_variable r) eqn:Hr; [set_solver|]. simpl.
    intros Hc ->%elem_of_singleton. by left.
  - intros [Hr Ha]%andb_true_iff [->%elem_of_singleton|Ho]%elem_of_union; auto.
  - intros [[Hr Ha]%andb_true_iff Hb]%andb_true_iff.
    rewrite !elem_of_union, elem_of_singleton. intros [->|[?|?]]; auto.
Qed.
End parse_inverse.

(** X1: the four token classes are mutually exclusive: no string is in
    two of them, so the order in which the code tests them never
    matters. *)
Theorem token_classes_exclusive s :
  (is_variable s = true →
   is_constant s = false ∧ is_unary s = false ∧ is_binary s = false)
  ∧ (is_constant s = true → is_unary s = false ∧ is_binary s = false)
  ∧ (is_unary s = true → is_binary s = false).
Proof.
  split_and!.
  - intros Hv. split_and!; [by apply is_variable_not_constant
                           |by apply is_variable_not_unary
                           |by apply is_variable_not_binary].
  - by intros [-> | ->]%is_constant_cases.
  - by intros ->%is_unary_eq.
Qed.

Lemma token_classes_exclusive_witness :
  is_constant "q76" = false ∧ is_unary "q76" = false ∧ is_binary "q76" = false.
Proof.
  apply (proj1 (token_classes_exclusive "q76")). reflexivity.
Defined.

(** X2: [is_formula] returns on every text, and returns [True] exactly on
    the printed forms of constructed formulas; [parse] returns a formula
    exactly when the text is its printed form, so the printed form of
    [parse s] is [s]; and where [is_formula] is [False], [parse] fails its
    assertion. *)
Theorem parse_inverts_repr s :
  (∃ b, is_formula s = Some b ∧ (b = true ↔ ∃ f, constructed f ∧ repr f = s))
  ∧ (∀ f, parse s = Some f ↔ constructed f ∧ repr f = s)
  ∧ (is_formula s = Some false → parse s = None).
Proof.
  split_and!.
  - destruct (is_formula_spec s) as (b & Hb & Hiff). exists b. split; [done|].
    rewrite Hiff. by setoid_rewrite constructed_wf.
  - intros f. rewrite constructed_wf. apply parse_spec.
  - intros Hfalse. unfold parse. by rewrite Hfalse.
Qed.

Lemma parse_inverts_repr_witness :
  parse "(p&q" = None ∧ parse "(p&~q1)x" = None.
Proof.
  split.
  - apply (proj2 (proj2 (parse_inverts_repr "(p&q"))). reflexivity.
  - apply (proj2 (proj2 (parse_inverts_repr "(p&~q1)x"))). reflexivity.
Defined.

(** X3: the local parser of [parse_polish] returns on every text, with a
    constructed formula and the text left after its polish form, or with
    one of two messages; and [parse_polish] returns a formula exactly when
    the text is its polish form, failing its assertion on every other
    text. *)
Theorem parse_polish_inverts_polish s :
  (∃ result, polish_prefix s = Some result ∧ polish_outcome s result)
  ∧ (∀ f, parse_polish s = Some f ↔ constructed f ∧ polish f = s).
Proof.
  split; [apply polish_prefix_total|].
  intros f. rewrite constructed_wf. apply parse_polish_spec.
Qed.

(** X4: on constructed formulas, equality of printed forms, which is what
    [__eq__] tests, is equality of the trees; [__ne__] is its negation; and
    the polish form determines the tree as well. *)
Theorem formula_equality_structural f g :
  constructed f → constructed g →
  (Formula_eq f g = true ↔ f = g)
  ∧ (Formula_ne f g = true ↔ f ≠ g)
  ∧ (repr f = repr g ↔ f = g)
  ∧ (polish f = polish g ↔ f = g).
Proof.
  intros Hf%constructed_wf Hg%constructed_wf.
  assert (Formula_eq f g = true ↔ f = g) as Heq.
  { unfold Formula_eq. rewrite String.eqb_eq.
    split; [by apply repr_inj|by intros ->]. }
  split_and!.
  - done.
  - unfold Formula_ne. rewrite negb_true_iff, <-not_true_iff_false. by rewrite Heq.
  - split; [by apply repr_inj|by intros ->].
  - split; [by apply polish_inj|by intros ->].
Qed.

Lemma formula_equality_structural_witness :
  Formula_ne (Binary "&" (Leaf "p") (Leaf "q")) (Binary "&" (Leaf "q") (Leaf "p"))
  = true.
Proof.
  apply (formula_equality_structural
           (Binary "&" (Leaf "p") (Leaf "q")) (Binary "&" (Leaf "q") (Leaf "p")));
    [apply constructed_wf; reflexivity..|discriminate].
Defined.

(** X5: when the formula [_parse_prefix] returns ends in a variable name,
    the text left over does not begin with a decimal digit: the parsed
    prefix includes the entire variable name and not just a part of it. *)
Theorem parse_prefix_takes_whole_variable s f remainder :
  _parse_prefix s = Some (Some f, remainder) →
  ends_in_variable f = true →
  no_decimal_head remainder = true.
Proof. apply parse_prefix_fuel_whole_variable. Qed.

Lemma parse_prefix_takes_whole_variable_witness :
  _parse_prefix "~x12y3" = Some (Some (Unary "~" (Leaf "x12")), "y3")
  ∧ no_decimal_head "y3" = true.
Proof.
  split; [reflexivity|].
  apply (parse_prefix_takes_whole_variable "~x12y3" (Unary "~" (Leaf "x12")) "y3");
    reflexivity.
Defined.

(** X6: in a constructed formula every element of [variables()] is a
    variable name, every element of [operators()] is a constant or an
    operator, and the two sets are disjoint. *)
Theorem formula_tokens_classified f :
  constructed f →
  (∀ v, v ∈ variables f → is_variable v = true)
  ∧ (∀ o, o ∈ operators f →
       is_constant o = true ∨ is_unary o = true ∨ is_binary o = true)
  ∧ variables f ## operators f.
Proof.
  intros Hf%constructed_wf. split_and!.
  - intros v. apply variables_are_variables.
  - intros o. by apply operators_are_operators.
  - intros x Hv%variables_are_variables Ho%operators_are_operators; [|done].
    destruct Ho as [Ho|[Ho|Ho]].
    + by rewrite is_variable_not_constant in Ho.
    + by rewrite is_variable_not_unary in Ho.
    + by rewrite is_variable_not_binary in Ho.
Qed.

Lemma formula_tokens_classified_witness :
  variables (Binary "->" (Leaf "T") (Unary "~" (Leaf "x1")))
  ## operators (Binary "->" (Leaf "T") (Unary "~" (Leaf "x1"))).
Proof.
  apply (formula_tokens_classified (Binary "->" (Leaf "T") (Unary "~" (Leaf "x1")))).
  apply constructed_wf. reflexivity.
Defined.


(** * Evaluation and the models it accepts *)

Section evaluation_domain.
Implicit Types (f g : Formula) (m : gmap string bool) (σ : gmap string Formula).

Lemma evaluate_is_Some f m :
  wf f = true →
  is_Some (evaluate f m) ↔ is_model m = true ∧ variables f ⊆ dom m.
Proof.
  intros Hwf. split.
  - intros [x Hx]. by eapply evaluate_Some_inv.
  - intros [Hm Hsub]. rewrite evaluate_truth_value by done. eauto.
Qed.

Lemma evaluate_None f m :
  wf f = true →
  evaluate f m = None ↔ is_model m = false ∨ ¬ variables f ⊆ dom m.
Proof.
  intros Hwf. rewrite eq_None_not_Some, evaluate_is_Some by done.
  destruct (is_model m); split; try naive_solver.
Qed.

(** The truth value depends only on the values of the formula's own
    variables. *)
Lemma truth_value_coincidence f m m' :
  wf f = true →
  (∀ v, v ∈ variables f → model_value m v = model_value m' v) →
  truth_value m f = truth_value m' f.
Proof.
  intros Hwf. induction f as [r|r a IHa|r a IHa b IHb]; intros Hagree; simpl in *.
  - destruct (is_constant r) eqn:Hc; [done|].
    rewrite orb_false_r in Hwf. rewrite Hwf in Hagree. apply Hagree. set_solver.
  - apply andb_true_iff in Hwf as [_ Ha]. f_equal. by apply IHa.
  - apply andb_true_iff in Hwf as [[_ Ha]%andb_true_iff Hb].
    f_equal; [apply IHa|apply IHb]; try done; intros v Hv; apply Hagree; set_solver.
Qed.

Lemma evaluate_coincidence f m m' :
  wf f = true → is_model m = true → is_model m' = true →
  variables f ⊆ dom m →
  (∀ v, v ∈ variables f → m' !! v = m !! v) →
  evaluate f m' = evaluate f m.
Proof.
  intros Hwf Hm Hm' Hsub Hagree.
  assert (variables f ⊆ dom m') as Hsub'.
  { intros v Hv. apply elem_of_dom. rewrite Hagree by done.
    apply elem_of_dom. by apply Hsub. }
  rewrite !evaluate_truth_value by done. f_equal.
  apply truth_value_coincidence; [done|]. intros v Hv.
  unfold model_value. by rewrite Hagree.
Qed.
End evaluation_domain.

(** X7: on a constructed formula [evaluate] returns a value exactly when
    the keys of the model are variable names and include the formula's
    variables; on a model with another key, or without one of the
    variables, it raises. *)
Theorem evaluate_defined_iff f m :
  constructed f →
  (is_Some (evaluate f m) ↔ is_model m = true ∧ variables f ⊆ dom m)
  ∧ (evaluate f m = None ↔ is_model m = false ∨ ¬ variables f ⊆ dom m).
Proof.
  intros Hf%constructed_wf. split; [by apply evaluate_is_Some|by apply evaluate_None].
Qed.

Lemma evaluate_defined_iff_witness :
  evaluate (Binary "&" (Leaf "p") (Leaf "q")) (dict_of_pairs [("p", true)]) = None
  ∧ evaluate (Leaf "T") (dict_of_pairs [("T", true)]) = None.
Proof.
  split.
  - apply (evaluate_defined_iff (Binary "&" (Leaf "p") (Leaf "q"))
             (dict_of_pairs [("p", true)])).
    + apply constructed_wf. reflexivity.
    + right. apply (bool_decide_unpack _). vm_compute. exact I.
  - apply (evaluate_defined_iff (Leaf "T") (dict_of_pairs [("T", true)])).
    + apply constructed_wf. reflexivity.
    + left. vm_compute. reflexivity.
Defined.

(** X8: the value of a constructed formula depends only on the values the
    model gives to the formula's own variables: two models that agree on
    them give the same result, so adding or changing other variables
    never changes it. *)
Theorem evaluate_depends_on_own_variables f m m' :
  constructed f → is_model m = true → is_model m' = true →
  variables f ⊆ dom m →
  (∀ v, v ∈ variables f → m' !! v = m !! v) →
  evaluate f m' = evaluate f m
  ∧ ∀ (v : string) (b : bool),
      is_variable v = true → v ∉ variables f →
      evaluate f (<[ v := b ]> m) = evaluate f m.
Proof.
  intros Hf%constructed_wf Hm Hm' Hsub Hagree. split.
  - by apply evaluate_coincidence.
  - intros v b Hv Hnin. apply evaluate_coincidence; try done.
    + apply is_model_spec. intros k. rewrite dom_insert_L, elem_of_union, elem_of_singleton.
      intros [->|Hk]; [done|]. by apply (proj1 (is_model_spec m) Hm).
    + intros k Hk. rewrite lookup_insert_ne; [done|]. by intros ->.
Qed.

Lemma evaluate_depends_on_own_variables_witness :
  evaluate (Unary "~" (Leaf "p")) (dict_of_pairs [("p", true); ("q", false)])
  = evaluate (Unary "~" (Leaf "p")) (dict_of_pairs [("p", true)]).
Proof.
  refine (proj1 (evaluate_depends_on_own_variables (Unary "~" (Leaf "p"))
                   (dict_of_pairs [("p", true)])
                   (dict_of_pairs [("p", true); ("q", false)]) _ _ _ _ _)).
  - apply constructed_wf. reflexivity.
  - vm_compute. reflexivity.
  - vm_compute. reflexivity.
  - apply (bool_decide_unpack _). vm_compute. exact I.
  - intros v Hv. change (v ∈ ({[ "p" ]} : gset string)) in Hv.
    apply elem_of_singleton in Hv as ->. vm_compute. reflexivity.
Defined.


(** * Substitution and evaluation *)

Section substitution_semantics.
Implicit Types (f g t : Formula) (m : gmap string bool) (σ : gmap string Formula).

Lemma model_value_union_l (m1 m2 : gmap string bool) v b :
  m1 !! v = Some b → model_value (m1 ∪ m2) v = b.
Proof.
  intros H. unfold model_value. by rewrite (lookup_union_Some_l _ _ _ _ H).
Qed.

Lemma model_value_union_r (m1 m2 : gmap string bool) v :
  m1 !! v = None → model_value (m1 ∪ m2) v = model_value m2 v.
Proof. intros H. unfold model_value. by rewrite lookup_union_r. Qed.

(** The substitution lemma: the value of the substituted formula is the
    value of the original one in the model that gives each bound variable
    the value of its image. *)
Lemma truth_value_replace_variables σ m f :
  dict_all (λ variable _, is_variable variable) σ = true →
  truth_value m (replace_variables σ f)
  = truth_value ((truth_value m <$> σ) ∪ m) f.
Proof.
  intros Hσ. induction f as [r|r a IHa|r a IHa b IHb]; cbn [replace_variables].
  - destruct (σ !! r) as [g|] eqn:Hr; cbn [default truth_value].
    + pose proof (proj1 (dict_all_spec _ _) Hσ r g Hr) as Hv. simpl in Hv.
      rewrite is_variable_not_constant by done.
      symmetry. apply model_value_union_l. by rewrite lookup_fmap, Hr.
    + destruct (is_constant r); [done|].
      symmetry. apply model_value_union_r. by rewrite lookup_fmap, Hr.
  - cbn [truth_value]. by rewrite IHa.
  - cbn [truth_value]. by rewrite IHa, IHb.
Qed.

Lemma replace_variables_untouched σ f :
  dict_all (λ variable _, is_variable variable) σ = true →
  dom σ ## variables f → replace_variables σ f = f.
Proof.
  intros Hσ. induction f as [r|r a IHa|r a IHa b IHb]; cbn [replace_variables variables];
    intros Hdisj.
  - destruct (is_variable r) eqn:Hr.
    + rewrite (proj1 (not_elem_of_dom σ r)); [done|]. set_solver.
    + by rewrite lookup_non_variable.
  - by rewrite IHa.
  - rewrite IHa, IHb; [done|set_solver..].
Qed.

Lemma dict_all_false {V} (p : string → V → bool) (d : gmap string V) k v :
  d !! k = Some v → p k v = false → dict_all p d = false.
Proof.
  intros Hk Hp. destruct (dict_all p d) eqn:E; [|done].
  rewrite (proj1 (dict_all_spec p d) E k v Hk) in Hp. done.
Qed.

Lemma substitute_variables_evaluate f σ m m' :
  wf f = true →
  (∀ v g, σ !! v = Some g → is_variable v = true ∧ wf g = true) →
  is_model m = true → is_model m' = true →
  (∀ v, v ∈ variables f →
     m' !! v = match σ !! v with Some g => evaluate g m | None => m !! v end) →
  evaluate (replace_variables σ f) m = evaluate f m'.
Proof.
  intros Hwf Hσ Hm Hm' Hval.
  assert (dict_all (λ variable _, is_variable variable) σ = true) as Hkeys.
  { apply dict_all_spec. intros v g Hg. by apply (Hσ v g). }
  assert (wf (replace_variables σ f) = true) as Hwg.
  { apply wf_replace_variables; [done|]. intros v g Hg. by apply (Hσ v g). }
  pose proof (λ x, variables_replace_variables σ f x Hkeys) as Hvars.
  destruct (decide (variables f ⊆ dom m')) as [Hsub|Hnsub].
  - assert (variables (replace_variables σ f) ⊆ dom m) as Hsubg.
    { intros x (v & Hv & Hx)%Hvars.
      specialize (Hval v Hv). pose proof (Hsub v Hv) as [b Hb]%elem_of_dom.
      rewrite Hb in Hval. destruct (σ !! v) as [g|] eqn:Hg.
      - symmetry in Hval. apply evaluate_Some_inv in Hval as [_ Hsubv]. by apply Hsubv.
      - subst x. apply elem_of_dom. by rewrite <-Hval. }
    rewrite !evaluate_truth_value by done. f_equal.
    rewrite truth_value_replace_variables by done.
    apply truth_value_coincidence; [done|]. intros v Hv.
    specialize (Hval v Hv). destruct (σ !! v) as [g|] eqn:Hg.
    + rewrite (model_value_union_l _ _ v (truth_value m g))
        by (by rewrite lookup_fmap, Hg).
      unfold model_value. rewrite Hval.
      destruct (Hσ v g Hg) as [_ Hwfg].
      assert (variables g ⊆ dom m) as Hsubv.
      { intros x Hx. apply Hsubg, Hvars. exists v. by rewrite Hg. }
      by rewrite evaluate_truth_value.
    + rewrite model_value_union_r by (by rewrite lookup_fmap, Hg).
      unfold model_value. by rewrite Hval.
  - rewrite (proj2 (evaluate_None f m' Hwf)) by (by right).
    apply eq_None_not_Some. intros [b [_ Hsubg]%evaluate_Some_inv].
    apply Hnsub. intros v Hv. apply elem_of_dom. rewrite (Hval v Hv).
    destruct (σ !! v) as [g|] eqn:Hg.
    + destruct (Hσ v g Hg) as [_ Hwfg]. apply evaluate_is_Some; [done|].
      split; [done|]. intros x Hx. apply Hsubg, Hvars. exists v. by rewrite Hg.
    + apply elem_of_dom, Hsubg, Hvars. exists v. by rewrite Hg.
Qed.
End substitution_semantics.

Section operator_templates.
Implicit Types (f g t : Formula) (m : gmap string bool) (σ : gmap string Formula).

(** The model over [p] and [q] with the values another model gives
    them. *)
Lemma placeholder_model m :
  let mm : gmap string bool :=
    <[ "p" := model_value m "p" ]> {[ "q" := model_value m "q" ]} in
  is_model mm = true ∧ dom mm = {[ "p"; "q" ]}
  ∧ model_value mm "p" = model_value m "p"
  ∧ model_value mm "q" = model_value m "q".
Proof.
  intros mm. split_and!.
  - apply is_model_spec. intros v. unfold mm.
    rewrite dom_insert_L, dom_singleton_L, elem_of_union, !elem_of_singleton.
    by intros [-> | ->].
  - unfold mm. by rewrite dom_insert_L, dom_singleton_L.
  - unfold model_value, mm. by rewrite lookup_insert_eq.
  - unfold model_value, mm. rewrite lookup_insert_ne by done.
    by rewrite lookup_singleton_eq.
Qed.

Lemma applied_wf op :
  (is_constant op || is_unary op || is_binary op) = true → wf (applied op) = true.
Proof.
  unfold applied. destruct (is_constant op) eqn:Hc; [by simpl; rewrite Hc, orb_true_r|].
  destruct (is_unary op) eqn:Hu; [by simpl; rewrite Hu|].
  simpl. by intros ->.
Qed.

Lemma applied_variables op : variables (applied op) ⊆ {[ "p"; "q" ]}.
Proof.
  unfold applied. destruct (is_constant op) eqn:Hc.
  - simpl. rewrite is_constant_not_variable by done. set_solver.
  - destruct (is_unary op); simpl; set_solver.
Qed.

(** A template that evaluates like its operator in the models over [p]
    and [q] has the operator's truth value in every model. *)
Lemma template_truth_value op t m :
  (is_constant op || is_unary op || is_binary op) = true →
  wf t = true → variables t ⊆ {[ "p"; "q" ]} →
  (∀ mm, is_model mm = true → dom mm = {[ "p"; "q" ]} →
         evaluate t mm = evaluate (applied op) mm) →
  truth_value m t = truth_value m (applied op).
Proof.
  intros Hop Hwf Hvars Hsound.
  destruct (placeholder_model m) as (Hmm & Hdom & Hp & Hq).
  set (mm := <[ "p" := model_value m "p" ]> {[ "q" := model_value m "q" ]}) in *.
  specialize (Hsound mm Hmm Hdom).
  rewrite !evaluate_truth_value in Hsound
    by (done || by apply applied_wf || rewrite Hdom; (done || apply applied_variables)).
  injection Hsound as Hsound.
  assert (∀ v, v ∈ ({[ "p"; "q" ]} : gset string) →
               model_value m v = model_value mm v) as Hagree.
  { intros v. rewrite elem_of_union, !elem_of_singleton. by intros [-> | ->]. }
  rewrite (truth_value_coincidence t m mm), (truth_value_coincidence (applied op) m mm);
    [done|by apply applied_wf| |done|].
  - intros v Hv. apply Hagree. by apply (applied_variables op v).
  - intros v Hv. apply Hagree. by apply (Hvars v).
Qed.

Lemma truth_value_replace_operators σ m f :
  wf f = true →
  (∀ op t, σ !! op = Some t →
     ∀ model, truth_value model t = truth_value model (applied op)) →
  truth_value m (replace_operators σ f) = truth_value m f.
Proof.
  intros Hwf Hσ. induction f as [r|r a IHa|r a IHa b IHb];
    cbn [replace_operators]; simpl in Hwf.
  - destruct (is_variable r) eqn:Hv; [done|]. simpl in Hwf.
    destruct (σ !! r) as [t|] eqn:Hr; [|done]. cbn [default].
    rewrite (Hσ r t Hr). unfold applied. by rewrite Hwf.
  - apply andb_true_iff in Hwf as [Hr Ha]. specialize (IHa Ha).
    destruct (σ !! r) as [t|] eqn:Ht; [|by cbn [truth_value]; rewrite IHa].
    rewrite truth_value_replace_variables by apply operator_map_singleton_ok.
    rewrite (Hσ r t Ht). unfold applied.
    destruct (is_unary_not_leaf _ Hr) as (_ & -> & _). rewrite Hr.
    cbn [truth_value]. change (is_constant "p") with false. cbn match.
    rewrite (model_value_union_l _ _ "p" (truth_value m (replace_operators σ a)))
      by (by rewrite lookup_fmap, lookup_singleton_eq).
    by rewrite IHa.
  - apply andb_true_iff in Hwf as [[Hr Ha]%andb_true_iff Hb].
    specialize (IHa Ha). specialize (IHb Hb).
    destruct (σ !! r) as [t|] eqn:Ht; [|by cbn [truth_value]; rewrite IHa, IHb].
    rewrite truth_value_replace_variables by apply operator_map_pair_ok.
    rewrite (Hσ r t Ht). unfold applied.
    destruct (is_binary_not_leaf _ Hr) as (_ & -> & ->).
    cbn [truth_value]. change (is_constant "p") with false.
    change (is_constant "q") with false. cbn match.
    rewrite (model_value_union_l _ _ "p" (truth_value m (replace_operators σ a)))
      by (by rewrite lookup_fmap, lookup_insert_eq).
    rewrite (model_value_union_l _ _ "q" (truth_value m (replace_operators σ b)))
      by (rewrite lookup_fmap, lookup_insert_ne by done;
          by rewrite lookup_singleton_eq).
    by rewrite IHa, IHb.
Qed.

Lemma wf_replace_operators σ f :
  wf f = true → (∀ op t, σ !! op = Some t → wf t = true) →
  wf (replace_operators σ f) = true.
Proof.
  intros Hwf Hσ. induction f as [r|r a IHa|r a IHa b IHb];
    cbn [replace_operators]; simpl in Hwf.
  - destruct (is_variable r) eqn:Hv; [by simpl; rewrite Hv|].
    destruct (σ !! r) as [t|] eqn:Hr; cbn [default];
      [by eapply Hσ|by simpl; rewrite Hv].
  - apply andb_true_iff in Hwf as [Hr Ha]. specialize (IHa Ha).
    destruct (σ !! r) as [t|] eqn:Ht; [|by simpl; rewrite Hr].
    apply wf_replace_variables; [by eapply Hσ|].
    by intros v g [_ <-]%lookup_singleton_Some.
  - apply andb_true_iff in Hwf as [[Hr Ha]%andb_true_iff Hb].
    specialize (IHa Ha). specialize (IHb Hb).
    destruct (σ !! r) as [t|] eqn:Ht; [|by simpl; rewrite Hr, IHa, IHb].
    apply wf_replace_variables; [by eapply Hσ|].
    intros v g. rewrite lookup_insert_Some, lookup_singleton_Some.
    by intros [[_ <-]|[_ [_ <-]]].
Qed.

Lemma replace_operators_empty f : replace_operators ∅ f = f.
Proof.
  induction f as [r|r a IHa|r a IHa b IHb]; cbn [replace_operators].
  - rewrite lookup_empty. by destruct (is_variable r).
  - by rewrite lookup_empty, IHa.
  - by rewrite lookup_empty, IHa, IHb.
Qed.

Lemma substitute_operators_bad_map f σ :
  dict_all operator_template_ok σ = false → substitute_operators f σ = None.
Proof. intros Hσ. destruct f; cbn [substitute_operators]; by rewrite Hσ. Qed.
End operator_templates.

Section placeholder_models.
Implicit Types (t : Formula) (m : gmap string bool).

Lemma placeholder_models_elem m :
  m ∈ placeholder_models ↔ dom m = {[ "p"; "q" ]}.
Proof.
  assert (NoDup ["p"; "q"]) as Hnd by (apply (bool_decide_unpack _); by vm_compute).
  pose proof (all_models_elem ["p"; "q"] m Hnd) as Helem.
  cbn [list_to_set] in Helem. rewrite (right_id_L ∅ (∪)) in Helem.
  rewrite <-Helem. unfold placeholder_models.
  by rewrite all_models_eq by (by repeat constructor).
Qed.

Lemma placeholder_models_sound op t :
  Forall (λ mm, evaluate t mm = evaluate (applied op) mm) placeholder_models →
  ∀ mm, is_model mm = true → dom mm = {[ "p"; "q" ]} →
        evaluate t mm = evaluate (applied op) mm.
Proof.
  intros Hall mm _ Hdom%placeholder_models_elem.
  by apply (proj1 (Forall_forall _ _) Hall).
Qed.
End placeholder_models.

(** X9: the substitution lemma. With variable names as keys and
    constructed formulas as images, evaluating the substituted formula in
    a model [m] gives what the original formula gives in any model [m']
    that assigns to each of its variables the value of the variable's
    image in [m], or [m]'s own value when the variable is not bound; a
    missing value on one side is a missing value on the other. *)
Theorem substitute_variables_evaluates f σ m m' :
  constructed f →
  (∀ v g, σ !! v = Some g → is_variable v = true ∧ constructed g) →
  is_model m = true → is_model m' = true →
  (∀ v, v ∈ variables f →
     m' !! v = match σ !! v with Some g => evaluate g m | None => m !! v end) →
  ∃ g, substitute_variables f σ = Some g ∧ constructed g
       ∧ evaluate g m = evaluate f m'.
Proof.
  intros Hf%constructed_wf Hσ Hm Hm' Hval.
  assert (∀ v g, σ !! v = Some g → is_variable v = true ∧ wf g = true) as Hσ'.
  { intros v g [Hv Hg%constructed_wf]%Hσ. done. }
  exists (replace_variables σ f). split_and!.
  - apply substitute_variables_spec, dict_all_spec.
    intros v g Hg. by apply (Hσ' v g).
  - apply constructed_wf, wf_replace_variables; [done|].
    intros v g Hg. by apply (Hσ' v g).
  - by apply substitute_variables_evaluate.
Qed.

Lemma substitute_variables_evaluates_witness :
  ∃ g, substitute_variables (Binary "|" (Binary "->" (Leaf "p") (Leaf "p")) (Leaf "r"))
         (<[ "p" := Binary "&" (Leaf "q") (Leaf "r") ]> {[ "r" := Leaf "p" ]})
       = Some g
       ∧ constructed g
       ∧ evaluate g (dict_of_pairs [("p", false); ("q", true); ("r", true)])
         = evaluate (Binary "|" (Binary "->" (Leaf "p") (Leaf "p")) (Leaf "r"))
             (dict_of_pairs [("p", true); ("r", false)]).
Proof.
  apply (substitute_variables_evaluates
           (Binary "|" (Binary "->" (Leaf "p") (Leaf "p")) (Leaf "r"))
           (<[ "p" := Binary "&" (Leaf "q") (Leaf "r") ]> {[ "r" := Leaf "p" ]})
           (dict_of_pairs [("p", false); ("q", true); ("r", true)])
           (dict_of_pairs [("p", true); ("r", false)])).
  - apply constructed_wf. reflexivity.
  - intros v g. rewrite lookup_insert_Some, lookup_singleton_Some.
    intros [[<- <-]|[_ [<- <-]]]; (split; [reflexivity|apply constructed_wf; reflexivity]).
  - vm_compute. reflexivity.
  - vm_compute. reflexivity.
  - intros v Hv.
    change (v ∈ (({[ "p" ]} ∪ {[ "p" ]}) ∪ {[ "r" ]} : gset string)) in Hv.
    rewrite !elem_of_union, !elem_of_singleton in Hv.
    destruct Hv as [[-> | ->] | ->]; vm_compute; reflexivity.
Defined.

(** X10: [substitute_variables] returns the formula itself when the map
    is empty or binds none of the formula's variables, and fails its
    assertion, whatever the formula, as soon as one key of the map is not
    a variable name. *)
Theorem substitute_variables_edge_cases f σ :
  ((∀ v g, σ !! v = Some g → is_variable v = true) →
   dom σ ## variables f → substitute_variables f σ = Some f)
  ∧ (∀ k g, σ !! k = Some g → is_variable k = false →
       substitute_variables f σ = None)
  ∧ substitute_variables f ∅ = Some f.
Proof.
  assert (∀ τ, (∀ v g, τ !! v = Some g → is_variable v = true) →
               dom τ ## variables f → substitute_variables f τ = Some f) as Hid.
  { intros τ Hkeys Hdisj.
    assert (dict_all (λ variable _, is_variable variable) τ = true) as Hτ.
    { apply dict_all_spec. eauto. }
    by rewrite substitute_variables_spec, replace_variables_untouched. }
  split_and!.
  - apply Hid.
  - intros k g Hk Hbad. apply substitute_variables_bad_key.
    by apply (dict_all_false _ _ k g).
  - apply Hid; [by intros v g; rewrite lookup_empty|].
    rewrite dom_empty_L. set_solver.
Qed.

Lemma substitute_variables_edge_cases_witness :
  substitute_variables (Binary "&" (Leaf "p") (Leaf "q")) {[ "r" := Leaf "T" ]}
  = Some (Binary "&" (Leaf "p") (Leaf "q"))
  ∧ substitute_variables (Leaf "p") {[ "T" := Leaf "p" ]} = None.
Proof.
  split.
  - apply (proj1 (substitute_variables_edge_cases
                    (Binary "&" (Leaf "p") (Leaf "q")) {[ "r" := Leaf "T" ]})).
    + intros v g [<- _]%lookup_singleton_Some. reflexivity.
    + apply (bool_decide_unpack _). vm_compute. exact I.
  - apply (proj1 (proj2 (substitute_variables_edge_cases
                           (Leaf "p") {[ "T" := Leaf "p" ]})) "T" (Leaf "p")).
    + apply lookup_singleton_eq.
    + reflexivity.
Defined.

(** X11: when every template of the map is a constructed formula over
    [p] and [q] that evaluates, in the four models over [p] and [q], like
    the constant or operator it replaces applied to [p] and [q], the
    formula [substitute_operators] returns evaluates like the original one
    in every model that covers both. *)
Theorem substitute_operators_preserves_evaluation f σ m :
  constructed f →
  (∀ op t, σ !! op = Some t →
     (is_constant op || is_unary op || is_binary op) = true
     ∧ constructed t
     ∧ variables t ⊆ {[ "p"; "q" ]}
     ∧ Forall (λ mm, evaluate t mm = evaluate (applied op) mm)
         placeholder_models) →
  is_model m = true → variables f ⊆ dom m →
  ∃ g, substitute_operators f σ = Some g ∧ constructed g
       ∧ (variables g ⊆ dom m → evaluate g m = evaluate f m).
Proof.
  intros Hf%constructed_wf Hσ Hm Hsub.
  exists (replace_operators σ f). split_and!.
  - apply substitute_operators_spec, dict_all_spec.
    intros op t (Hop & _ & Hvars & _)%Hσ. unfold operator_template_ok.
    rewrite Hop. by rewrite bool_decide_eq_true_2.
  - apply constructed_wf, wf_replace_operators; [done|].
    intros op t (_ & Ht%constructed_wf & _)%Hσ. done.
  - intros Hsubg. rewrite !evaluate_truth_value; try done.
    + f_equal. apply truth_value_replace_operators; [done|].
      intros op t (Hop & Ht%constructed_wf & Hvars & Hall)%Hσ model.
      apply template_truth_value; try done. by apply placeholder_models_sound.
    + apply wf_replace_operators; [done|].
      intros op t (_ & Ht%constructed_wf & _)%Hσ. done.
Qed.

Lemma substitute_operators_preserves_evaluation_witness :
  ∃ g, substitute_operators
         (Binary "&" (Binary "&" (Leaf "x") (Leaf "y")) (Unary "~" (Leaf "z")))
         {[ "&" := Unary "~" (Binary "|" (Unary "~" (Leaf "p")) (Unary "~" (Leaf "q"))) ]}
       = Some g
       ∧ constructed g
       ∧ (variables g
          ⊆ dom (dict_of_pairs [("x", true); ("y", true); ("z", false)]) →
          evaluate g (dict_of_pairs [("x", true); ("y", true); ("z", false)])
          = evaluate
              (Binary "&" (Binary "&" (Leaf "x") (Leaf "y")) (Unary "~" (Leaf "z")))
              (dict_of_pairs [("x", true); ("y", true); ("z", false)])).
Proof.
  apply (substitute_operators_preserves_evaluation
           (Binary "&" (Binary "&" (Leaf "x") (Leaf "y")) (Unary "~" (Leaf "z")))
           {[ "&" := Unary "~" (Binary "|" (Unary "~" (Leaf "p")) (Unary "~" (Leaf "q"))) ]}
           (dict_of_pairs [("x", true); ("y", true); ("z", false)])).
  - apply constructed_wf. reflexivity.
  - intros op t [<- <-]%lookup_singleton_Some. split_and!.
    + reflexivity.
    + apply constructed_wf. reflexivity.
    + apply (bool_decide_unpack _). vm_compute. exact I.
    + repeat constructor; vm_compute; reflexivity.
  - vm_compute. reflexivity.
  - apply (bool_decide_unpack _). vm_compute. exact I.
Defined.

(** X12: [substitute_operators] returns the formula itself on the empty
    map, and fails its assertions, whatever the formula, as soon as one
    key is not a constant or operator or one template has a variable
    other than [p] and [q]. *)
Theorem substitute_operators_edge_cases f σ :
  substitute_operators f ∅ = Some f
  ∧ (∀ k t, σ !! k = Some t →
       (is_constant k || is_unary k || is_binary k) = false →
       substitute_operators f σ = None)
  ∧ (∀ k t, σ !! k = Some t → ¬ variables t ⊆ {[ "p"; "q" ]} →
       substitute_operators f σ = None).
Proof.
  split_and!.
  - rewrite substitute_operators_spec by done. by rewrite replace_operators_empty.
  - intros k t Hk Hbad. apply substitute_operators_bad_map.
    apply (dict_all_false _ _ k t Hk). unfold operator_template_ok. by rewrite Hbad.
  - intros k t Hk Hbad. apply substitute_operators_bad_map.
    apply (dict_all_false _ _ k t Hk). unfold operator_template_ok.
    rewrite bool_decide_eq_false_2 by done. apply andb_false_r.
Qed.

Lemma substitute_operators_edge_cases_witness :
  substitute_operators (Leaf "x") {[ "x" := Leaf "p" ]} = None
  ∧ substitute_operators (Leaf "x") {[ "&" := Binary "|" (Leaf "p") (Leaf "r") ]}
    = None.
Proof.
  split.
  - apply (proj1 (proj2 (substitute_operators_edge_cases
                           (Leaf "x") {[ "x" := Leaf "p" ]})) "x" (Leaf "p")).
    + apply lookup_singleton_eq.
    + reflexivity.
  - apply (proj2 (proj2 (substitute_operators_edge_cases
                           (Leaf "x") {[ "&" := Binary "|" (Leaf "p") (Leaf "r") ]}))
             "&" (Binary "|" (Leaf "p") (Leaf "r"))).
    + apply lookup_singleton_eq.
    + apply (bool_decide_unpack _). vm_compute. exact I.
Defined.


(** * Classifying formulas *)

Section classification.
Implicit Types (f g : Formula) (m : gmap string bool).

Lemma sorted_variables_spec f :
  NoDup (sorted (elements (variables f)))
  ∧ Forall (λ v, is_variable v = true) (sorted (elements (variables f)))
  ∧ list_to_set (sorted (elements (variables f))) = variables f.
Proof.
  split_and!.
  - unfold sorted. rewrite merge_sort_Permutation. apply NoDup_elements.
  - apply Forall_forall. intros v Hv%sorted_elem%elem_of_elements.
    by eapply variables_are_variables.
  - apply set_eq. intros v.
    by rewrite elem_of_list_to_set, sorted_elem, elem_of_elements.
Qed.

(** The models the three classifiers run through. *)
Lemma classifier_models f :
  ∃ ms, all_models (sorted (elements (variables f))) = Some ms
        ∧ ms ≠ []
        ∧ ∀ m, m ∈ ms ↔ dom m = variables f.
Proof.
  destruct (sorted_variables_spec f) as (Hnd & Hvs & Hset).
  eexists. split; [by apply all_models_eq|]. split.
  - intros Hnil%(f_equal length).
    rewrite length_fmap, product_bool_length in Hnil. simpl in Hnil.
    pose proof (Nat.pow_nonzero 2 (length (sorted (elements (variables f))))).
    lia.
  - intros m. by rewrite all_models_elem, Hset.
Qed.

Lemma model_over_variables f m :
  dom m = variables f → is_model m = true.
Proof.
  intros Hdom. apply is_model_spec. intros v. rewrite Hdom.
  apply variables_are_variables.
Qed.

Lemma py_all_evaluate f (ms : list (gmap string bool)) :
  (∀ m, m ∈ ms → evaluate f m = Some (truth_value m f)) →
  py_all (truth_values f ms) = Some (forallb (λ m, truth_value m f) ms).
Proof.
  unfold truth_values. induction ms as [|m ms IH]; intros Hms; [done|].
  cbn [fmap list_fmap py_all forallb]. rewrite Hms by set_solver.
  destruct (truth_value m f); [|done]. apply IH. intros m' Hm'. apply Hms. set_solver.
Qed.

Lemma py_any_evaluate f (ms : list (gmap string bool)) :
  (∀ m, m ∈ ms → evaluate f m = Some (truth_value m f)) →
  py_any (truth_values f ms) = Some (existsb (λ m, truth_value m f) ms).
Proof.
  unfold truth_values. induction ms as [|m ms IH]; intros Hms; [done|].
  cbn [fmap list_fmap py_any existsb]. rewrite Hms by set_solver.
  destruct (truth_value m f); [done|]. apply IH. intros m' Hm'. apply Hms. set_solver.
Qed.

(** A model over exactly the variables of [f] that agrees with [m] on
    them. *)
Lemma restricted_model f m :
  variables f ⊆ dom m →
  ∃ m', dom m' = variables f ∧ ∀ v, v ∈ variables f → m' !! v = m !! v.
Proof.
  intros Hsub. destruct (sorted_variables_spec f) as (Hnd & _ & Hset).
  set (vs := sorted (elements (variables f))) in *.
  exists (dict_of_pairs (zip vs (model_values vs m))). split.
  - rewrite dict_zip_dom; [done|]. unfold model_values. by rewrite length_fmap.
  - intros v Hv. rewrite <-Hset, elem_of_list_to_set in Hv.
    apply list_elem_of_lookup in Hv as [j Hj].
    rewrite (dict_zip_lookup vs _ j) by (done || unfold model_values; by rewrite length_fmap).
    unfold model_values. rewrite list_lookup_fmap, Hj. simpl.
    symmetry. apply model_lookup, Hsub.
    rewrite <-Hset, elem_of_list_to_set. by eapply list_elem_of_lookup_2.
Qed.

Lemma is_tautology_forallb f :
  wf f = true →
  ∃ ms, ms ≠ [] ∧ (∀ m, m ∈ ms ↔ dom m = variables f)
        ∧ is_tautology f = Some (forallb (λ m, truth_value m f) ms)
        ∧ is_satisfiable f = Some (existsb (λ m, truth_value m f) ms)
        ∧ is_contradiction f = Some (negb (existsb (λ m, truth_value m f) ms)).
Proof.
  intros Hwf. destruct (classifier_models f) as (ms & Hms & Hne & Helem).
  exists ms. split; [done|]. split; [done|].
  assert (∀ m, m ∈ ms → evaluate f m = Some (truth_value m f)) as Hev.
  { intros m Hm%Helem. apply evaluate_truth_value; [done| |by rewrite Hm].
    by apply (model_over_variables f). }
  unfold is_tautology, is_satisfiable, is_contradiction. rewrite Hms.
  cbn [mbind option_bind]. by rewrite py_all_evaluate, py_any_evaluate.
Qed.

Lemma covering_truth f m :
  wf f = true → is_model m = true → variables f ⊆ dom m →
  ∃ m', dom m' = variables f ∧ evaluate f m = Some (truth_value m' f).
Proof.
  intros Hwf Hm Hsub.
  destruct (restricted_model f m Hsub) as (m' & Hdom & Hagree).
  exists m'. split; [done|].
  rewrite <-(evaluate_coincidence f m m'); try done.
  - apply evaluate_truth_value; [done| |by rewrite Hdom].
    by apply (model_over_variables f).
  - by apply (model_over_variables f).
Qed.

Lemma is_tautology_true f :
  wf f = true →
  is_tautology f = Some true
  ↔ ∀ m, is_model m = true → variables f ⊆ dom m → evaluate f m = Some true.
Proof.
  intros Hwf. destruct (is_tautology_forallb f Hwf) as (ms & _ & Helem & -> & _).
  split.
  - intros [= Hall] m Hm Hsub. rewrite forallb_forall in Hall.
    destruct (covering_truth f m Hwf Hm Hsub) as (m' & Hdom & ->).
    f_equal. apply Hall, list_elem_of_In, Helem, Hdom.
  - intros Hall. f_equal. apply forallb_forall.
    intros m Hm%list_elem_of_In%Helem.
    specialize (Hall m (model_over_variables f m Hm)).
    rewrite evaluate_truth_value in Hall
      by (done || by apply (model_over_variables f) || by rewrite Hm).
    injection Hall as ->; [done|by rewrite Hm].
Qed.

Lemma is_satisfiable_true f :
  wf f = true →
  is_satisfiable f = Some true
  ↔ ∃ m, is_model m = true ∧ variables f ⊆ dom m ∧ evaluate f m = Some true.
Proof.
  intros Hwf. destruct (is_tautology_forallb f Hwf) as (ms & _ & Helem & _ & -> & _).
  split.
  - intros [= (m & Hm%list_elem_of_In%Helem & Ht)%existsb_exists].
    exists m. split_and!; [by apply (model_over_variables f)|by rewrite Hm|].
    rewrite evaluate_truth_value
      by (done || by apply (model_over_variables f) || by rewrite Hm).
    by f_equal.
  - intros (m & Hm & Hsub & Hev). f_equal. apply existsb_exists.
    destruct (covering_truth f m Hwf Hm Hsub) as (m' & Hdom & Hev').
    exists m'. split; [by apply list_elem_of_In, Helem|]. congruence.
Qed.

Lemma is_contradiction_true f :
  wf f = true →
  is_contradiction f = Some true
  ↔ ∀ m, is_model m = true → variables f ⊆ dom m → evaluate f m = Some false.
Proof.
  intros Hwf. destruct (is_tautology_forallb f Hwf) as (ms & _ & Helem & _ & _ & ->).
  split.
  - intros [= Hnone%negb_true_iff] m Hm Hsub.
    destruct (covering_truth f m Hwf Hm Hsub) as (m' & Hdom & ->). f_equal.
    destruct (truth_value m' f) eqn:Ht; [|done].
    assert (existsb (λ m, truth_value m f) ms = true); [|congruence].
    apply existsb_exists. exists m'. split; [by apply list_elem_of_In, Helem|done].
  - intros Hall. f_equal. apply negb_true_iff, not_true_iff_false.
    intros (m & Hm%list_elem_of_In%Helem & Ht)%existsb_exists.
    specialize (Hall m (model_over_variables f m Hm)).
    rewrite evaluate_truth_value in Hall
      by (done || by apply (model_over_variables f) || by rewrite Hm).
    assert (Some (truth_value m f) = Some false) as [= Hf]
      by (apply Hall; by rewrite Hm).
    congruence.
Qed.

Lemma classify_negation f :
  wf f = true →
  ∃ t s, is_tautology f = Some t ∧ is_satisfiable f = Some s
         ∧ is_contradiction f = Some (negb s)
         ∧ (t = true → s = true)
         ∧ is_tautology (Unary "~" f) = Some (negb s)
         ∧ is_satisfiable (Unary "~" f) = Some (negb t)
         ∧ is_contradiction (Unary "~" f) = Some t.
Proof.
  intros Hwf.
  destruct (is_tautology_forallb f Hwf) as (ms & Hne & Helem & Ht & Hs & Hc).
  assert (wf (Unary "~" f) = true) as Hwn by (by simpl).
  destruct (is_tautology_forallb _ Hwn) as (ms' & _ & Helem' & Ht' & Hs' & Hc').
  do 2 eexists. split; [exact Ht|]. split; [exact Hs|]. split; [exact Hc|].
  assert (∀ (p : gmap string bool → bool),
            forallb p ms' = forallb p ms ∧ existsb p ms' = existsb p ms) as Hsame.
  { intros p. split.
    - apply eq_true_iff_eq. rewrite !forallb_forall.
      setoid_rewrite <-list_elem_of_In. setoid_rewrite Helem.
      by setoid_rewrite Helem'.
    - apply eq_true_iff_eq. rewrite !existsb_exists.
      setoid_rewrite <-list_elem_of_In. setoid_rewrite Helem.
      by setoid_rewrite Helem'. }
  split_and!.
  - rewrite forallb_forall. intros Hall. apply existsb_exists.
    destruct ms as [|m ms]; [done|]. exists m. split; [by left|].
    apply Hall. by left.
  - rewrite Ht'. f_equal. rewrite (proj1 (Hsame _)). cbn [truth_value].
    clear. induction ms as [|m ms IH]; [done|]. simpl. rewrite IH.
    by destruct (truth_value m f).
  - rewrite Hs'. f_equal. rewrite (proj2 (Hsame _)). cbn [truth_value].
    clear. induction ms as [|m ms IH]; [done|]. simpl. rewrite IH.
    by destruct (truth_value m f).
  - rewrite Hc'. f_equal. rewrite (proj2 (Hsame _)). cbn [truth_value].
    clear. induction ms as [|m ms IH]; [done|]. simpl. rewrite <-IH.
    by destruct (truth_value m f).
Qed.
End classification.

(** X13: what the three classifiers decide. For a constructed formula,
    [is_tautology] is [True] exactly when the formula evaluates to [True]
    in every model that covers its variables, [is_satisfiable] exactly
    when it evaluates to [True] in some such model, and
    [is_contradiction] exactly when it evaluates to [False] in every
    such model; running through the models over the formula's own
    variables decides all three. *)
Theorem classifiers_decide_all_models f :
  constructed f →
  (is_tautology f = Some true
   ↔ ∀ m, is_model m = true → variables f ⊆ dom m → evaluate f m = Some true)
  ∧ (is_satisfiable f = Some true
     ↔ ∃ m, is_model m = true ∧ variables f ⊆ dom m ∧ evaluate f m = Some true)
  ∧ (is_contradiction f = Some true
     ↔ ∀ m, is_model m = true → variables f ⊆ dom m → evaluate f m = Some false).
Proof.
  intros Hf%constructed_wf. split_and!;
    [by apply is_tautology_true|by apply is_satisfiable_true
    |by apply is_contradiction_true].
Qed.

Lemma classifiers_decide_all_models_witness :
  evaluate (Binary "|" (Leaf "p") (Unary "~" (Leaf "p")))
    (dict_of_pairs [("p", false); ("x7", true)]) = Some true.
Proof.
  refine (proj1 (proj1 (classifiers_decide_all_models
                          (Binary "|" (Leaf "p") (Unary "~" (Leaf "p"))) _)) _ _ _ _).
  - apply constructed_wf. reflexivity.
  - vm_compute. reflexivity.
  - vm_compute. reflexivity.
  - apply (bool_decide_unpack _). vm_compute. exact I.
Defined.

(** X14: the three classifiers return on every constructed formula and
    agree with each other: a contradiction is exactly an unsatisfiable
    formula, a tautology is satisfiable, and classifying the negation
    swaps the answers: [~f] is a tautology exactly when [f] is a
    contradiction, and [~f] is satisfiable exactly when [f] is not a
    tautology. *)
Theorem classifiers_consistent f :
  constructed f →
  ∃ t s, is_tautology f = Some t ∧ is_satisfiable f = Some s
         ∧ is_contradiction f = Some (negb s)
         ∧ (t = true → s = true)
         ∧ is_tautology (Unary "~" f) = Some (negb s)
         ∧ is_satisfiable (Unary "~" f) = Some (negb t)
         ∧ is_contradiction (Unary "~" f) = Some t.
Proof. intros Hf%constructed_wf. by apply classify_negation. Qed.

Lemma classifiers_consistent_witness :
  ∃ t s, is_tautology (Binary "->" (Leaf "p") (Leaf "q")) = Some t
         ∧ is_satisfiable (Binary "->" (Leaf "p") (Leaf "q")) = Some s
         ∧ is_contradiction (Binary "->" (Leaf "p") (Leaf "q")) = Some (negb s)
         ∧ (t = true → s = true)
         ∧ is_tautology (Unary "~" (Binary "->" (Leaf "p") (Leaf "q")))
           = Some (negb s)
         ∧ is_satisfiable (Unary "~" (Binary "->" (Leaf "p") (Leaf "q")))
           = Some (negb t)
         ∧ is_contradiction (Unary "~" (Binary "->" (Leaf "p") (Leaf "q")))
           = Some t.
Proof.
  apply (classifiers_consistent (Binary "->" (Leaf "p") (Leaf "q"))).
  apply constructed_wf. reflexivity.
Defined.


(** * More on the models and on synthesis *)

Section repeated_names.
Implicit Types (vs : list string) (t : list bool) (m : gmap string bool).

(** In a dictionary built from pairs, the last pair with a key gives its
    value. *)
Lemma dict_of_pairs_lookup_last {V} (l : list (string * V)) i k v :
  l !! i = Some (k, v) →
  (∀ i' v', i < i' → l !! i' ≠ Some (k, v')) →
  dict_of_pairs l !! k = Some v.
Proof.
  revert i. induction l as [|[k' v'] l IH] using rev_ind; intros i Hi Hlast; [done|].
  rewrite dict_of_pairs_snoc.
  apply lookup_app_Some in Hi as [Hi|[Hlen Hi]].
  - destruct (decide (k' = k)) as [->|Hne].
    + exfalso. apply (Hlast (length l) v').
      * by eapply lookup_lt_Some.
      * by rewrite lookup_app_r, Nat.sub_diag by lia.
    + rewrite lookup_insert_ne by done. apply (IH i); [done|].
      intros i' v'' Hlt Hi'. apply (Hlast i' v'' Hlt).
      by apply lookup_app_l_Some.
  - destruct (i - length l) as [|?] eqn:E; [|done]. simplify_eq/=.
    by rewrite lookup_insert_eq.
Qed.

Lemma all_models_member_dom vs m :
  m ∈ (λ t, dict_of_pairs (zip vs t)) <$> product [false; true] (length vs) →
  dom m = list_to_set vs.
Proof.
  intros (t & -> & Ht%product_bool_tuple_length)%list_elem_of_fmap.
  by apply dict_zip_dom.
Qed.

Lemma dict_zip_lookup_last vs t j v :
  length vs = length t → vs !! j = Some v →
  (∀ j', j < j' → vs !! j' ≠ Some v) →
  dict_of_pairs (zip vs t) !! v = t !! j.
Proof.
  intros Hlen Hv Hlast.
  destruct (t !! j) as [b|] eqn:Hb.
  - apply (dict_of_pairs_lookup_last _ j).
    + rewrite lookup_zip_with. by rewrite Hv, Hb.
    + intros j' b' Hlt Hj'. rewrite lookup_zip_with in Hj'.
      destruct (vs !! j') as [v'|] eqn:Hv'; [|done]. simpl in Hj'.
      destruct (t !! j'); [|done]. simpl in Hj'. simplify_eq.
      by apply (Hlast j' Hlt).
  - apply lookup_ge_None in Hb. apply lookup_lt_Some in Hv. lia.
Qed.

Lemma all_models_None vs :
  ¬ Forall (λ v, is_variable v = true) vs → all_models vs = None.
Proof.
  intros Hbad. unfold all_models.
  destruct (forallb is_variable vs) eqn:E; [|done].
  exfalso. apply Hbad, Forall_forall. intros v Hv%list_elem_of_In.
  by apply (proj1 (forallb_forall _ _) E).
Qed.
End repeated_names.

(** X15: [all_models] on any list of variable names, repeated or not,
    yields [2 ^ |vs|] models over the names of the list; in the model at
    position [i] a name has the bit of weight [|vs| - 1 - j] of [i], where
    [j] is the position of its last occurrence in the list. On a list
    with an element that is not a variable name it fails its assertion. *)
Theorem all_models_last_occurrence vs :
  (Forall (λ v, is_variable v = true) vs →
   ∃ ms, all_models vs = Some ms
     ∧ length ms = 2 ^ length vs
     ∧ (∀ m, m ∈ ms → dom m = list_to_set vs)
     ∧ ∀ i m j v, ms !! i = Some m → vs !! j = Some v →
         (∀ j', j < j' → vs !! j' ≠ Some v) →
         m !! v = Some (Nat.testbit i (length vs - 1 - j)))
  ∧ (¬ Forall (λ v, is_variable v = true) vs → all_models vs = None).
Proof.
  split; [|apply all_models_None].
  intros Hvs. eexists. split; [by apply all_models_eq|]. split_and!.
  - by rewrite length_fmap, product_bool_length.
  - apply all_models_member_dom.
  - intros i m j v (t & -> & Hlen & Ht)%all_models_lookup Hv Hlast.
    rewrite (dict_zip_lookup_last vs t j) by done.
    apply product_bool_lookup; [done|]. by eapply lookup_lt_Some.
Qed.

Lemma all_models_last_occurrence_witness :
  ∃ ms, all_models ["p"; "q"; "p"] = Some ms
     ∧ length ms = 2 ^ length ["p"; "q"; "p"]
     ∧ (∀ m, m ∈ ms → dom m = list_to_set ["p"; "q"; "p"])
     ∧ ∀ i m j v, ms !! i = Some m → ["p"; "q"; "p"] !! j = Some v →
         (∀ j', j < j' → ["p"; "q"; "p"] !! j' ≠ Some v) →
         m !! v = Some (Nat.testbit i (length ["p"; "q"; "p"] - 1 - j)).
Proof.
  apply (proj1 (all_models_last_occurrence ["p"; "q"; "p"])).
  repeat constructor.
Defined.


(** * More on synthesis *)

Section synthesis_shape.
Implicit Types (f g c : Formula) (m : gmap string bool) (vs : list string).

Lemma is_chain_item op item f : item f = true → is_chain op item f = true.
Proof. intros H. destruct f; simpl; by rewrite H. Qed.

Lemma is_chain_foldl op item acc items :
  is_chain op item acc = true → Forall (λ x, item x = true) items →
  is_chain op item (foldl (Binary op) acc items) = true.
Proof.
  revert acc. induction items as [|x items IH]; intros acc Hacc Hitems; [done|].
  apply Forall_cons in Hitems as [Hx Hitems]. simpl foldl. apply IH; [|done].
  cbn [is_chain]. rewrite String.eqb_refl, Hacc, Hx. apply orb_true_r.
Qed.

Lemma chain_is_chain op item items f :
  chain op items = Some f → Forall (λ x, item x = true) items →
  is_chain op item f = true.
Proof.
  destruct items as [|x items]; [done|]. intros [= <-] [Hx Hitems]%Forall_cons.
  apply is_chain_foldl; [|done]. by apply is_chain_item.
Qed.

Lemma literal_is_literal positive m v :
  is_variable v = true → is_literal (literal positive m v) = true.
Proof.
  intros Hv. unfold literal. destruct (Bool.eqb _ _); simpl; by rewrite Hv.
Qed.

Lemma literals_are_literals positive m :
  is_model m = true →
  Forall (λ x, is_literal x = true) (literal positive m <$> sorted (elements (dom m))).
Proof.
  intros Hm. apply Forall_forall.
  intros x (v & -> & Hv%sorted_keys_elem)%list_elem_of_fmap.
  apply literal_is_literal. by apply (proj1 (is_model_spec m) Hm).
Qed.

Lemma synthesize_for_model_shape m c :
  _synthesize_for_model m = Some c → is_chain "&" is_literal c = true.
Proof.
  unfold _synthesize_for_model. destruct (is_model m) eqn:Hm; [|done].
  destruct (bool_decide _); [|done]. cbn [negb].
  rewrite synthesize_for_model_literals. intros Hc.
  eapply chain_is_chain; [exact Hc|]. by apply literals_are_literals.
Qed.

Lemma synthesize_for_all_except_model_shape m c :
  _synthesize_for_all_except_model m = Some c → is_chain "|" is_literal c = true.
Proof.
  unfold _synthesize_for_all_except_model. destruct (is_model m) eqn:Hm; [|done].
  destruct (bool_decide _); [|done]. cbn [negb].
  rewrite synthesize_for_all_except_model_literals. intros Hc.
  eapply chain_is_chain; [exact Hc|]. by apply literals_are_literals.
Qed.

Lemma synthesize_for_model_is_Some m :
  is_Some (_synthesize_for_model m) ↔ is_model m = true ∧ dom m ≠ ∅.
Proof.
  split.
  - intros [c Hc]. unfold _synthesize_for_model in Hc.
    destruct (is_model m); [|done]. split; [done|].
    destruct (bool_decide (0 < size (dom m))) eqn:E; [|done].
    apply bool_decide_eq_true_1 in E. intros Hdom. rewrite Hdom, size_empty in E. lia.
  - intros [Hm Hd]. destruct (synthesize_for_model_spec m Hm Hd) as (c & -> & _). eauto.
Qed.

Lemma synthesize_for_all_except_model_is_Some m :
  is_Some (_synthesize_for_all_except_model m) ↔ is_model m = true ∧ dom m ≠ ∅.
Proof.
  split.
  - intros [c Hc]. unfold _synthesize_for_all_except_model in Hc.
    destruct (is_model m); [|done]. split; [done|].
    destruct (bool_decide (0 < size (dom m))) eqn:E; [|done].
    apply bool_decide_eq_true_1 in E. intros Hdom. rewrite Hdom, size_empty in E. lia.
  - intros [Hm Hd].
    destruct (synthesize_for_all_except_model_spec m Hm Hd) as (c & -> & _). eauto.
Qed.

(** A dictionary over a nonempty list of variable names is a model with
    at least one variable. *)
Lemma model_of_names vs m :
  vs ≠ [] → Forall (λ v, is_variable v = true) vs →
  dom m = list_to_set vs → is_model m = true ∧ dom m ≠ ∅.
Proof.
  intros Hne Hvs Hdom. split.
  - apply is_model_spec. intros v. rewrite Hdom, elem_of_list_to_set.
    apply (proj1 (Forall_forall _ _) Hvs).
  - rewrite Hdom. destruct vs as [|v vs]; [done|]. set_solver.
Qed.

Lemma selected_models_member select vs values m :
  vs ≠ [] → Forall (λ v, is_variable v = true) vs →
  m ∈ selected_models select
        ((λ t, dict_of_pairs (zip vs t)) <$> product [false; true] (length vs))
        values →
  dom m = list_to_set vs ∧ is_model m = true ∧ dom m ≠ ∅.
Proof.
  intros Hne Hvs (i & b & Hi & _)%selected_models_elem.
  assert (dom m = list_to_set vs) as Hdom.
  { apply all_models_member_dom. by eapply list_elem_of_lookup_2. }
  split; [done|]. by apply (model_of_names vs).
Qed.

Lemma synthesize_shape vs values :
  vs ≠ [] → Forall (λ v, is_variable v = true) vs →
  ∃ f, synthesize vs values = Some f ∧ is_dnf f = true
       ∧ variables f ⊆ list_to_set vs.
Proof.
  intros Hne Hvs. unfold synthesize.
  rewrite length_pos_decide, all_models_eq by done. cbn [negb mbind option_bind].
  set (ms := (λ t, dict_of_pairs (zip vs t)) <$> product [false; true] (length vs)).
  set (sel := selected_models id ms values).
  assert (∀ m, m ∈ sel →
    ∃ c, _synthesize_for_model m = Some c ∧ is_chain "&" is_literal c = true
         ∧ variables c = list_to_set vs) as Hsel.
  { intros m (Hdom & Hm & Hd)%selected_models_member; [|done..].
    destruct (synthesize_for_model_spec m Hm Hd) as (c & Hc & _ & Hv & _).
    exists c. rewrite <-Hdom. split_and!; [done| |done].
    by eapply synthesize_for_model_shape. }
  rewrite (mapM_default _ (Leaf "") sel) by (intros m (c & -> & _)%Hsel; eauto).
  cbn [mbind option_bind].
  destruct sel as [|m0 sel'] eqn:Esel.
  - destruct vs as [|v vs']; [done|]. cbn [fmap list_fmap head mbind option_bind].
    apply Forall_cons in Hvs as [Hv _].
    eexists. split; [done|]. split.
    + unfold is_dnf. simpl. by rewrite Hv.
    + simpl. rewrite Hv. set_solver.
  - destruct (chain_Some "|" ((λ x, default (Leaf "") (_synthesize_for_model x))
                                <$> m0 :: sel')) as [f Hf]; [done|].
    exists f. split; [exact Hf|]. split.
    + eapply chain_is_chain; [exact Hf|]. apply Forall_forall.
      intros x (m & -> & (c & -> & Hc & _)%Hsel)%list_elem_of_fmap. done.
    + intros v. rewrite (chain_variables _ _ _ _ Hf).
      intros (x & (m & -> & (c & -> & _ & Hv)%Hsel)%list_elem_of_fmap & Hx).
      simpl in Hx. by rewrite Hv in Hx.
Qed.

Lemma synthesize_cnf_shape vs values :
  vs ≠ [] → Forall (λ v, is_variable v = true) vs →
  ∃ g, synthesize_cnf vs values = Some g ∧ is_cnf g = true
       ∧ variables g ⊆ list_to_set vs.
Proof.
  intros Hne Hvs. unfold synthesize_cnf.
  rewrite length_pos_decide, all_models_eq by done. cbn [negb mbind option_bind].
  set (ms := (λ t, dict_of_pairs (zip vs t)) <$> product [false; true] (length vs)).
  set (sel := selected_models negb ms values).
  assert (∀ m, m ∈ sel →
    ∃ c, _synthesize_for_all_except_model m = Some c
         ∧ is_chain "|" is_literal c = true
         ∧ variables c = list_to_set vs) as Hsel.
  { intros m (Hdom & Hm & Hd)%selected_models_member; [|done..].
    destruct (synthesize_for_all_except_model_spec m Hm Hd) as (c & Hc & _ & Hv & _).
    exists c. rewrite <-Hdom. split_and!; [done| |done].
    by eapply synthesize_for_all_except_model_shape. }
  rewrite (mapM_default _ (Leaf "") sel) by (intros m (c & -> & _)%Hsel; eauto).
  cbn [mbind option_bind].
  destruct sel as [|m0 sel'] eqn:Esel.
  - destruct vs as [|v vs']; [done|]. cbn [fmap list_fmap head mbind option_bind].
    apply Forall_cons in Hvs as [Hv _].
    eexists. split; [done|]. split.
    + unfold is_cnf. simpl. by rewrite Hv.
    + simpl. rewrite Hv. set_solver.
  - destruct (chain_Some "&" ((λ x, default (Leaf "") (_synthesize_for_all_except_model x))
                                <$> m0 :: sel')) as [g Hg]; [done|].
    exists g. split; [exact Hg|]. split.
    + eapply chain_is_chain; [exact Hg|]. apply Forall_forall.
      intros x (m & -> & (c & -> & Hc & _)%Hsel)%list_elem_of_fmap. done.
    + intros v. rewrite (chain_variables _ _ _ _ Hg).
      intros (x & (m & -> & (c & -> & _ & Hv)%Hsel)%list_elem_of_fmap & Hx).
      simpl in Hx. by rewrite Hv in Hx.
Qed.

Lemma synthesize_is_Some vs values :
  is_Some (synthesize vs values)
  ↔ vs ≠ [] ∧ Forall (λ v, is_variable v = true) vs.
Proof.
  split.
  - intros [f Hf]. unfold synthesize in Hf.
    destruct vs as [|v vs]; [done|]. split; [done|].
    destruct (decide (Forall (λ v, is_variable v = true) (v :: vs))) as [|Hbad];
      [done|].
    rewrite (all_models_None _ Hbad) in Hf. by destruct (negb _).
  - intros [Hne Hvs]. destruct (synthesize_shape vs values Hne Hvs) as (f & -> & _).
    eauto.
Qed.

Lemma synthesize_cnf_is_Some vs values :
  is_Some (synthesize_cnf vs values)
  ↔ vs ≠ [] ∧ Forall (λ v, is_variable v = true) vs.
Proof.
  split.
  - intros [f Hf]. unfold synthesize_cnf in Hf.
    destruct vs as [|v vs]; [done|]. split; [done|].
    destruct (decide (Forall (λ v, is_variable v = true) (v :: vs))) as [|Hbad];
      [done|].
    rewrite (all_models_None _ Hbad) in Hf. by destruct (negb _).
  - intros [Hne Hvs]. destruct (synthesize_cnf_shape vs values Hne Hvs) as (f & -> & _).
    eauto.
Qed.

(** With distinct variables, the model at a position is selected exactly
    when there is a value at that position and it selects the model. *)
Lemma selected_models_at select vs values j m :
  NoDup vs →
  ((λ t, dict_of_pairs (zip vs t)) <$> product [false; true] (length vs)) !! j
  = Some m →
  m ∈ selected_models select
        ((λ t, dict_of_pairs (zip vs t)) <$> product [false; true] (length vs))
        values
  ↔ ∃ b, values !! j = Some b ∧ select b = true.
Proof.
  intros Hnd Hj. rewrite selected_models_elem. split.
  - intros (i & b & Hi & Hb & Hs).
    assert (i = j) as ->.
    { eapply NoDup_lookup; [by apply all_models_NoDup|done..]. }
    eauto.
  - intros (b & Hb & Hs). eauto.
Qed.
End synthesis_shape.

(** X16: the clause that [_synthesize_for_model] builds for a model with
    at least one variable is a constructed conjunction of literals over
    the variables of the model, true in that model and false in every
    other model over the same variables; the clause of
    [_synthesize_for_all_except_model] is a disjunction of literals, false
    in that model and true in every other. *)
Theorem synthesized_clauses_single_out_model m :
  is_model m = true → dom m ≠ ∅ →
  ∃ c d,
    _synthesize_for_model m = Some c
    ∧ _synthesize_for_all_except_model m = Some d
    ∧ constructed c ∧ constructed d
    ∧ is_chain "&" is_literal c = true ∧ is_chain "|" is_literal d = true
    ∧ variables c = dom m ∧ variables d = dom m
    ∧ ∀ m', dom m' = dom m →
        evaluate c m' = Some (bool_decide (m' = m))
        ∧ evaluate d m' = Some (bool_decide (m' ≠ m)).
Proof.
  intros Hm Hd.
  destruct (synthesize_for_model_spec m Hm Hd) as (c & Hc & Hwc & Hvc & Htc).
  destruct (synthesize_for_all_except_model_spec m Hm Hd)
    as (d & Hdd & Hwd & Hvd & Htd).
  exists c, d. split_and!; try done.
  - by apply constructed_wf.
  - by apply constructed_wf.
  - by eapply synthesize_for_model_shape.
  - by eapply synthesize_for_all_except_model_shape.
  - intros m' Hdom.
    assert (is_model m' = true) as Hm'.
    { apply is_model_spec. intros v. rewrite Hdom.
      by apply (proj1 (is_model_spec m) Hm). }
    rewrite !evaluate_truth_value by (done || by rewrite ?Hvc, ?Hvd, Hdom).
    specialize (Htc m' Hdom). specialize (Htd m' Hdom). split; f_equal.
    + destruct (truth_value m' c).
      * symmetry. apply bool_decide_eq_true_2. by apply Htc.
      * symmetry. apply bool_decide_eq_false_2. intros Heq%Htc. done.
    + destruct (truth_value m' d) eqn:E.
      * symmetry. apply bool_decide_eq_true_2. intros Heq%Htd. congruence.
      * symmetry. apply bool_decide_eq_false_2. intros Hneq. by apply Hneq, Htd.
Qed.

Lemma synthesized_clauses_single_out_model_witness :
  ∃ c d,
    _synthesize_for_model {[ "p" := true ]} = Some c
    ∧ _synthesize_for_all_except_model {[ "p" := true ]} = Some d
    ∧ constructed c ∧ constructed d
    ∧ is_chain "&" is_literal c = true ∧ is_chain "|" is_literal d = true
    ∧ variables c = dom ({[ "p" := true ]} : gmap string bool)
    ∧ variables d = dom ({[ "p" := true ]} : gmap string bool)
    ∧ ∀ m', dom m' = dom ({[ "p" := true ]} : gmap string bool) →
        evaluate c m' = Some (bool_decide (m' = {[ "p" := true ]}))
        ∧ evaluate d m' = Some (bool_decide (m' ≠ {[ "p" := true ]})).
Proof.
  apply (synthesized_clauses_single_out_model {[ "p" := true ]}).
  - reflexivity.
  - apply (bool_decide_unpack _). vm_compute. exact I.
Defined.

(** X17: for a nonempty list of distinct variable names and a list of
    values of any length, [zip] pairs the models with the values up to
    the shorter of the two: the formula of [synthesize] has, in the model
    at a position, the value at that position, and [False] past the end
    of the values; the formula of [synthesize_cnf] has [True] past the
    end. Values past the last model are ignored. *)
Theorem synthesize_values_of_any_length vs values :
  vs ≠ [] → NoDup vs → Forall (λ v, is_variable v = true) vs →
  ∃ ms f g,
    all_models vs = Some ms
    ∧ synthesize vs values = Some f ∧ synthesize_cnf vs values = Some g
    ∧ (∀ j m, ms !! j = Some m →
         evaluate f m = Some (default false (values !! j))
         ∧ evaluate g m = Some (default true (values !! j)))
    ∧ synthesize vs (take (length ms) values) = Some f
    ∧ synthesize_cnf vs (take (length ms) values) = Some g.
Proof.
  intros Hne Hnd Hvs.
  destruct (synthesize_spec vs values Hne Hnd Hvs) as (f & Hf & Hwf & Hfv & Hft).
  destruct (synthesize_cnf_spec vs values Hne Hnd Hvs) as (g & Hg & Hwg & Hgv & Hgt).
  exists ((λ t, dict_of_pairs (zip vs t)) <$> product [false; true] (length vs)), f, g.
  split; [by apply all_models_eq|]. split; [done|]. split; [done|].
  set (ms := (λ t, dict_of_pairs (zip vs t)) <$> product [false; true] (length vs)) in *.
  split_and!.
  - intros j m Hj.
    assert (dom m = list_to_set vs) as Hdom.
    { apply all_models_member_dom. by eapply list_elem_of_lookup_2. }
    destruct (model_of_names vs m) as [Hm _]; [done..|].
    rewrite !evaluate_truth_value by (done || by rewrite Hdom).
    specialize (Hft m Hdom). specialize (Hgt m Hdom). unfold ms in Hft, Hgt.
    rewrite (selected_models_at id vs values j m) in Hft by done.
    rewrite (selected_models_at negb vs values j m) in Hgt by done.
    split; f_equal.
    + destruct (truth_value m f).
      * destruct (proj1 Hft eq_refl) as (b & -> & Hb). by simpl in *.
      * destruct (values !! j) as [[]|]; [|done..].
        exfalso. assert (false = true); [|done]. apply Hft. by exists true.
    + destruct (truth_value m g).
      * destruct (values !! j) as [[]|]; [done| |done].
        exfalso. assert (true = false); [|done]. apply Hgt. by exists false.
      * destruct (proj1 Hgt eq_refl) as (b & -> & Hb). by destruct b.
  - rewrite <-Hf. unfold synthesize.
    rewrite length_pos_decide, all_models_eq by done. cbn [negb mbind option_bind].
    fold ms. unfold selected_models. by rewrite zip_with_take_r.
  - rewrite <-Hg. unfold synthesize_cnf.
    rewrite length_pos_decide, all_models_eq by done. cbn [negb mbind option_bind].
    fold ms. unfold selected_models. by rewrite zip_with_take_r.
Qed.

Lemma synthesize_values_of_any_length_witness :
  ∃ ms f g,
    all_models ["p"; "q"] = Some ms
    ∧ synthesize ["p"; "q"] [false; true] = Some f
    ∧ synthesize_cnf ["p"; "q"] [false; true] = Some g
    ∧ (∀ j m, ms !! j = Some m →
         evaluate f m = Some (default false ([false; true] !! j))
         ∧ evaluate g m = Some (default true ([false; true] !! j)))
    ∧ synthesize ["p"; "q"] (take (length ms) [false; true]) = Some f
    ∧ synthesize_cnf ["p"; "q"] (take (length ms) [false; true]) = Some g.
Proof.
  apply (synthesize_values_of_any_length ["p"; "q"] [false; true]).
  - discriminate.
  - apply (bool_decide_unpack _). vm_compute. exact I.
  - repeat constructor.
Defined.

(** X18: for a nonempty list of variable names, repeated or not, and any
    list of values, [synthesize] returns a formula in disjunctive normal
    form and [synthesize_cnf] one in conjunctive normal form, both over
    variables of the list only. *)
Theorem synthesize_normal_forms vs values :
  vs ≠ [] → Forall (λ v, is_variable v = true) vs →
  ∃ f g,
    synthesize vs values = Some f ∧ synthesize_cnf vs values = Some g
    ∧ is_dnf f = true ∧ is_cnf g = true
    ∧ variables f ⊆ list_to_set vs ∧ variables g ⊆ list_to_set vs.
Proof.
  intros Hne Hvs.
  destruct (synthesize_shape vs values Hne Hvs) as (f & Hf & Hdnf & Hfv).
  destruct (synthesize_cnf_shape vs values Hne Hvs) as (g & Hg & Hcnf & Hgv).
  by exists f, g.
Qed.

Lemma synthesize_normal_forms_witness :
  ∃ f g,
    synthesize ["p"; "q"] [true; false; false; true] = Some f
    ∧ synthesize_cnf ["p"; "q"] [true; false; false; true] = Some g
    ∧ is_dnf f = true ∧ is_cnf g = true
    ∧ variables f ⊆ list_to_set ["p"; "q"]
    ∧ variables g ⊆ list_to_set ["p"; "q"].
Proof.
  apply (synthesize_normal_forms ["p"; "q"] [true; false; false; true]).
  - discriminate.
  - repeat constructor.
Defined.

(** X19: the assertions of the synthesis functions. A clause is built
    exactly for a model with at least one variable; [synthesize] and
    [synthesize_cnf] return a formula exactly when the list of variables
    is nonempty and holds variable names only, whatever the values. *)
Theorem synthesis_defined_iff m vs values :
  (is_Some (_synthesize_for_model m) ↔ is_model m = true ∧ dom m ≠ ∅)
  ∧ (is_Some (_synthesize_for_all_except_model m)
     ↔ is_model m = true ∧ dom m ≠ ∅)
  ∧ (is_Some (synthesize vs values)
     ↔ vs ≠ [] ∧ Forall (λ v, is_variable v = true) vs)
  ∧ (is_Some (synthesize_cnf vs values)
     ↔ vs ≠ [] ∧ Forall (λ v, is_variable v = true) vs).
Proof.
  split_and!.
  - apply synthesize_for_model_is_Some.
  - apply synthesize_for_all_except_model_is_Some.
  - apply synthesize_is_Some.
  - apply synthesize_cnf_is_Some.
Qed.


(** * More on the operator bases *)

Section classification_by_truth.
Implicit Types (f g : Formula) (m : gmap string bool).

(** Any dictionary agrees, on the variables of a formula, with a model
    over exactly these variables. *)
Lemma model_of_formula f m :
  ∃ m', dom m' = variables f
        ∧ ∀ v, v ∈ variables f → model_value m' v = model_value m v.
Proof.
  destruct (sorted_variables_spec f) as (Hnd & _ & Hset).
  set (vs := sorted (elements (variables f))) in *.
  exists (dict_of_pairs (zip vs (model_values vs m))). split.
  - rewrite dict_zip_dom; [done|]. unfold model_values. by rewrite length_fmap.
  - intros v Hv. rewrite <-Hset, elem_of_list_to_set in Hv.
    apply list_elem_of_lookup in Hv as [j Hj]. unfold model_value at 1.
    rewrite (dict_zip_lookup vs _ j)
      by (done || unfold model_values; by rewrite length_fmap).
    unfold model_values. by rewrite list_lookup_fmap, Hj.
Qed.

Lemma is_tautology_truth f :
  wf f = true →
  ∃ t s, is_tautology f = Some t ∧ is_satisfiable f = Some s
         ∧ is_contradiction f = Some (negb s)
         ∧ (t = true ↔ ∀ m, truth_value m f = true)
         ∧ (s = true ↔ ∃ m, truth_value m f = true).
Proof.
  intros Hwf. destruct (is_tautology_forallb f Hwf) as (ms & _ & Helem & Ht & Hs & Hc).
  eexists _, _. split; [exact Ht|]. split; [exact Hs|]. split; [exact Hc|]. split.
  - rewrite forallb_forall. split.
    + intros Hall m. destruct (model_of_formula f m) as (m' & Hdom & Hagree).
      rewrite <-(truth_value_coincidence f m' m) by done.
      by apply Hall, list_elem_of_In, Helem.
    + intros Hall m _. apply Hall.
  - rewrite existsb_exists. split.
    + intros (m & _ & Hm). by exists m.
    + intros (m & Hm). destruct (model_of_formula f m) as (m' & Hdom & Hagree).
      exists m'. split; [by apply list_elem_of_In, Helem|].
      by rewrite (truth_value_coincidence f m' m).
Qed.

Lemma classifiers_ext f g :
  wf f = true → wf g = true →
  (∀ m, truth_value m g = truth_value m f) →
  is_tautology g = is_tautology f
  ∧ is_satisfiable g = is_satisfiable f
  ∧ is_contradiction g = is_contradiction f.
Proof.
  intros Hf Hg Heq.
  destruct (is_tautology_truth f Hf) as (t & s & -> & -> & -> & Ht & Hs).
  destruct (is_tautology_truth g Hg) as (t' & s' & -> & -> & -> & Ht' & Hs').
  assert (t' = t) as ->.
  { apply eq_true_iff_eq. rewrite Ht, Ht'. by setoid_rewrite Heq. }
  assert (s' = s) as ->.
  { apply eq_true_iff_eq. rewrite Hs, Hs'. by setoid_rewrite Heq. }
  done.
Qed.

Lemma equivalence_tautology f g :
  wf f = true → wf g = true →
  is_tautology (Binary "<->" f g) = Some true
  ↔ ∀ m, truth_value m f = truth_value m g.
Proof.
  intros Hf Hg.
  assert (wf (Binary "<->" f g) = true) as Hwf by (simpl; by rewrite Hf, Hg).
  destruct (is_tautology_truth _ Hwf) as (t & s & -> & _ & _ & Ht & _).
  split.
  - intros [= Heq] m. apply eqb_prop. by apply (proj1 Ht Heq m).
  - intros Hall. f_equal. apply Ht. intros m. simpl. rewrite Hall.
    apply eqb_reflx.
Qed.
End classification_by_truth.

Section own_basis.
Implicit Types (f g : Formula).

Lemma to_not_and_or_own_basis f :
  wf f = true → operators f ⊆ {[ "~"; "&"; "|" ]} → to_not_and_or f = Some f.
Proof.
  induction f as [r|r a IHa|r a IHa b IHb]; intros Hwf Hops; simpl in *.
  - destruct (is_variable r) eqn:Hv; [done|]. simpl in Hwf.
    apply is_constant_cases in Hwf as [->| ->]; exfalso;
      (assert (H : ∀ x : string, x ∈ ({[ "~"; "&"; "|" ]} : gset string) →
                  x = "~" ∨ x = "&" ∨ x = "|") by (clear; set_solver));
      [destruct (H "T") as [?|[?|?]]|destruct (H "F") as [?|[?|?]]];
      try discriminate; apply Hops; clear; set_solver.
  - apply andb_true_iff in Hwf as [Hr Hwa]. apply is_unary_eq in Hr as ->.
    rewrite IHa; [done|done|]. clear -Hops. set_solver.
  - apply andb_true_iff in Hwf as [Hwf Hwb].
    apply andb_true_iff in Hwf as [Hr Hwa].
    rewrite IHa, IHb; [|done|clear -Hops; set_solver|done|clear -Hops; set_solver].
    cbn [mbind option_bind].
    assert (r = "&" ∨ r = "|") as [->| ->]; [|done..].
    assert (r ∈ ({[ "~"; "&"; "|" ]} : gset string)) as Hin
      by (apply Hops; clear; set_solver).
    assert (r ≠ "~").
    { intros ->. by vm_compute in Hr. }
    clear -Hin H. set_solver.
Qed.

Lemma to_not_and_convert_own_basis fuel f :
  wf f = true → operators f ⊆ {[ "~"; "&" ]} → height f ≤ fuel →
  to_not_and_convert fuel f = Some f.
Proof.
  revert f. induction fuel as [|fuel IH]; intros f Hwf Hops Hfuel.
  { destruct f; simpl in Hfuel; lia. }
  destruct f as [r|r a|r a b]; simpl in *.
  - destruct (is_variable r) eqn:Hv; [done|]. simpl in Hwf.
    assert (H : ∀ x : string, x ∈ ({[ "~"; "&" ]} : gset string) →
                  x = "~" ∨ x = "&") by (clear; set_solver).
    apply is_constant_cases in Hwf as [->| ->]; exfalso;
      [destruct (H "T") as [?|?]|destruct (H "F") as [?|?]];
      try discriminate; apply Hops; clear; set_solver.
  - apply andb_true_iff in Hwf as [Hr Hwa]. apply is_unary_eq in Hr as ->.
    rewrite IH; [done|done| |lia]. clear -Hops. set_solver.
  - apply andb_true_iff in Hwf as [Hwf Hwb].
    apply andb_true_iff in Hwf as [Hr Hwa].
    assert (r = "&") as ->.
    { assert (r ∈ ({[ "~"; "&" ]} : gset string)) as Hin
        by (apply Hops; clear; set_solver).
      assert (r ≠ "~").
      { intros ->. by vm_compute in Hr. }
      clear -Hin H. set_solver. }
    cbn [String.eqb Ascii.eqb Bool.eqb].
    rewrite !IH; [done|done| |lia|done| |lia]; clear -Hops; set_solver.
Qed.

Lemma to_not_and_own_basis f :
  wf f = true → operators f ⊆ {[ "~"; "&" ]} → to_not_and f = Some f.
Proof.
  intros Hwf Hops. unfold to_not_and.
  rewrite to_not_and_or_own_basis; [|done|clear -Hops; set_solver].
  cbn [mbind option_bind].
  apply to_not_and_convert_own_basis; [done|done|unfold budget; lia].
Qed.
End own_basis.

(** X20: each of the five converters keeps the classification of a
    formula: the converted formula is a tautology, satisfiable or a
    contradiction exactly when the formula is, and the biconditional of
    the two is a tautology. *)
Theorem converters_preserve_classification C basis f :
  (C, basis) ∈ converters → constructed f →
  ∃ g, C f = Some g
       ∧ is_tautology g = is_tautology f
       ∧ is_satisfiable g = is_satisfiable f
       ∧ is_contradiction g = is_contradiction f
       ∧ is_tautology (Binary "<->" f g) = Some true.
Proof.
  intros HC Hwf%constructed_wf.
  destruct (converters_rewrite C basis f HC Hwf) as (g & Hg & Hwg & _ & _ & Heq).
  exists g. split; [done|].
  destruct (classifiers_ext f g Hwf Hwg Heq) as (Ht & Hs & Hc).
  split_and!; [done..|].
  apply equivalence_tautology; [done..|]. intros m. by rewrite Heq.
Qed.

Lemma converters_preserve_classification_witness :
  ∃ g, to_nand (Binary "->" (Leaf "x") (Leaf "T")) = Some g
       ∧ is_tautology g = is_tautology (Binary "->" (Leaf "x") (Leaf "T"))
       ∧ is_satisfiable g = is_satisfiable (Binary "->" (Leaf "x") (Leaf "T"))
       ∧ is_contradiction g = is_contradiction (Binary "->" (Leaf "x") (Leaf "T"))
       ∧ is_tautology (Binary "<->" (Binary "->" (Leaf "x") (Leaf "T")) g)
         = Some true.
Proof.
  apply (converters_preserve_classification to_nand {[ "-&" ]}
           (Binary "->" (Leaf "x") (Leaf "T"))).
  - unfold converters. apply list_elem_of_In. simpl. tauto.
  - apply constructed_wf. reflexivity.
Defined.

(** X21: [to_not_and_or] returns a constructed formula over [~], [&] and
    [|] as it is, and [to_not_and] one over [~] and [&]; hence both are
    idempotent: converting a converted formula again changes nothing. *)
Theorem converters_fix_own_basis f :
  constructed f →
  (operators f ⊆ {[ "~"; "&"; "|" ]} → to_not_and_or f = Some f)
  ∧ (operators f ⊆ {[ "~"; "&" ]} → to_not_and f = Some f)
  ∧ (∀ g, to_not_and_or f = Some g → to_not_and_or g = Some g)
  ∧ (∀ g, to_not_and f = Some g → to_not_and g = Some g).
Proof.
  intros Hwf%constructed_wf. split_and!.
  - by apply to_not_and_or_own_basis.
  - by apply to_not_and_own_basis.
  - intros g Hg.
    destruct (to_not_and_or_rewrites f Hwf) as (g' & Hg' & Hwg & Hops & _).
    rewrite Hg in Hg'. injection Hg' as <-.
    by apply to_not_and_or_own_basis.
  - intros g Hg.
    destruct (to_not_and_rewrites f Hwf) as (g' & Hg' & Hwg & Hops & _).
    rewrite Hg in Hg'. injection Hg' as <-.
    by apply to_not_and_own_basis.
Qed.

Lemma converters_fix_own_basis_witness :
  (operators (Unary "~" (Binary "&" (Leaf "p") (Leaf "q")))
     ⊆ {[ "~"; "&"; "|" ]} →
   to_not_and_or (Unary "~" (Binary "&" (Leaf "p") (Leaf "q")))
   = Some (Unary "~" (Binary "&" (Leaf "p") (Leaf "q"))))
  ∧ (operators (Unary "~" (Binary "&" (Leaf "p") (Leaf "q"))) ⊆ {[ "~"; "&" ]} →
     to_not_and (Unary "~" (Binary "&" (Leaf "p") (Leaf "q")))
     = Some (Unary "~" (Binary "&" (Leaf "p") (Leaf "q"))))
  ∧ (∀ g, to_not_and_or (Unary "~" (Binary "&" (Leaf "p") (Leaf "q"))) = Some g →
          to_not_and_or g = Some g)
  ∧ (∀ g, to_not_and (Unary "~" (Binary "&" (Leaf "p") (Leaf "q"))) = Some g →
          to_not_and g = Some g).
Proof.
  apply (converters_fix_own_basis (Unary "~" (Binary "&" (Leaf "p") (Leaf "q")))).
  apply constructed_wf. reflexivity.
Defined.


(** * The printed truth table *)

Section printed_table.
Implicit Types (f : Formula) (m : gmap string bool) (vs : list string)
  (widths : list nat).









End printed_table.


